(** * toshi-ethereum-service: the transaction lifecycle pipeline

    A shallow embedding of
      - [toshieth/manager.py]  (class [TransactionQueueHandler]: the Queue
        Processor and the status updates with their notifications), and
      - [tokeneth/jsonrpc.py]  (class [TokenEthJsonRPC]: the intake of signed
        transactions),
    followed by the properties of the specification that concern them.

    Conventions.  Python integers are [Z].  SQL [VARCHAR] columns, addresses,
    hashes and statuses are [string]; a nullable column is an [option].  The
    database tables are lists of rows in storage order ([fetchrow] returns
    the first row that matches), the key-value cache is a record of finite
    maps and sets, one per key pattern.  Everything the handlers send out
    (raw transactions, notifications, dispatched tasks) is appended to an
    event log, oldest event first.  A handler runs from its call to its
    return on the tables it was given; the node may answer each call
    differently.  Calls to the database, the cache and the node return: of
    the node's failures only the [JsonRPCError] the source catches is
    modelled. *)

From stdpp Require Import base numbers strings list gmap.

Open Scope string_scope.
Open Scope list_scope.
Open Scope Z_scope.

(** ** Values that cross the boundary of the service *)

(** The object built by [create_transaction] / [decode_transaction]: the
    fields of an Ethereum transaction, with the signature when present. *)
Record EthTx := {
  tx_nonce : Z;
  tx_value : Z;
  tx_gasprice : Z;
  tx_startgas : Z;
  tx_to : string;
  tx_data : string;
  tx_v : option Z;
  tx_r : option Z;
  tx_s : option Z
}.

(** A transaction as the node reports it ([eth_getTransactionByHash]); the
    key [blockNumber] is always present and is null while pending. *)
Record NodeTx := { blockNumber : option string }.

(** An entry of [tx_receipt['logs']]. *)
Record ReceiptLog := { topics : list string; address : string }.

(** A receipt ([eth_getTransactionReceipt]); [logs] may be null. *)
Record Receipt := { logs : option (list ReceiptLog) }.

(** A JSON-RPC failure: [JsonRPCError] with its (possibly empty) message. *)
Record JsonRPCError := { message : option string }.

(** The Ethereum node and the wall clock.  Every answer may depend on the
    moment of the call: the first argument is the number of external calls
    this handler made before. *)
Record Node := {
  eth_getBalance : nat -> string -> option Z -> Z;
  eth_getTransactionCount : nat -> string -> option Z -> Z;
  eth_sendRawTransaction : nat -> EthTx -> string + JsonRPCError;
  eth_getTransactionByHash : nat -> string -> option NodeTx;
  eth_getTransactionReceipt : nat -> string -> option Receipt;
  time_time : nat -> Z
}.

(** The rendered notification payloads: [SofaPayment(...).render()] and the
    ["SOFA::TokenPayment: "] message. *)
Inductive Message :=
| Payment (value : option Z) (txHash status fromAddress toAddress : string)
| TokenPayment (txHash fromAddress toAddress status : string)
               (value : option string) (contractAddress : string).

(** What a handler sends out. *)
Inductive Event :=
| SendRaw (tx : EthTx)
    (* self.eth.eth_sendRawTransaction(encode_transaction(tx)) *)
| Notify (address : string) (msg : Message)
    (* manager_dispatcher.send_notification(address, message) *)
| ProcessQueue (address : string) (delay : option Z)
    (* manager_dispatcher.process_transaction_queue(address)[.delay(n)] *)
| UpdateTransactionTask (transaction_id : Z) (status : string) (retry_start_time : Z)
    (* manager_dispatcher.update_transaction(id, status, retry_start_time=..) *)
| UpdateTokenCache (contract from_addr to_addr : string) (blocknumber : option Z)
    (* erc20_dispatcher.update_token_cache(...) *)
| Sleep
    (* asyncio.sleep(random.random()) *)
| MonitorNotify (tx : EthTx).
    (* IOLoop.current().add_callback(monitor.send_transaction_notifications, txjson) *)

#[global] Instance EthTx_eq_dec : EqDecision EthTx.
Proof. solve_decision. Defined.
#[global] Instance Message_eq_dec : EqDecision Message.
Proof. solve_decision. Defined.
#[global] Instance Event_eq_dec : EqDecision Event.
Proof. solve_decision. Defined.

(** Python's truth value of a string and of an optional integer. *)
Definition truthy_str (s : string) : bool := negb (String.eqb s "").
Definition truthy_int (o : option Z) : bool :=
  match o with Some n => negb (n =? 0) | None => false end.

(** [x or d] where [x] is an optional integer. *)
Definition or_int (o : option Z) (d : Z) : Z :=
  if truthy_int o then default d o else d.

(** [l.pop()]: the last element and the list without it. *)
Fixpoint pop {A} (l : list A) : option (A * list A) :=
  match l with
  | [] => None
  | [x] => Some (x, [])
  | x :: l' => match pop l' with
               | Some (y, r) => Some (y, x :: r)
               | None => None
               end
  end.

(** [del l[idx]] with [idx = next(i for i, e in enumerate(l) if p e)]:
    the first element satisfying [p] is removed; [None] when [next] raises
    [StopIteration]. *)
Fixpoint del_first {A} (p : A -> bool) (l : list A) : option (list A) :=
  match l with
  | [] => None
  | x :: l' => if p x then Some l' else cons x <$> del_first p l'
  end.

(** [ORDER BY key]: a stable insertion sort (rows with equal keys keep the
    storage order, which SQL leaves open). *)
Fixpoint insert_by {A} (key : A -> Z) (x : A) (l : list A) : list A :=
  match l with
  | [] => [x]
  | y :: l' => if key x <=? key y then x :: y :: l' else y :: insert_by key x l'
  end.

Definition order_by {A} (key : A -> Z) (l : list A) : list A :=
  foldr (insert_by key) [] l.

Definition order_by_desc {A} (key : A -> Z) (l : list A) : list A :=
  order_by (fun x => - key x) l.

(** * The task manager ([toshieth/manager.py]) *)

Module Manager.

(** A row of table [transactions]. *)
Record Transaction := {
  transaction_id : Z;
  hash : string;
  from_address : string;
  to_address : string;
  nonce : Z;
  value : option string;
  gas : option string;
  gas_price : option string;
  data : option string;
  v : option string;
  r : option string;
  s : option string;
  status : string;
  blocknumber : option Z
}.

(** A row of table [token_transactions]. *)
Record TokenTransaction := {
  tk_transaction_id : Z;
  transaction_log_index : Z;
  tk_contract_address : string;
  tk_value : option string;
  tk_from_address : string;
  tk_to_address : string;
  tk_status : string
}.

(** A row of table [tokens]; only the join column is read. *)
Record Token := { contract_address : string }.

(** The key-value cache (Redis), one component per key pattern:
    ['processing_tx_queue:{addr}'], ['processing_tx_queue:{addr}:should_re_run']
    and ['gas_station_safelow_gas_price']. *)
Record Cache := {
  processing_tx_queue : gset string;
  should_re_run : gset string;
  gas_station_safelow_gas_price : option string
}.

Record State := {
  transactions : list Transaction;
  token_transactions : list TokenTransaction;
  tokens : list Token;
  last_blocknumber : option Z;
  redis : Cache;
  clock : nat;
  events : list Event
}.

Definition set_transactions (f : list Transaction -> list Transaction) (st : State) : State :=
  {| transactions := f (transactions st);
     token_transactions := token_transactions st;
     tokens := tokens st;
     last_blocknumber := last_blocknumber st;
     redis := redis st;
     clock := clock st;
     events := events st |}.

Definition set_token_transactions
    (f : list TokenTransaction -> list TokenTransaction) (st : State) : State :=
  {| transactions := transactions st;
     token_transactions := f (token_transactions st);
     tokens := tokens st;
     last_blocknumber := last_blocknumber st;
     redis := redis st;
     clock := clock st;
     events := events st |}.

Definition set_redis (f : Cache -> Cache) (st : State) : State :=
  {| transactions := transactions st;
     token_transactions := token_transactions st;
     tokens := tokens st;
     last_blocknumber := last_blocknumber st;
     redis := f (redis st);
     clock := clock st;
     events := events st |}.

(** One more external call has been made. *)
Definition tick (st : State) : State :=
  {| transactions := transactions st;
     token_transactions := token_transactions st;
     tokens := tokens st;
     last_blocknumber := last_blocknumber st;
     redis := redis st;
     clock := S (clock st);
     events := events st |}.

Definition emit (e : Event) (st : State) : State :=
  {| transactions := transactions st;
     token_transactions := token_transactions st;
     tokens := tokens st;
     last_blocknumber := last_blocknumber st;
     redis := redis st;
     clock := clock st;
     events := events st ++ [e] |}.

(** [UPDATE transactions SET status = $1 [, blocknumber = $2] WHERE transaction_id = $3] *)
Definition with_status (new_status : string) (bn : option (option Z)) (t : Transaction)
  : Transaction :=
  {| transaction_id := transaction_id t;
     hash := hash t;
     from_address := from_address t;
     to_address := to_address t;
     nonce := nonce t;
     value := value t;
     gas := gas t;
     gas_price := gas_price t;
     data := data t;
     v := v t;
     r := r t;
     s := s t;
     status := new_status;
     blocknumber := match bn with Some b => b | None => blocknumber t end |}.

Definition sql_update_status (id : Z) (new_status : string) (bn : option (option Z))
    (rows : list Transaction) : list Transaction :=
  map (fun t => if transaction_id t =? id then with_status new_status bn t else t) rows.

(** [UPDATE token_transactions SET status = $1
     WHERE transaction_id = $2 AND transaction_log_index = $3] *)
Definition with_tk_status (new_status : string) (t : TokenTransaction) : TokenTransaction :=
  {| tk_transaction_id := tk_transaction_id t;
     transaction_log_index := transaction_log_index t;
     tk_contract_address := tk_contract_address t;
     tk_value := tk_value t;
     tk_from_address := tk_from_address t;
     tk_to_address := tk_to_address t;
     tk_status := new_status |}.

Definition sql_update_token_status (id idx : Z) (new_status : string)
    (rows : list TokenTransaction) : list TokenTransaction :=
  map (fun t => if (tk_transaction_id t =? id) && (transaction_log_index t =? idx)
                then with_tk_status new_status t else t) rows.

(** [SELECT * FROM transactions WHERE transaction_id = $1] (fetchrow) *)
Definition fetch_by_id (id : Z) (rows : list Transaction) : option Transaction :=
  find (fun t => transaction_id t =? id) rows.

(** [SELECT ... FROM token_transactions tx JOIN tokens tok
     ON tok.contract_address = tx.contract_address WHERE tx.transaction_id = $1] *)
Definition fetch_token_txs (id : Z) (st : State) : list TokenTransaction :=
  flat_map (fun tk =>
      if tk_transaction_id tk =? id
      then flat_map (fun tok =>
             if String.eqb (contract_address tok) (tk_contract_address tk)
             then [tk] else []) (tokens st)
      else [])
    (token_transactions st).

(** What the service imports from outside the repository ([toshi.utils],
    [toshi.ethereum.tx], [toshi.ethereum.utils], [toshieth.constants],
    [toshi.log]); the embedding is parametric in it. *)
Record Env := {
  (* parse_int: a decimal or hex numeral, or None *)
  parse_int : option string -> option Z;
  (* data_decoder: hex text to bytes *)
  data_decoder : string -> string;
  (* create_transaction raises InvalidTransaction on fields it refuses *)
  valid_transaction : EthTx -> bool;
  (* data_encoder(tx.sender): the address recovered from (v, r, s);
     None when the recovery raises *)
  recover_sender : EthTx -> option string;
  decode_single_address : string -> string;
  TRANSFER_TOPIC : string;
  DEPOSIT_TOPIC : string;
  WITHDRAWAL_TOPIC : string;
  WETH_CONTRACT_ADDRESS : string;
  (* whether the decorator log_unhandled_exceptions lets the exception it
     logged escape to the caller *)
  log_unhandled_exceptions_reraises : bool
}.

(** How a coroutine ends: it returns, or an exception escapes. *)
Inductive outcome := Returned | Raised.

(** An element of [messages]: [(from_address, to_address, status, message)]. *)
Record Msg := {
  m_from : string;
  m_to : string;
  m_status : string;
  m_message : Message
}.

Definition ZERO_ADDRESS : string := "0x0000000000000000000000000000000000000000".

Section Handler.

Context (env : Env) (node : Node).

(** *** [update_transaction] (manager.py, lines 308-465) *)

(** One turn of [for _log in tx_receipt['logs']]: [Some true] when the log
    sets [has_transfer_event] (and breaks), [Some false] when the loop goes
    on, [None] when indexing [topics] raises [IndexError]. *)
Definition log_matches (from_addr to_addr : string) (lg : ReceiptLog) : option bool :=
  if (2 <? length (topics lg))%nat then
    t0 ← topics lg !! 0%nat;
    t1 ← topics lg !! 1%nat;
    t2 ← topics lg !! 2%nat;
    Some (String.eqb t0 (TRANSFER_TOPIC env)
          && String.eqb (decode_single_address env t1) from_addr
          && String.eqb (decode_single_address env t2) to_addr)
  else if String.eqb (address lg) (WETH_CONTRACT_ADDRESS env) then
    t0 ← topics lg !! 0%nat;
    deposit ←
      (if String.eqb t0 (DEPOSIT_TOPIC env)
       then t1 ← topics lg !! 1%nat;
            Some (String.eqb (decode_single_address env t1) to_addr)
       else Some false);
    if deposit : bool then Some true
    else if String.eqb t0 (WITHDRAWAL_TOPIC env)
         then t1 ← topics lg !! 1%nat;
              Some (String.eqb (decode_single_address env t1) from_addr)
         else Some false
  else Some false.

Fixpoint has_transfer_event (from_addr to_addr : string) (lgs : list ReceiptLog)
  : option bool :=
  match lgs with
  | [] => Some false
  | lg :: rest =>
      match log_matches from_addr to_addr lg with
      | None => None
      | Some true => Some true
      | Some false => has_transfer_event from_addr to_addr rest
      end
  end.

(** The body of [for token_tx in token_txs] for one row.  [receipt] is the
    receipt fetched when [status] is ['confirmed'], [blocknumber] is
    [parse_int(transaction['blockNumber'])]. *)
Definition token_step (tx : Transaction) (status : string)
    (receipt : option Receipt) (blocknumber : option Z)
    (token_tx : TokenTransaction) (st : State) (messages : list Msg)
  : option (State * list Msg) :=
  let from_addr := tk_from_address token_tx in
  let to_addr := tk_to_address token_tx in
  checked ←
    (if String.eqb status "confirmed" then
       found ← match receipt with
               | Some {| logs := Some lgs |} => has_transfer_event from_addr to_addr lgs
               | _ => Some false
               end;
       if found : bool
       then Some (status,
                  emit (UpdateTokenCache (tk_contract_address token_tx)
                          from_addr to_addr blocknumber) st)
       else Some ("error", st)
     else Some (status, st));
  let '(token_tx_status, st) := checked in
  let messages :=
    if String.eqb token_tx_status "confirmed"
    then messages ++ [ {| m_from := from_addr; m_to := to_addr;
                          m_status := token_tx_status;
                          m_message := TokenPayment (hash tx) from_addr to_addr
                                         token_tx_status (tk_value token_tx)
                                         (tk_contract_address token_tx) |} ]
    else messages in
  let st := set_token_transactions
              (sql_update_token_status (transaction_id tx)
                 (transaction_log_index token_tx) token_tx_status) st in
  let messages :=
    if String.eqb (tk_contract_address token_tx) (WETH_CONTRACT_ADDRESS env)
       && (String.eqb from_addr ZERO_ADDRESS || String.eqb to_addr ZERO_ADDRESS)
    then messages ++ [ {| m_from := from_addr; m_to := to_addr; m_status := status;
                          m_message := Payment (parse_int env (tk_value token_tx))
                                         (hash tx) status from_addr to_addr |} ]
    else messages in
  Some (st, messages).

(** [for token_tx in token_txs]: the state reached and the messages, or the
    state in which an exception escaped. *)
Fixpoint token_loop (tx : Transaction) (status : string)
    (receipt : option Receipt) (blocknumber : option Z)
    (token_txs : list TokenTransaction) (st : State) (messages : list Msg)
  : State * option (list Msg) :=
  match token_txs with
  | [] => (st, Some messages)
  | token_tx :: rest =>
      match token_step tx status receipt blocknumber token_tx st messages with
      | None => (st, None)
      | Some (st', messages') =>
          token_loop tx status receipt blocknumber rest st' messages'
      end
  end.

(** [for from_address, to_address, status, message in messages] (lines
    443-465); [tx_status] is the status the row had before the update. *)
Fixpoint dispatch_messages (tx_status : string) (messages : list Msg) (st : State)
  : State :=
  match messages with
  | [] => st
  | m :: rest =>
      let st := emit (Notify (m_from m) (m_message m)) st in
      if String.eqb (m_to m) "0x" then st
      else
        let st :=
          if String.eqb tx_status "new"
          then if negb (String.eqb (m_status m) "error")
               then emit (Notify (m_to m) (m_message m)) st
               else st
          else emit (Notify (m_to m) (m_message m)) st in
        let st := emit (ProcessQueue (m_to m) None) st in
        dispatch_messages tx_status rest st
  end.

(** Lines 360-465: from the comment [# render notification] on. *)
Definition render_notification (transaction_id : Z) (tx : Transaction)
    (token_txs : list TokenTransaction) (status : string)
    (blocknumber : option Z) (st : State) : State * outcome :=
  let coalesced :=
    if String.eqb status "queued" then Some "unconfirmed"
    else if String.eqb status "unconfirmed" && String.eqb (Manager.status tx) "queued"
         then None
         else Some status in
  match coalesced with
  | None => (st, Returned)
  | Some status =>
      match token_txs with
      | [] =>
          let messages :=
            [ {| m_from := from_address tx; m_to := to_address tx; m_status := status;
                 m_message := Payment (parse_int env (value tx)) (hash tx) status
                                (from_address tx) (to_address tx) |} ] in
          (dispatch_messages (Manager.status tx) messages st, Returned)
      | _ :: _ =>
          let '(st, receipt) :=
            if String.eqb status "confirmed"
            then (tick st, eth_getTransactionReceipt node (clock st) (hash tx))
            else (st, None) in
          if String.eqb status "confirmed" && negb (bool_decide (is_Some receipt))
          then (emit (UpdateTransactionTask transaction_id status 0) st, Returned)
          else
            match token_loop tx status receipt blocknumber token_txs st [] with
            | (st, None) => (st, Raised)
            | (st, Some messages) =>
                (dispatch_messages (Manager.status tx) messages st, Returned)
            end
      end
  end.

(** The coroutine itself, before the decorator. *)
Definition update_transaction_body (transaction_id : Z) (status : string)
    (retry_start_time : Z) (st : State) : State * outcome :=
  match fetch_by_id transaction_id (transactions st) with
  | None => (st, Returned)
  | Some tx =>
      if String.eqb (Manager.status tx) status then (st, Returned)
      else
        let token_txs := fetch_token_txs transaction_id st in
        if String.eqb (Manager.status tx) "confirmed" then (st, Returned)
        else if String.eqb status "confirmed" then
          let transaction := eth_getTransactionByHash node (clock st) (hash tx) in
          let st := tick st in
          match transaction with
          | Some {| blockNumber := Some bn |} =>
              (* the log line reads the clock when retry_start_time > 0 *)
              let st := if 0 <? retry_start_time then tick st else st in
              let blocknumber := parse_int env (Some bn) in
              let st := set_transactions
                          (sql_update_status transaction_id status (Some blocknumber)) st in
              render_notification transaction_id tx token_txs status blocknumber st
          | _ =>
              let '(st, too_late) :=
                if 0 <? retry_start_time
                then (tick st, 60 <=? time_time node (clock st) - retry_start_time)
                else (st, false) in
              if too_late then (st, Returned)
              else
                let st := emit Sleep st in
                let '(st, start) :=
                  if negb (retry_start_time =? 0) then (st, retry_start_time)
                  else (tick st, time_time node (clock st)) in
                (emit (UpdateTransactionTask transaction_id status start) st, Returned)
          end
        else
          let st := set_transactions (sql_update_status transaction_id status None) st in
          render_notification transaction_id tx token_txs status None st
  end.

(** [@log_unhandled_exceptions(logger=log)] *)
Definition log_unhandled_exceptions (res : State * outcome) : State * outcome :=
  if log_unhandled_exceptions_reraises env then res else (res.1, Returned).

Definition update_transaction (transaction_id : Z) (status : string)
    (retry_start_time : Z) (st : State) : State * outcome :=
  log_unhandled_exceptions
    (update_transaction_body transaction_id status retry_start_time st).

(** *** [_process_transaction_queue] (manager.py, lines 60-306) *)

Definition is_new_or_queued (t : Transaction) : bool :=
  String.eqb (status t) "new" || String.eqb (status t) "queued".

(** [blocknumber > $2], false on a NULL column. *)
Definition blocknumber_above (bound : Z) (t : Transaction) : bool :=
  match blocknumber t with Some b => bound <? b | None => false end.

(** Lines 70-78: the queue, [ORDER BY nonce DESC]. *)
Definition fetch_transactions_out (ethereum_address : string) (st : State)
  : list Transaction :=
  order_by_desc nonce
    (filter (fun t => String.eqb (from_address t) ethereum_address
                      && is_new_or_queued t
                      && bool_decide (is_Some (r t)))
            (transactions st)).

(** Lines 96-102: the sender's rows already on the network, [ORDER BY nonce]. *)
Definition fetch_unconfirmed_txs (ethereum_address : string) (st : State)
  : list Transaction :=
  order_by nonce
    (filter (fun t => String.eqb (from_address t) ethereum_address
                      && (String.eqb (status t) "unconfirmed"
                          || (String.eqb (status t) "confirmed"
                              && blocknumber_above (or_int (last_blocknumber st) 0) t)))
            (transactions st)).

(** Line 133: the other row with the same sender and nonce (fetchrow). *)
Definition fetch_old_tx (ethereum_address : string) (transaction : Transaction)
    (st : State) : option Transaction :=
  find (fun t => String.eqb (from_address t) ethereum_address
                 && (nonce t =? nonce transaction)
                 && negb (String.eqb (hash t) (hash transaction)))
       (transactions st).

(** Lines 268-274: the inbound rows that may still fund this address. *)
Definition fetch_transactions_in (ethereum_address : string) (st : State)
  : list Transaction :=
  filter (fun t => String.eqb (to_address t) ethereum_address
                   && (String.eqb (status t) "new" || String.eqb (status t) "queued"
                       || String.eqb (status t) "unconfirmed"
                       || (String.eqb (status t) "confirmed"
                           && blocknumber_above (or_int (last_blocknumber st) 0) t)))
         (transactions st).

(** [last_blocknumber or "latest"]: [None] stands for ["latest"]. *)
Definition block_or_latest (st : State) : option Z :=
  if truthy_int (last_blocknumber st) then last_blocknumber st else None.

(** [parse_int(tx['value']) + parse_int(tx['gas']) * parse_int(tx['gas_price'])];
    [None] when an operand is [None] (a [TypeError]). *)
Definition cost_of (t : Transaction) : option Z :=
  value ← parse_int env (value t);
  gas ← parse_int env (gas t);
  gas_price ← parse_int env (gas_price t);
  Some (value + gas * gas_price).

(** [sum(... for tx in unconfirmed_txs)] *)
Fixpoint sum_costs (txs : list Transaction) : option Z :=
  match txs with
  | [] => Some 0
  | t :: rest => c ← cost_of t; total ← sum_costs rest; Some (c + total)
  end.

(** [sum((parse_int(p['value']) or 0) for p in transactions_in)] *)
Definition pending_received (txs : list Transaction) : Z :=
  foldr (fun p acc => or_int (parse_int env (value p)) 0 + acc) 0 txs.

(** [any(t['blocknumber'] is not None and t['blocknumber'] > last_blocknumber
         for t in transactions_in)]; [None] when the comparison with a
    missing [last_blocknumber] raises. *)
Fixpoint any_above_last (last : option Z) (txs : list Transaction) : option bool :=
  match txs with
  | [] => Some false
  | t :: rest =>
      match blocknumber t with
      | None => any_above_last last rest
      | Some b =>
          match last with
          | None => None
          | Some lb => if lb <? b then Some true else any_above_last last rest
          end
      end
  end.

(** The local variables of the [while transactions_out] loop. *)
Record Loop := {
  balance : Z;
  expected_nonce : Z;             (* the local [nonce] *)
  previous_error : bool;
  transactions_out : list Transaction;
  addresses_to_check : gset string
}.

(** Where one turn of the loop leaves the control. *)
Inductive control :=
| Continue (l : Loop) (st : State)    (* next turn *)
| Break (l : Loop) (st : State)       (* leave the loop *)
| Return (st : State)                 (* line 193: leave the coroutine *)
| Raise (st : State).                 (* an exception escapes *)

(** [await self.update_transaction(id, status)] followed by [k]. *)
Definition call_update (transaction_id : Z) (status : string) (st : State)
    (k : State -> control) : control :=
  match update_transaction transaction_id status 0 st with
  | (st', Returned) => k st'
  | (st', Raised) => Raise st'
  end.

(** Lines 210-213 and 294-297: every remaining ['new'] row becomes
    ['queued']; [pending] lists the current row and then the rows in the
    order [pop] would return them. *)
Fixpoint mark_queued (pending : list Transaction) (st : State) : State * outcome :=
  match pending with
  | [] => (st, Returned)
  | transaction :: rest =>
      if String.eqb (status transaction) "new"
      then match update_transaction (transaction_id transaction) "queued" 0 st with
           | (st', Returned) => mark_queued rest st'
           | (st', Raised) => (st', Raised)
           end
      else mark_queued rest st
  end.

Definition mark_queued_and_break (transaction : Transaction) (l : Loop) (st : State)
  : control :=
  match mark_queued (transaction :: rev (transactions_out l)) st with
  | (st', Returned) =>
      Break {| balance := balance l; expected_nonce := expected_nonce l;
               previous_error := previous_error l; transactions_out := [];
               addresses_to_check := addresses_to_check l |} st'
  | (st', Raised) => Raise st'
  end.

(** [previous_error = True; update_transaction(id, 'error');
     addresses_to_check.add(to_address); continue] *)
Definition fail_and_continue (transaction : Transaction) (l : Loop) (st : State)
  : control :=
  call_update (transaction_id transaction) "error" st (fun st' =>
    Continue {| balance := balance l; expected_nonce := expected_nonce l;
                previous_error := true; transactions_out := transactions_out l;
                addresses_to_check := {[to_address transaction]} ∪ addresses_to_check l |}
             st').

(** Lines 129-193: the nonce check.  [inl] when the turn goes on to the
    balance check, [inr] when the turn ends here. *)
Definition check_nonce (ethereum_address : string) (network_nonce : Z)
    (transaction : Transaction) (l : Loop) (st : State) : (Loop * State) + control :=
  if negb (expected_nonce l =? nonce transaction)
     && negb (network_nonce =? nonce transaction) then
    if String.eqb (status transaction) "new" then
      match fetch_old_tx ethereum_address transaction st with
      | Some old_tx =>
          if String.eqb (status old_tx) "error" then inl (l, st)
          else if String.eqb (status old_tx) "unconfirmed"
                  || String.eqb (status old_tx) "confirmed" then
            inr (fail_and_continue transaction l st)
          else if nonce old_tx <? nonce transaction then
            match update_transaction (transaction_id old_tx) "error" 0 st with
            | (st', Raised) => inr (Raise st')
            | (st', Returned) =>
                let queue :=
                  match del_first (fun e => transaction_id e =? transaction_id old_tx)
                                  (transactions_out l) with
                  | Some q => q
                  | None => transactions_out l
                  end in
                inl ({| balance := balance l; expected_nonce := expected_nonce l;
                        previous_error := previous_error l; transactions_out := queue;
                        addresses_to_check :=
                          {[to_address old_tx]} ∪ addresses_to_check l |}, st')
            end
          else
            inr (call_update (transaction_id transaction) "error" st (fun st' =>
              Continue {| balance := balance l; expected_nonce := expected_nonce l;
                          previous_error := previous_error l; transactions_out := [];
                          addresses_to_check :=
                            {[from_address transaction]} ∪
                            ({[to_address transaction]} ∪ addresses_to_check l) |}
                       st'))
      | None => inl (l, st)
      end
    else if String.eqb (status transaction) "queued" then
      inr (fail_and_continue transaction l st)
    else inr (Return st)
  else inl (l, st).

(** Lines 218-223: the transaction rebuilt from the stored row. *)
Definition rebuild (transaction : Transaction) (value gas gas_price : Z) : EthTx :=
  {| tx_nonce := nonce transaction;
     tx_value := value;
     tx_gasprice := gas_price;
     tx_startgas := gas;
     tx_to := to_address transaction;
     tx_data := match data transaction with
                | Some d => if truthy_str d then data_decoder env d else ""
                | None => ""
                end;
     tx_v := parse_int env (v transaction);
     tx_r := parse_int env (r transaction);
     tx_s := parse_int env (s transaction) |}.

Definition starts_with (pre : string) (o : string) : bool := String.prefix pre o.

(** [e.message and (e.message.startswith(..) or e.message.startswith(..))] *)
Definition already_known (e : JsonRPCError) : bool :=
  match message e with
  | Some m => truthy_str m
              && (starts_with "Transaction nonce is too low" m
                  || starts_with "Transaction with the same hash was already imported" m)
  | None => false
  end.

(** Lines 233-261: send the rebuilt transaction. *)
Definition send (transaction : Transaction) (tx : EthTx) (cost : Z)
    (l : Loop) (st : State) : control :=
  let answer := eth_sendRawTransaction node (clock st) tx in
  let st := tick (emit (SendRaw tx) st) in
  match answer with
  | inl _ =>
      call_update (transaction_id transaction) "unconfirmed" st (fun st' =>
        Continue {| balance := balance l - cost;
                    expected_nonce := if expected_nonce l =? nonce transaction
                                      then expected_nonce l + 1 else expected_nonce l;
                    previous_error := previous_error l;
                    transactions_out := transactions_out l;
                    addresses_to_check := addresses_to_check l |} st')
  | inr e =>
      let '(st, existing_tx) :=
        if already_known e
        then (tick st, eth_getTransactionByHash node (clock st) (hash transaction))
        else (st, None) in
      match existing_tx with
      | Some existing =>
          let new_status :=
            match blockNumber existing with
            | Some b => if truthy_str b then "confirmed" else "unconfirmed"
            | None => "unconfirmed"
            end in
          call_update (transaction_id transaction) new_status st (fun st' =>
            Continue l st')
      | None =>
          call_update (transaction_id transaction) "error" st (fun st' =>
            Continue {| balance := balance l; expected_nonce := expected_nonce l;
                        previous_error := true; transactions_out := transactions_out l;
                        addresses_to_check :=
                          {[to_address transaction]} ∪ addresses_to_check l |} st')
      end
  end.

(** Lines 204-205: [safe_gas_price and safe_gas_price > gas_price], the
    cached safe-low floor forbids this gas price. *)
Definition below_floor (gas_price : Z) (st : State) : bool :=
  let safe_gas_price := parse_int env (gas_station_safelow_gas_price (redis st)) in
  truthy_int safe_gas_price
  && match safe_gas_price with Some p => gas_price <? p | None => false end.

(** Lines 195-298: the balance check and what follows it. *)
Definition check_balance (ethereum_address : string) (transaction : Transaction)
    (l : Loop) (st : State) : control :=
  match parse_int env (value transaction), parse_int env (gas transaction),
        parse_int env (gas_price transaction) with
  | Some value, Some gas, Some gas_price =>
      let cost := value + gas * gas_price in
      if cost <=? balance l then
        if below_floor gas_price st then
          let st := emit (ProcessQueue ethereum_address (Some 60)) st in
          mark_queued_and_break transaction l st
        else
          let tx := rebuild transaction value gas gas_price in
          if negb (valid_transaction env tx) then Raise st
          else
            match recover_sender env tx with
            | None => Raise st
            | Some sender =>
                if negb (String.eqb sender ethereum_address) then
                  (* previous_error = True; add; update_transaction; continue *)
                  fail_and_continue transaction l st
                else send transaction tx cost l st
            end
      else
        let transactions_in := fetch_transactions_in ethereum_address st in
        let received := pending_received transactions_in in
        if balance l + received <? cost then fail_and_continue transaction l st
        else
          match any_above_last (last_blocknumber st) transactions_in with
          | None => Raise st
          | Some above =>
              let l := {| balance := balance l; expected_nonce := expected_nonce l;
                          previous_error := previous_error l;
                          transactions_out := transactions_out l;
                          addresses_to_check :=
                            if above then {[ethereum_address]} ∪ addresses_to_check l
                            else addresses_to_check l |} in
              mark_queued_and_break transaction l st
          end
  | _, _, _ => Raise st
  end.

(** One turn of the loop, after [transaction = transactions_out.pop()]. *)
Definition process_candidate (ethereum_address : string) (network_nonce : Z)
    (transaction : Transaction) (l : Loop) (st : State) : control :=
  if previous_error l then
    call_update (transaction_id transaction) "error" st (fun st' =>
      Continue {| balance := balance l; expected_nonce := expected_nonce l;
                  previous_error := previous_error l;
                  transactions_out := transactions_out l;
                  addresses_to_check :=
                    {[to_address transaction]} ∪ addresses_to_check l |} st')
  else
    match check_nonce ethereum_address network_nonce transaction l st with
    | inr c => c
    | inl (l, st) => check_balance ethereum_address transaction l st
    end.

(** How the loop ends. *)
Inductive loop_end :=
| Finished (l : Loop) (st : State)   (* the queue is empty, or [break] *)
| Aborted (st : State)               (* [return] at line 193 *)
| Failed (st : State)                (* an exception escaped *)
| OutOfFuel.

Definition with_queue (q : list Transaction) (l : Loop) : Loop :=
  {| balance := balance l; expected_nonce := expected_nonce l;
     previous_error := previous_error l; transactions_out := q;
     addresses_to_check := addresses_to_check l |}.

(** [while transactions_out: transaction = transactions_out.pop() ...];
    every turn shortens the queue, and [fuel] bounds the number of turns. *)
Fixpoint queue_loop (fuel : nat) (ethereum_address : string) (network_nonce : Z)
    (l : Loop) (st : State) : loop_end :=
  match pop (transactions_out l) with
  | None => Finished l st
  | Some (transaction, rest) =>
      match fuel with
      | O => OutOfFuel
      | S fuel' =>
          match process_candidate ethereum_address network_nonce transaction
                  (with_queue rest l) st with
          | Continue l' st' => queue_loop fuel' ethereum_address network_nonce l' st'
          | Break l' st' => Finished l' st'
          | Return st' => Aborted st'
          | Raise st' => Failed st'
          end
      end
  end.

(** Lines 300-306: the follow-up passes. *)
Definition dispatch_addresses (addresses : list string) (st : State) : State :=
  foldl (fun st address =>
           if negb (String.eqb address "0x")
           then emit (ProcessQueue address None) st else st)
        st addresses.

Definition finish_pass (ethereum_address : string) (l : Loop) (st : State) : State :=
  let st := dispatch_addresses (elements (addresses_to_check l)) st in
  match transactions_out l with
  | [] => st
  | _ :: _ => emit (ProcessQueue ethereum_address None) st
  end.

(** Lines 86-115: the working balance and the expected nonce the loop starts
    with; [None] when the sum raises. *)
Definition start_loop (ethereum_address : string) (queue : list Transaction)
    (st : State) : option (Z * Loop * State) :=
  let balance := eth_getBalance node (clock st) ethereum_address (block_or_latest st) in
  let st := tick st in
  let unconfirmed_txs := fetch_unconfirmed_txs ethereum_address st in
  let network_nonce :=
    eth_getTransactionCount node (clock st) ethereum_address (block_or_latest st) in
  let st := tick st in
  match unconfirmed_txs with
  | [] =>
      Some (network_nonce,
            {| balance := balance; expected_nonce := network_nonce;
               previous_error := false; transactions_out := queue;
               addresses_to_check := ∅ |}, st)
  | _ :: _ =>
      spent ← sum_costs unconfirmed_txs;
      last_tx ← last unconfirmed_txs;
      Some (network_nonce,
            {| balance := balance - spent; expected_nonce := nonce last_tx + 1;
               previous_error := false; transactions_out := queue;
               addresses_to_check := ∅ |}, st)
  end.

Definition process_transaction_queue_pass_fuel (fuel : nat)
    (ethereum_address : string) (st : State) : option (State * outcome) :=
  let queue := fetch_transactions_out ethereum_address st in
  match queue with
  | [] => Some (st, Returned)
  | _ :: _ =>
      match start_loop ethereum_address queue st with
      | None => Some (tick (tick st), Raised)
      | Some (network_nonce, l, st) =>
          match queue_loop fuel ethereum_address network_nonce l st with
          | Finished l st => Some (finish_pass ethereum_address l st, Returned)
          | Aborted st => Some (st, Returned)
          | Failed st => Some (st, Raised)
          | OutOfFuel => None
          end
      end
  end.

(** [_process_transaction_queue]: the queue has [length queue] rows, which
    is as many turns as the loop can take. *)
Definition _process_transaction_queue (ethereum_address : string) (st : State)
  : option (State * outcome) :=
  process_transaction_queue_pass_fuel
    (length (fetch_transactions_out ethereum_address st)) ethereum_address st.

End Handler.

(** *** [process_transaction_queue] (manager.py, lines 33-58)

    Several invocations for the same or for different addresses run as
    cooperating tasks on one cache.  Each invocation is a small machine whose
    steps are the cache commands it awaits; the pass itself is one step. *)

Inductive pc :=
| AtStart        (* line 37: SET processing_tx_queue:{addr} 1 EX 120 NX *)
| NotRunning     (* line 41: should_run was false; SET ...:should_re_run 1 *)
| InPass         (* line 44: await self._process_transaction_queue(addr) *)
| ReadFlag       (* lines 45-50: MULTI; GET should_re_run; DEL should_re_run; EXEC *)
| ResetExpiry    (* line 53: SET processing_tx_queue:{addr} 1 EX 120 *)
| Release        (* line 58: DEL processing_tx_queue:{addr} *)
| Done.

Record Instance := { inst_address : string; inst_pc : pc }.

Definition at_pc (i : Instance) (p : pc) : Instance :=
  {| inst_address := inst_address i; inst_pc := p |}.

Definition lock (a : string) (c : Cache) : Cache :=
  {| processing_tx_queue := {[a]} ∪ processing_tx_queue c;
     should_re_run := should_re_run c;
     gas_station_safelow_gas_price := gas_station_safelow_gas_price c |}.

Definition unlock (a : string) (c : Cache) : Cache :=
  {| processing_tx_queue := processing_tx_queue c ∖ {[a]};
     should_re_run := should_re_run c;
     gas_station_safelow_gas_price := gas_station_safelow_gas_price c |}.

Definition request_rerun (a : string) (c : Cache) : Cache :=
  {| processing_tx_queue := processing_tx_queue c;
     should_re_run := {[a]} ∪ should_re_run c;
     gas_station_safelow_gas_price := gas_station_safelow_gas_price c |}.

Definition clear_rerun (a : string) (c : Cache) : Cache :=
  {| processing_tx_queue := processing_tx_queue c;
     should_re_run := should_re_run c ∖ {[a]};
     gas_station_safelow_gas_price := gas_station_safelow_gas_price c |}.

Section Processor.

Context (env : Env) (node : Node).

(** The next step of one invocation. *)
Definition process_transaction_queue_step (i : Instance) (st : State)
  : option (Instance * State) :=
  let a := inst_address i in
  match inst_pc i with
  | AtStart =>
      if bool_decide (a ∈ processing_tx_queue (redis st))
      then Some (at_pc i NotRunning, st)
      else Some (at_pc i InPass, set_redis (lock a) st)
  | NotRunning => Some (at_pc i Done, set_redis (request_rerun a) st)
  | InPass =>
      match _process_transaction_queue env node a st with
      | Some (st', Returned) => Some (at_pc i ReadFlag, st')
      | Some (st', Raised) => Some (at_pc i Release, st')
      | None => None
      end
  | ReadFlag =>
      let should_run := bool_decide (a ∈ should_re_run (redis st)) in
      Some (at_pc i (if should_run then ResetExpiry else Release),
            set_redis (clear_rerun a) st)
  | ResetExpiry => Some (at_pc i InPass, set_redis (lock a) st)
  | Release => Some (at_pc i Done, set_redis (unlock a) st)
  | Done => None
  end.

(** An invocation that got the lock and has not yet deleted it. *)
Definition running (i : Instance) : bool :=
  match inst_pc i with
  | InPass | ReadFlag | ResetExpiry | Release => true
  | AtStart | NotRunning | Done => false
  end.

(** A step of the system: one invocation moves. *)
Inductive task_step : State * list Instance -> State * list Instance -> Prop :=
| task_step_intro (n : nat) (i i' : Instance) (st st' : State) (tasks : list Instance) :
    tasks !! n = Some i ->
    process_transaction_queue_step i st = Some (i', st') ->
    task_step (st, tasks) (st', <[n := i']> tasks).

(** The cache drops a processing key whose 120 seconds have run out.  The
    embedding has no clock for this: the step is possible whenever the key
    is present. *)
Inductive expire_step : State * list Instance -> State * list Instance -> Prop :=
| expire_step_intro (a : string) (st : State) (tasks : list Instance) :
    a ∈ processing_tx_queue (redis st) ->
    expire_step (st, tasks) (set_redis (unlock a) st, tasks).

Definition system_step (c c' : State * list Instance) : Prop :=
  task_step c c' \/ expire_step c c'.



End Processor.

(** *** What the properties below observe *)

(** The raw transactions handed to the node, oldest first. *)
Definition sent (evs : list Event) : list EthTx :=
  omap (fun e => match e with SendRaw tx => Some tx | _ => None end) evs.

(** The notifications dispatched, oldest first. *)
Definition notified (evs : list Event) : list (string * Message) :=
  omap (fun e => match e with Notify a m => Some (a, m) | _ => None end) evs.

(** The status field of a rendered message. *)
Definition message_status (m : Message) : string :=
  match m with
  | Payment _ _ status _ _ => status
  | TokenPayment _ _ _ status _ _ => status
  end.

(** The status the table holds for a transaction id. *)
Definition stored_status (id : Z) (st : State) : option string :=
  status <$> fetch_by_id id (transactions st).

(** A handler step that leaves the cache, the block marker and the token
    registry alone and sends nothing to the node. *)
Definition quiet (st st' : State) : Prop :=
  redis st' = redis st /\ last_blocknumber st' = last_blocknumber st /\
  tokens st' = tokens st /\ sent (events st') = sent (events st).

(** The events [dispatch_messages] appends for a list of messages. *)
Fixpoint notifications_for (tx_status : string) (messages : list Msg) : list Event :=
  match messages with
  | [] => []
  | m :: rest =>
      Notify (m_from m) (m_message m) ::
      (if String.eqb (m_to m) "0x" then []
       else
         (if String.eqb tx_status "new"
          then if negb (String.eqb (m_status m) "error")
               then [Notify (m_to m) (m_message m)] else []
          else [Notify (m_to m) (m_message m)])
         ++ ProcessQueue (m_to m) None :: notifications_for tx_status rest)
  end.

(** The addresses a status update reports as senders: the row's own, or
    those of its token transfers when it has some. *)
Definition senders (tx : Transaction) (token_txs : list TokenTransaction) : list string :=
  match token_txs with
  | [] => [from_address tx]
  | _ :: _ => tk_from_address <$> token_txs
  end.

(** [frame st st']: a quiet step that also leaves table [transactions] alone. *)
Definition frame (st st' : State) : Prop :=
  quiet st st' /\ transactions st' = transactions st.

(** A message list all of whose messages are payments shown with [status]
    and sent by one of [froms]. *)
Definition uniform (status : string) (froms : list string) (messages : list Msg) : Prop :=
  Forall (fun m => m_status m = status /\ message_status (m_message m) = status
                   /\ m_from m ∈ froms) messages.

(** The status a notification shows: ['queued'] is shown as ['unconfirmed']. *)
Definition shown (status : string) : string :=
  if String.eqb status "queued" then "unconfirmed" else status.

(** Nothing was handed to the node between [st] and [st']. *)
Definition nothing_sent (st st' : State) : Prop :=
  sent (events st') = sent (events st).

(** Every row of [rows] that was stored in [st] and not confirmed there
    holds [status] in [st']. *)
Definition all_set_to (status : string) (rows : list Transaction) (st st' : State)
  : Prop :=
  forall t s0, t ∈ rows ->
    stored_status (transaction_id t) st = Some s0 -> s0 <> "confirmed" ->
    stored_status (transaction_id t) st' = Some status.

(** The rows of a queue that are still ['new']. *)
Definition still_new (rows : list Transaction) : list Transaction :=
  filter (fun t => String.eqb (status t) "new" = true) rows.

Section Observations.

Context (env : Env) (node : Node).

(** The single message rendered for a row without token transfers. *)
Definition payment_of (tx : Transaction) (status : string) : Msg :=
  {| m_from := from_address tx; m_to := to_address tx; m_status := status;
     m_message := Payment (parse_int env (value tx)) (hash tx) status
                    (from_address tx) (to_address tx) |}.

(** [update_transaction(id, status)] for each row of [pending] in turn. *)
Definition update_all (status : string) (pending : list Transaction) (st : State) : State :=
  foldl (fun st t => (update_transaction env node (transaction_id t) status 0 st).1)
        st pending.

(** The candidate [transaction] is next in the queue of [l]. *)
Definition next_candidate (transaction : Transaction) (rest : list Transaction) (l : Loop)
  : Prop :=
  pop (transactions_out l) = Some (transaction, rest).

(** The state a turn of the loop ends in. *)
Definition control_state (c : control) : State :=
  match c with
  | Continue _ st | Break _ st | Return st | Raise st => st
  end.

(** [tx] was rebuilt from a row of [queue] and its signature recovers to
    [address]. *)
Definition signed_by (queue : list Transaction) (address : string) (tx : EthTx) : Prop :=
  recover_sender env tx = Some address /\
  exists t value gas gas_price, t ∈ queue /\ tx = rebuild env t value gas gas_price.

(** Between [st] and [st'] the cache is untouched and every raw transaction
    sent was rebuilt from [queue] and signed by [address]. *)
Definition sends_only (queue : list Transaction) (address : string) (st st' : State)
  : Prop :=
  redis st' = redis st /\
  exists new, sent (events st') = sent (events st) ++ new /\
              Forall (signed_by queue address) new.

(** A turn's result that respects [sends_only] and keeps or empties the
    queue. *)
Definition good_turn (queue : list Transaction) (address : string)
    (l : Loop) (st : State) (c : control) : Prop :=
  sends_only queue address st (control_state c) /\
  match c with
  | Continue l' _ =>
      transactions_out l' = transactions_out l \/ transactions_out l' = []
  | _ => True
  end.

(** Lines 129-193 let the candidate through. *)
Definition passes_nonce_check (ethereum_address : string) (network_nonce : Z)
    (transaction : Transaction) (l : Loop) (st : State) : Prop :=
  check_nonce env node ethereum_address network_nonce transaction l st = inl (l, st).

(** The state of a loop result, when there is one. *)
Definition loop_end_state (e : loop_end) : option State :=
  match e with
  | Finished _ st | Aborted st | Failed st => Some st
  | OutOfFuel => None
  end.

End Observations.

End Manager.

(** * The JSON-RPC intake ([tokeneth/jsonrpc.py]) *)

Module TokenEth.

(** A row of table [transactions] as this handler writes it.  The columns
    [value] and [estimated_gas_cost] hold [str(n)] for an integer [n]; the
    record keeps [n]. *)
Record Transaction := {
  transaction_hash : string;
  from_address : string;
  to_address : string;
  nonce : Z;
  value : Z;
  estimated_gas_cost : Z;
  sender_token_id : option string;
  last_status : option string
}.

(** The cache (Redis): the nonce hints under ['nonce:{addr}'] and the
    submission locks taken by [RedisLock] under ['{addr}:{nonce}'].  A hint
    is stored as the text of an integer (line 218), which is never empty, so
    the test [if c_nonce:] of line 194 holds for every stored hint; the map
    keeps the integer. *)
Record State := {
  transactions : list Transaction;
  nonce_hint : gmap string Z;
  submission_lock : gset (string * Z);
  clock : nat;
  events : list Event
}.

Definition tick (st : State) : State :=
  {| transactions := transactions st; nonce_hint := nonce_hint st;
     submission_lock := submission_lock st; clock := S (clock st);
     events := events st |}.

Definition emit (e : Event) (st : State) : State :=
  {| transactions := transactions st; nonce_hint := nonce_hint st;
     submission_lock := submission_lock st; clock := clock st;
     events := events st ++ [e] |}.

Definition set_nonce_hint (a : string) (n : Z) (st : State) : State :=
  {| transactions := transactions st; nonce_hint := <[a := n]> (nonce_hint st);
     submission_lock := submission_lock st; clock := clock st;
     events := events st |}.

Definition set_submission_lock (f : gset (string * Z) -> gset (string * Z)) (st : State)
  : State :=
  {| transactions := transactions st; nonce_hint := nonce_hint st;
     submission_lock := f (submission_lock st); clock := clock st;
     events := events st |}.

Definition insert_transaction (row : Transaction) (st : State) : State :=
  {| transactions := transactions st ++ [row]; nonce_hint := nonce_hint st;
     submission_lock := submission_lock st; clock := clock st;
     events := events st |}.

(** What the handler imports from [tokenservices] and [ethereum]. *)
Record Env := {
  (* decode_transaction; None when it raises *)
  decode_transaction : string -> option EthTx;
  is_transaction_signed : EthTx -> bool;
  signature_from_transaction : EthTx -> string;
  validate_signature : string -> bool;
  (* data_decoder on a signature; None when it raises *)
  data_decoder : string -> option string;
  add_signature_to_transaction : EthTx -> string -> EthTx;
  (* data_encoder(tx.sender); None when the recovery raises *)
  recover_sender : EthTx -> option string;
  (* transaction_to_json(tx)['hash'] *)
  transaction_hash_of : EthTx -> string;
  (* hasattr(self.application, 'monitor') *)
  has_monitor : bool
}.

(** The errors the handler raises. *)
Inductive error :=
| JsonRPCInvalidParamsError (id msg : string)
| JsonRPCInsufficientFundsError (id msg : string)
| JsonRPCInternalError (id msg : string)
| OtherException.

#[global] Instance error_eq_dec : EqDecision error.
Proof. solve_decision. Defined.

(** Modelled from the spec: the default of the status column of table
    [transactions]; the table's declaration is not among the sources and the
    [INSERT] of [send_transaction] names no status.  "Insert the transaction
    row with status [unconfirmed]". *)
Definition default_status : option string := Some "unconfirmed".

(** Modelled from the spec: [BalanceMixin.get_balances] with
    [ignore_pending_recieved=True] ([tokeneth/mixins.py] is not among the
    sources).  "Read current balance (confirmed minus outstanding cost of
    this sender's own unconfirmed outgoing)": the first component is the
    chain balance, the second subtracts value and gas cost of every
    unconfirmed row the address sent. *)
Definition outstanding_cost (address : string) (rows : list Transaction) : Z :=
  foldr (fun t acc =>
           if String.eqb (from_address t) address
              && bool_decide (last_status t = Some "unconfirmed")
           then value t + estimated_gas_cost t + acc else acc)
        0 rows.

Definition get_balances (node : Node) (address : string) (st : State) : Z * Z * State :=
  let confirmed := eth_getBalance node (clock st) address None in
  (confirmed, confirmed - outstanding_cost address (transactions st), tick st).

Section Intake.

Context (env : Env) (node : Node).

(** Lines 174-177: a known row with this sender and nonce whose status is
    not ['error'] (a NULL status does not satisfy [!=]). *)
Definition fetch_existing (from_addr : string) (n : Z) (st : State) : option Transaction :=
  find (fun t => String.eqb (from_address t) from_addr
                 && (nonce t =? n)
                 && match last_status t with
                    | Some s => negb (String.eqb s "error")
                    | None => false
                    end)
       (transactions st).

Definition invalid_nonce (msg : string) : error :=
  JsonRPCInvalidParamsError "invalid_nonce" msg.

(** Lines 192-199: the nonce the submission must carry. *)
Definition current_nonce (from_addr : string) (st : State) : Z * State :=
  let c_nonce := nonce_hint st !! from_addr in
  let nw_nonce := eth_getTransactionCount node (clock st) from_addr None in
  (match c_nonce with
   | Some c => if c <? nw_nonce then nw_nonce else c
   | None => nw_nonce
   end, tick st).

(** Lines 173-233: the block guarded by the submission lock. *)
Definition locked_section (user_token_id : option string) (tx : EthTx)
    (from_addr to_addr : string) (st : State) : State * (string + error) :=
  match fetch_existing from_addr (tx_nonce tx) st with
  | Some existing =>
      (* existing_tx = eth_getTransactionByHash(..): a debugging read *)
      (tick st, inr (invalid_nonce "Nonce already used"))
  | None =>
      let '(network_balance, balance, st) := get_balances node from_addr st in
      if balance <? tx_value tx + tx_startgas tx * tx_gasprice tx then
        (st, inr (JsonRPCInsufficientFundsError "insufficient_funds"
                    "Insufficient Funds"))
      else
        let '(c_nonce, st) := current_nonce from_addr st in
        if tx_nonce tx <? c_nonce then
          (st, inr (invalid_nonce "Provided nonce is too low"))
        else if c_nonce <? tx_nonce tx then
          (st, inr (invalid_nonce "Provided nonce is too high"))
        else
          let answer := eth_sendRawTransaction node (clock st) tx in
          let st := tick (emit (SendRaw tx) st) in
          match answer with
          | inr _ =>
              (st, inr (JsonRPCInternalError "unexpected_error"
                 "An error occured communicating with the ethereum network, try again later"))
          | inl tx_hash =>
              let st := set_nonce_hint from_addr (tx_nonce tx + 1) st in
              let st := insert_transaction
                          {| transaction_hash := tx_hash;
                             from_address := from_addr;
                             to_address := to_addr;
                             nonce := tx_nonce tx;
                             value := tx_value tx;
                             estimated_gas_cost := tx_startgas tx * tx_gasprice tx;
                             sender_token_id := user_token_id;
                             last_status := default_status |} st in
              if has_monitor env then
                (* assert txjson['hash'] == tx_hash *)
                if String.eqb (transaction_hash_of env tx) tx_hash
                then (emit (MonitorNotify tx) st, inl tx_hash)
                else (st, inr OtherException)
              else (st, inl tx_hash)
          end
  end.

(** Modelled from the spec: [RedisLock] ([tokeneth/utils.py] is not among
    the sources).  "Acquire the (sender, nonce) submission lock.  On
    contention, fail with invalid_nonce (Nonce already used)"; the lock is
    "held only during Intake step 3-8", so leaving the block releases it. *)
Definition with_redis_lock (key : string * Z) (st : State)
    (body : State -> State * (string + error)) : State * (string + error) :=
  if bool_decide (key ∈ submission_lock st)
  then (st, inr (invalid_nonce "Nonce already used"))
  else
    let '(st', res) := body (set_submission_lock (fun s => {[key]} ∪ s) st) in
    (set_submission_lock (fun s => s ∖ {[key]}) st', res).

(** Lines 131-163: the signature carried by the transaction or attached to
    it. *)
Definition attach_signature (tx : EthTx) (signature : option string) : EthTx + error :=
  if is_transaction_signed env tx then
    match signature with
    | Some sig =>
        if truthy_str sig && negb (String.eqb (signature_from_transaction env tx) sig)
        then inr (JsonRPCInvalidParamsError "invalid_signature"
               "Invalid Signature: Signature in payload and signature of transaction do not match")
        else inl tx
    | None => inl tx
    end
  else
    match signature with
    | None => inr (JsonRPCInvalidParamsError "missing_signature" "Missing Signature")
    | Some sig =>
        if negb (validate_signature env sig) then
          inr (JsonRPCInvalidParamsError "invalid_signature"
                 (if negb (String.length sig =? 132)%nat
                  then "Invalid Signature: Invalid length"
                  else "Invalid Signature: Invalid hex value"))
        else
          match data_decoder env sig with
          | None => inr (JsonRPCInvalidParamsError "invalid_signature" "Invalid Signature")
          | Some raw => inl (add_signature_to_transaction env tx raw)
          end
    end.

(** [send_transaction(tx, signature=None)] for the client [user_token_id]. *)
Definition send_transaction (user_token_id : option string)
    (tx : string) (signature : option string) (st : State) : State * (string + error) :=
  match decode_transaction env tx with
  | None => (st, inr (JsonRPCInvalidParamsError "invalid_transaction" "Invalid Transaction"))
  | Some tx =>
      match attach_signature tx signature with
      | inr e => (st, inr e)
      | inl tx =>
          match recover_sender env tx with
          | None => (st, inr OtherException)
          | Some from_addr =>
              let to_addr := tx_to tx in
              with_redis_lock (from_addr, tx_nonce tx) st
                (locked_section user_token_id tx from_addr to_addr)
          end
      end
  end.

(** *** What the properties below observe *)

(** A submission reaches the balance check when it decodes, its signature
    is accepted, its sender is recovered, the submission lock is free and
    no row with a status other than ['error'] has this sender and nonce. *)
Definition reaches_balance_check (raw : string) (signature : option string)
    (st : State) (tx : EthTx) (from_addr : string) : Prop :=
  exists tx0,
    decode_transaction env raw = Some tx0 /\
    attach_signature tx0 signature = inl tx /\
    recover_sender env tx = Some from_addr /\
    ((from_addr, tx_nonce tx) ∉ submission_lock st) /\
    fetch_existing from_addr (tx_nonce tx) st = None.

(** [value + gas * gas_price] *)
Definition cost (tx : EthTx) : Z := tx_value tx + tx_startgas tx * tx_gasprice tx.

(** The balance the check of line 189 reads for a submission that
    reaches it. *)
Definition available (from_addr : string) (st : State) : Z :=
  (get_balances node from_addr st).1.2.

(** The nonce the check of lines 201-204 compares with: the chain's count
    at that moment, or the cached hint when it is higher. *)
Definition required_nonce (from_addr : string) (st : State) : Z :=
  let chain := eth_getTransactionCount node (S (clock st)) from_addr None in
  match nonce_hint st !! from_addr with
  | Some hint => Z.max hint chain
  | None => chain
  end.

Definition insufficient_funds : error :=
  JsonRPCInsufficientFundsError "insufficient_funds" "Insufficient Funds".

End Intake.

End TokenEth.

(** * Further observations on the task manager *)

Module ManagerFacts.
Import Manager.

(** [t'] is the row [t] up to its status and block number. *)
Definition same_payload (t t' : Transaction) : Prop :=
  transaction_id t' = transaction_id t /\ hash t' = hash t /\
  from_address t' = from_address t /\ to_address t' = to_address t /\
  nonce t' = nonce t /\ value t' = value t /\ gas t' = gas t /\
  gas_price t' = gas_price t /\ data t' = data t /\
  v t' = v t /\ r t' = r t /\ s t' = s t.


(** A list of integers in which no element is followed by a smaller one. *)
Fixpoint ascending (l : list Z) : Prop :=
  match l with
  | [] => True
  | x :: rest => Forall (fun y => x <= y) rest /\ ascending rest
  end.

(** Between [st] and [st'] the log grew, by events that satisfy [Q]. *)
Definition emits (Q : Event -> Prop) (st st' : State) : Prop :=
  exists new, events st' = events st ++ new /\ Forall Q new.

(** Every processing key in the cache belongs to an invocation that runs
    for its address. *)
Definition keys_owned (c : State * list Instance) : Prop :=
  forall a, a ∈ processing_tx_queue (redis c.1) ->
    exists n i, c.2 !! n = Some i /\ running i = true /\ inst_address i = a.

Section Facts.

Context (env : Env) (node : Node).

(** The test of lines 389-401 on one log of a receipt, as a proposition. *)
Definition matching_log (from_addr to_addr : string) (lg : ReceiptLog) : Prop :=
  ((2 < length (topics lg))%nat /\
   topics lg !! 0%nat = Some (TRANSFER_TOPIC env) /\
   decode_single_address env <$> topics lg !! 1%nat = Some from_addr /\
   decode_single_address env <$> topics lg !! 2%nat = Some to_addr) \/
  ((length (topics lg) <= 2)%nat /\
   address lg = WETH_CONTRACT_ADDRESS env /\
   ((topics lg !! 0%nat = Some (DEPOSIT_TOPIC env) /\
     decode_single_address env <$> topics lg !! 1%nat = Some to_addr) \/
    (topics lg !! 0%nat = Some (WITHDRAWAL_TOPIC env) /\
     decode_single_address env <$> topics lg !! 1%nat = Some from_addr))).

(** Some receipt the node gave for [tx_hash] has a log that matches. *)
Definition transfer_shown (tx_hash from_addr to_addr : string) : Prop :=
  exists moment receipt lgs lg,
    eth_getTransactionReceipt node moment tx_hash = Some receipt /\
    logs receipt = Some lgs /\ lg ∈ lgs /\ matching_log from_addr to_addr lg.

(** What a message of [messages] may be when [update_transaction] sets
    [status] on the row [tx] with the token transfers [token_txs]. *)
Definition message_of (status : string) (tx : Transaction)
    (token_txs : list TokenTransaction) (m : Msg) : Prop :=
  match m_message m with
  | Payment _ txHash shown_status fromAddress toAddress =>
      txHash = hash tx /\ shown_status = shown status /\
      fromAddress = m_from m /\ toAddress = m_to m
  | TokenPayment txHash fromAddress toAddress shown_status value contractAddress =>
      txHash = hash tx /\ status = "confirmed" /\ shown_status = "confirmed" /\
      fromAddress = m_from m /\ toAddress = m_to m /\
      (exists token_tx, token_tx ∈ token_txs /\
         tk_from_address token_tx = fromAddress /\ tk_to_address token_tx = toAddress /\
         tk_contract_address token_tx = contractAddress /\ tk_value token_tx = value) /\
      transfer_shown (hash tx) fromAddress toAddress
  end.

(** What an event of [update_transaction(id, status)] on the row [tx] may
    be. *)
Definition update_event (id : Z) (status : string) (tx : Transaction)
    (token_txs : list TokenTransaction) (e : Event) : Prop :=
  match e with
  | SendRaw _ | MonitorNotify _ => False
  | Notify a m =>
      exists msg, message_of status tx token_txs msg /\ m = m_message msg /\
                  (a = m_from msg \/ (a = m_to msg /\ a <> "0x"))
  | ProcessQueue a delay => a <> "0x" /\ delay = None
  | UpdateTransactionTask id' status' _ =>
      id' = id /\ status' = "confirmed" /\ status = "confirmed"
  | UpdateTokenCache _ from_addr to_addr _ =>
      status = "confirmed" /\ transfer_shown (hash tx) from_addr to_addr
  | Sleep => status = "confirmed"
  end.

(** The kinds of events an update to [status] of the row [id] dispatches. *)
Definition update_event_kind (id : Z) (status : string) (e : Event) : Prop :=
  match e with
  | SendRaw _ | MonitorNotify _ => False
  | Notify _ m => message_status m = shown status
  | ProcessQueue a delay => a <> "0x" /\ delay = None
  | UpdateTransactionTask id' status' _ =>
      id' = id /\ status' = "confirmed" /\ status = "confirmed"
  | UpdateTokenCache _ _ _ _ | Sleep => status = "confirmed"
  end.


(** The statuses a pass asks [update_transaction] to set. *)
Definition update_statuses : list string :=
  ["error"; "queued"; "unconfirmed"; "confirmed"].

(** A pass for [address] over the rows [queue], as the sequence of the
    things it does to the state: calls of the node and the clock, requests
    for further passes, raw transactions rebuilt from a row of the queue
    whose signature recovers to [address], and status updates of rows of
    the queue. *)
Inductive pass_steps (address : string) (queue : list Transaction)
  : State -> State -> Prop :=
| pass_start st : pass_steps address queue st st
| pass_tick st st' :
    pass_steps address queue st st' -> pass_steps address queue st (tick st')
| pass_request st st' a delay :
    pass_steps address queue st st' ->
    (a <> "0x" /\ delay = None) \/ (a = address /\ (delay = None \/ delay = Some 60)) ->
    pass_steps address queue st (emit (ProcessQueue a delay) st')
| pass_send st st' t value gas gas_price :
    pass_steps address queue st st' ->
    t ∈ queue ->
    parse_int env (Manager.value t) = Some value ->
    parse_int env (Manager.gas t) = Some gas ->
    parse_int env (Manager.gas_price t) = Some gas_price ->
    recover_sender env (rebuild env t value gas gas_price) = Some address ->
    pass_steps address queue st
      (emit (SendRaw (rebuild env t value gas gas_price)) st')
| pass_update st st' t status :
    pass_steps address queue st st' ->
    t ∈ queue -> status ∈ update_statuses ->
    pass_steps address queue st
      (update_transaction env node (transaction_id t) status 0 st').1.




(** [tx] is the raw transaction a pass sends for the row [t]: rebuilt from
    the columns of [t] as [parse_int] reads them. *)
Definition sent_for (t : Transaction) (tx : EthTx) : Prop :=
  exists v g p, cost_of env t = Some (v + g * p) /\ tx = rebuild env t v g p.

(** One turn of the loop with the candidate [t] keeps within the working
    balance: it sends nothing to the node and the balance stays, or it
    sends the transaction rebuilt from [t], whose cost the balance covers,
    and the balance stays or drops by that cost. *)
Definition within_budget (t : Transaction) (l : Loop) (st : State) (c : control) : Prop :=
  (quiet st (control_state c) /\
   match c with Continue l' _ => balance l' = balance l | _ => True end) \/
  (exists v g p,
     sent (events (control_state c)) = sent (events st) ++ [rebuild env t v g p] /\
     v + g * p <= balance l /\ cost_of env t = Some (v + g * p) /\
     match c with
     | Continue l' _ => balance l' = balance l \/ balance l' = balance l - (v + g * p)
     | _ => True
     end).

End Facts.

End ManagerFacts.

(** * The other tasks of the manager ([toshieth/manager.py]) *)

From Stdlib Require HexString.

Module ManagerTasks.
Import Manager.

(** ** [send_notification] (manager.py, lines 467-476) *)

(** A row of table [notification_registrations], with the two columns this
    handler reads. *)
Record Registration := { eth_address : string; service : string }.

(** What [send_notification] hands on. *)
Inductive Delivery :=
| EthNotification (address : string) (message : Message)
    (* eth_dispatcher.send_notification(address, message) *)
| PushNotification (address : string) (message : Message).
    (* push_dispatcher.send_notification(address, message) *)

(** [SELECT DISTINCT(service) FROM notification_registrations
     WHERE eth_address = $1] *)
Definition services_of (address : string) (registrations : list Registration)
  : list string :=
  remove_dups
    (service <$> filter (fun reg => String.eqb (eth_address reg) address = true)
                        registrations).

Definition send_notification (registrations : list Registration)
    (address : string) (message : Message) : list Delivery :=
  let services := services_of address registrations in
  (if bool_decide ("ws" ∈ services) then [EthNotification address message] else [])
  ++ (if bool_decide ("gcm" ∈ services) || bool_decide ("apn" ∈ services)
      then [PushNotification address message] else []).

(** The notifications of an event log, delivered in order. *)
Definition deliveries (registrations : list Registration) (evs : list Event)
  : list Delivery :=
  flat_map (fun e => match e with
                     | Notify address message =>
                         send_notification registrations address message
                     | _ => []
                     end) evs.

(** The address a delivery goes to. *)
Definition recipient (d : Delivery) : string :=
  match d with EthNotification a _ | PushNotification a _ => a end.

(** ** [update_default_gas_price] (manager.py, lines 610-650) *)








End ManagerTasks.

(** ** [sanity_check] (manager.py, lines 478-608) *)

Module SanityCheck.
Import Manager ManagerFacts.

(** What [sanity_check] needs beyond [Manager.Env]: the age test of the
    first query (table [transactions] has a column [created] that no other
    handler reads), the hash of a rebuilt transaction, and what
    [create_transaction] makes of a [value], [gas] or [gas_price] that
    [parse_int] could not read ([None] when it raises). *)
Record SanityEnv := {
  (* created < (now() AT TIME ZONE 'utc') - interval '3 minutes' *)
  created_long_ago : Transaction -> bool;
  calculate_transaction_hash : EthTx -> string;
  create_transaction_with_missing : Transaction -> option EthTx
}.

(** What a run leaves: the state, how the coroutine ended and the delay of
    the next run when one is scheduled. *)
Record SanityRun := {
  sc_state : State;
  sc_outcome : outcome;
  sc_next : option Z
}.

(** A loop body run for each element in turn, until one raises. *)
Fixpoint for_each {A S} (body : A -> S -> S * outcome) (l : list A) (s : S)
  : S * outcome :=
  match l with
  | [] => (s, Returned)
  | x :: rest =>
      match body x s with
      | (s', Returned) => for_each body rest s'
      | (s', Raised) => (s', Raised)
      end
  end.

(** [v IS NOT NULL]: the service signed the transaction itself. *)
Definition signed (t : Transaction) : bool := bool_decide (is_Some (v t)).

(** [status = 'unconfirmed' OR status = 'queued' OR status = 'new'] *)
Definition is_pending (t : Transaction) : bool :=
  String.eqb (status t) "unconfirmed" || String.eqb (status t) "queued"
  || String.eqb (status t) "new".

Section Sanity.

Context (env : Env) (senv : SanityEnv) (node : Node).

(** Lines 481-484: the senders of old pending rows. *)
Definition stale_senders (st : State) : list string :=
  from_address <$>
    filter (fun t => is_pending t && signed t && created_long_ago senv t)
           (transactions st).

(** Lines 485-488: the senders with rows waiting in the queue and no row
    on the network. *)
Definition stuck_senders (st : State) : list string :=
  from_address <$>
    filter (fun t =>
              is_new_or_queued t && signed t
              && negb (existsb (fun u => String.eqb (from_address u) (from_address t)
                                         && String.eqb (status u) "unconfirmed"
                                         && signed u)
                               (transactions st)))
           (transactions st).

(** Line 492: the set the loop runs over. *)
Definition addresses_to_visit (st : State) : gset string :=
  list_to_set (stale_senders st) ∪ list_to_set (stuck_senders st).

(** [await self.update_transaction(id, status)] followed by adding
    [addresses] to [addresses_to_check]. *)
Definition update_and_mark (transaction_id : Z) (status : string)
    (addresses : gset string) (st : State) (to_check : gset string)
  : (State * gset string) * outcome :=
  match update_transaction env node transaction_id status 0 st with
  | (st', Returned) => ((st', addresses ∪ to_check), Returned)
  | (st', Raised) => ((st', to_check), Raised)
  end.

(** Lines 523-537: the health of one incoming row. *)
Definition check_incoming (ethereum_address : string) (transaction : Transaction)
    (acc : State * gset string) : (State * gset string) * outcome :=
  let '(st, to_check) := acc in
  if signed transaction then ((st, to_check), Returned)
  else
    let tx := eth_getTransactionByHash node (clock st) (hash transaction) in
    let st := tick st in
    match tx with
    | None =>
        update_and_mark (transaction_id transaction) "error"
          {[ethereum_address]} st to_check
    | Some {| blockNumber := Some _ |} =>
        update_and_mark (transaction_id transaction) "confirmed"
          {[ethereum_address]} st to_check
    | Some {| blockNumber := None |} => ((st, to_check), Returned)
    end.

(** Lines 569-577: the transaction rebuilt from the stored row; [None]
    when [create_transaction] raises. *)
Definition recreate (transaction : Transaction) : option EthTx :=
  match parse_int env (value transaction), parse_int env (gas transaction),
        parse_int env (gas_price transaction) with
  | Some value, Some gas, Some gas_price =>
      let tx := rebuild env transaction value gas gas_price in
      if valid_transaction env tx then Some tx else None
  | _, _, _ => create_transaction_with_missing senv transaction
  end.

(** Lines 551-597: one row of the sender that should be on the network. *)
Definition check_unconfirmed (transaction : Transaction)
    (acc : State * gset string) : (State * gset string) * outcome :=
  let '(st, to_check) := acc in
  if negb (String.eqb (status transaction) "unconfirmed") then ((st, to_check), Returned)
  else
    let tx := eth_getTransactionByHash node (clock st) (hash transaction) in
    let st := tick st in
    match tx with
    | None =>
        match recreate transaction with
        | None => ((st, to_check), Raised)
        | Some tx =>
            if negb (String.eqb (calculate_transaction_hash senv tx) (hash transaction))
            then ((st, to_check), Returned)
            else
              let answer := eth_sendRawTransaction node (clock st) tx in
              let st := tick (emit (SendRaw tx) st) in
              match answer with
              | inl _ => ((st, {[from_address transaction]} ∪ to_check), Returned)
              | inr _ => ((st, to_check), Returned)
              end
        end
    | Some {| blockNumber := Some _ |} =>
        update_and_mark (transaction_id transaction) "confirmed"
          ({[from_address transaction]} ∪ {[to_address transaction]}) st to_check
    | Some {| blockNumber := None |} =>
        (* old_and_unconfirmed.append(transaction['hash']) *)
        ((st, to_check), Returned)
    end.

(** Lines 502-506, 511-515 and 543-547: the three queries of the loop. *)
Definition queued_transactions (ethereum_address : string) (st : State)
  : list Transaction :=
  filter (fun t => String.eqb (from_address t) ethereum_address
                   && is_new_or_queued t && signed t)
         (transactions st).

Definition incoming_transactions (ethereum_address : string) (st : State)
  : list Transaction :=
  filter (fun t => String.eqb (to_address t) ethereum_address && is_pending t)
         (transactions st).

Definition unconfirmed_transactions (ethereum_address : string) (st : State)
  : list Transaction :=
  filter (fun t => String.eqb (from_address t) ethereum_address
                   && String.eqb (status t) "unconfirmed" && signed t)
         (transactions st).

(** Lines 498-597: the body of [for ethereum_address in rows]. *)
Definition check_address (ethereum_address : string) (acc : State * gset string)
  : (State * gset string) * outcome :=
  let '(st, to_check) := acc in
  match queued_transactions ethereum_address st with
  | _ :: _ =>
      match incoming_transactions ethereum_address st with
      | [] => ((st, {[ethereum_address]} ∪ to_check), Returned)
      | incoming => for_each (check_incoming ethereum_address) incoming (st, to_check)
      end
  | [] =>
      for_each check_unconfirmed (unconfirmed_transactions ethereum_address st)
        (st, to_check)
  end.

(** The coroutine itself, before the decorator. *)
Definition sanity_check_body (frequency : option Z) (st : State) : SanityRun :=
  match for_each check_address (elements (addresses_to_visit st)) (st, ∅) with
  | ((st', to_check), Returned) =>
      {| sc_state := dispatch_addresses (elements to_check) st';
         sc_outcome := Returned;
         sc_next := if truthy_int frequency then frequency else None |}
  | ((st', _), Raised) =>
      {| sc_state := st'; sc_outcome := Raised; sc_next := None |}
  end.

(** [@log_unhandled_exceptions(logger=log)] *)
Definition sanity_check (frequency : option Z) (st : State) : SanityRun :=
  let run := sanity_check_body frequency st in
  {| sc_state := sc_state run;
     sc_outcome := if log_unhandled_exceptions_reraises env then sc_outcome run
                   else Returned;
     sc_next := sc_next run |}.

(** *** What the properties below observe *)

(** The states a run that started in [st0] goes through: it asks the node
    and the clock, requests queue passes, hands a rebuilt transaction to the
    node again, and asks [update_transaction] to confirm a row or to set an
    external row to ['error']; all rows are rows of [st0]. *)
Inductive sanity_steps (st0 : State) : State -> Prop :=
| sanity_start : sanity_steps st0 st0
| sanity_tick st : sanity_steps st0 st -> sanity_steps st0 (tick st)
| sanity_request st a :
    sanity_steps st0 st -> a <> "0x" ->
    sanity_steps st0 (emit (ProcessQueue a None) st)
| sanity_resubmit st t tx moment :
    sanity_steps st0 st ->
    t ∈ transactions st0 -> status t = "unconfirmed" -> is_Some (v t) ->
    eth_getTransactionByHash node moment (hash t) = None ->
    recreate t = Some tx ->
    calculate_transaction_hash senv tx = hash t ->
    sanity_steps st0 (emit (SendRaw tx) st)
| sanity_confirm st t moment bn :
    sanity_steps st0 st ->
    t ∈ transactions st0 -> is_pending t = true ->
    eth_getTransactionByHash node moment (hash t) = Some {| blockNumber := Some bn |} ->
    sanity_steps st0 (update_transaction env node (transaction_id t) "confirmed" 0 st).1
| sanity_drop st t moment :
    sanity_steps st0 st ->
    t ∈ transactions st0 -> is_pending t = true -> v t = None ->
    eth_getTransactionByHash node moment (hash t) = None ->
    sanity_steps st0 (update_transaction env node (transaction_id t) "error" 0 st).1.

(** Why a row may have changed: some row [t] of the table the run started
    with has its id, and the node said that the transaction of [t] is in a
    block (then the changed row is ['confirmed']), or [t] is external and
    the node does not know its transaction (then it is ['error']). *)
Definition changed_by_check (rows0 : list Transaction) (t' : Transaction) : Prop :=
  exists t moment,
    t ∈ rows0 /\ transaction_id t = transaction_id t' /\ is_pending t = true /\
    ((Manager.status t' = "confirmed" /\
      exists bn, eth_getTransactionByHash node moment (hash t)
                 = Some {| blockNumber := Some bn |}) \/
     (Manager.status t' = "error" /\ v t = None /\
      eth_getTransactionByHash node moment (hash t) = None)).

(** Table [rows] after a run that started with [rows0]. *)
Definition checked_rows (rows0 rows : list Transaction) : Prop :=
  Forall2 (fun t t' => t' = t \/ (same_payload t t' /\ changed_by_check rows0 t'))
          rows0 rows.

(** The row [t] after a run, when transaction ids are unique: it is as it
    was, or it was pending and is now ['confirmed'] because the node
    reported its transaction in a block, or it was pending and external and
    is now ['error'] because the node did not know its transaction. *)
Definition checked_row (t t' : Transaction) : Prop :=
  t' = t \/
  (same_payload t t' /\ is_pending t = true /\
   ((Manager.status t' = "confirmed" /\
     exists moment bn, eth_getTransactionByHash node moment (hash t)
                       = Some {| blockNumber := Some bn |}) \/
    (Manager.status t' = "error" /\ v t = None /\
     exists moment, eth_getTransactionByHash node moment (hash t) = None))).


End Sanity.

End SanityCheck.

(** * The subscriptions of a client ([tokeneth/jsonrpc.py], lines 264-289) *)

Module Subscriptions.

(** A row of table [notification_registrations], with the two columns
    these handlers name; [token_id] may be NULL. *)
Record Registration := { token_id : option string; eth_address : string }.

(** [token_id = $1]: never true when either side is NULL. *)
Definition owned_by (user_token_id : option string) (reg : Registration) : bool :=
  match user_token_id, token_id reg with
  | Some user, Some owner => String.eqb owner user
  | _, _ => false
  end.

(** [eth_address = $2 OR eth_address = $3 OR ...] *)
Definition names (addresses : list string) (reg : Registration) : bool :=
  existsb (String.eqb (eth_address reg)) addresses.

Section Handlers.

(** [validate_address] of [tokenservices.utils]. *)
Context (validate_address : string -> bool).

Definition bad_arguments : TokenEth.error :=
  TokenEth.JsonRPCInvalidParamsError "bad_arguments" "Bad Arguments".

(** [unsubscribe] of [addresses] for the client [user_token_id]: the table
    after the call and [True], or the error raised.  Without addresses the
    condition of the [DELETE] reads [AND ()], which is not a statement: the
    database raises. *)
Definition unsubscribe (user_token_id : option string) (addresses : list string)
    (rows : list Registration) : list Registration * (bool + TokenEth.error) :=
  if negb (forallb validate_address addresses) then (rows, inr bad_arguments)
  else
    match addresses with
    | [] => (rows, inr TokenEth.OtherException)
    | _ :: _ =>
        (filter (fun reg => negb (owned_by user_token_id reg && names addresses reg) = true)
                rows,
         inl true)
    end.

(** [list_subscriptions()] *)
Definition list_subscriptions (user_token_id : option string)
    (rows : list Registration) : list string :=
  eth_address <$> filter (fun reg => owned_by user_token_id reg = true) rows.

End Handlers.

End Subscriptions.

(** * Concrete data for the examples *)

Module Sample.

(** A decimal instance of [parse_int]. *)
Definition digit (c : Ascii.ascii) : option Z :=
  let n := Z.of_N (Ascii.N_of_ascii c) in
  if (48 <=? n) && (n <=? 57) then Some (n - 48) else None.

Fixpoint parse_digits (s : string) (acc : Z) : option Z :=
  match s with
  | EmptyString => Some acc
  | String c s' => d ← digit c; parse_digits s' (10 * acc + d)
  end.

Definition parse_decimal (o : option string) : option Z :=
  match o with
  | None => None
  | Some EmptyString => None
  | Some s => parse_digits s 0
  end.

(** The sender recovered from a signature: here the value [r] names the
    signer, [r = 1] for ["0xaa"] and [r = 2] for ["0xbb"]. *)
Definition signer (tx : EthTx) : option string :=
  match tx_r tx with
  | Some 1 => Some "0xaa"
  | Some 2 => Some "0xbb"
  | _ => None
  end.

Definition env : Manager.Env :=
  {| Manager.parse_int := parse_decimal;
     Manager.data_decoder := fun d => d;
     Manager.valid_transaction := fun _ => true;
     Manager.recover_sender := signer;
     Manager.decode_single_address := fun a => a;
     Manager.TRANSFER_TOPIC := "0xddf2";
     Manager.DEPOSIT_TOPIC := "0xe1ff";
     Manager.WITHDRAWAL_TOPIC := "0x7fcf";
     Manager.WETH_CONTRACT_ADDRESS := "0xc02a";
     Manager.log_unhandled_exceptions_reraises := false |}.

(** A node on which ["0xaa"] holds [funds] wei and has sent [count]
    transactions, which accepts every raw transaction and knows no
    transaction by hash. *)
Definition node (funds count : Z) : Node :=
  {| eth_getBalance := fun _ _ _ => funds;
     eth_getTransactionCount := fun _ _ _ => count;
     eth_sendRawTransaction := fun _ _ => inl "0xhash";
     eth_getTransactionByHash := fun _ _ => None;
     eth_getTransactionReceipt := fun _ _ => None;
     time_time := fun _ => 0 |}.

(** A row sent by ["0xaa"] and signed by the key numbered [key]. *)
Definition row (id : Z) (h to_addr : string) (n : Z) (wei price : string)
    (key : string) (st : string) : Manager.Transaction :=
  {| Manager.transaction_id := id; Manager.hash := h;
     Manager.from_address := "0xaa"; Manager.to_address := to_addr;
     Manager.nonce := n; Manager.value := Some wei;
     Manager.gas := Some "21000"; Manager.gas_price := Some price;
     Manager.data := None;
     Manager.v := Some "27"; Manager.r := Some key; Manager.s := Some "1";
     Manager.status := st; Manager.blocknumber := None |}.

Definition cache (floor : option string) : Manager.Cache :=
  {| Manager.processing_tx_queue := ∅; Manager.should_re_run := ∅;
     Manager.gas_station_safelow_gas_price := floor |}.

Definition database (rows : list Manager.Transaction) (floor : option string)
  : Manager.State :=
  {| Manager.transactions := rows; Manager.token_transactions := [];
     Manager.tokens := []; Manager.last_blocknumber := Some 100;
     Manager.redis := cache floor; Manager.clock := 0%nat; Manager.events := [] |}.

(** A contract deployment by ["0xaa"] (the recipient is ["0x"]), not yet
    sent. *)
Definition deployment : Manager.State :=
  database [row 1 "0xh1" "0x" 0 "0" "5" "1" "new"] None.

(** A payment of 5 wei from ["0xaa"] to ["0xbb"], not yet sent. *)
Definition one_payment (st : string) : Manager.State :=
  database [row 1 "0xh1" "0xbb" 0 "5" "5" "1" st] None.

(** A transfer of 7 tokens of the known contract ["0xc0"] from ["0xaa"] to
    ["0xbb"], carried by transaction 1, not yet sent. *)
Definition token_transfer : Manager.State :=
  {| Manager.transactions := [row 1 "0xh1" "0xc0" 0 "0" "5" "1" "new"];
     Manager.token_transactions :=
       [ {| Manager.tk_transaction_id := 1; Manager.transaction_log_index := 0;
            Manager.tk_contract_address := "0xc0"; Manager.tk_value := Some "7";
            Manager.tk_from_address := "0xaa"; Manager.tk_to_address := "0xbb";
            Manager.tk_status := "new" |} ];
     Manager.tokens := [ {| Manager.contract_address := "0xc0" |} ];
     Manager.last_blocknumber := Some 100;
     Manager.redis := cache None; Manager.clock := 0%nat; Manager.events := [] |}.

(** The loop variables at the start of a pass with working balance
    [funds], expected nonce [n] and the given queue. *)
Definition loop (funds n : Z) (queue : list Manager.Transaction) : Manager.Loop :=
  {| Manager.balance := funds; Manager.expected_nonce := n;
     Manager.previous_error := false; Manager.transactions_out := queue;
     Manager.addresses_to_check := ∅ |}.

(** The payment of [one_payment] and a second one with the next nonce. *)
Definition first_row : Manager.Transaction := row 1 "0xh1" "0xbb" 0 "5" "5" "1" "new".
Definition second_row : Manager.Transaction := row 2 "0xh2" "0xcc" 1 "5" "5" "1" "new".
Definition two_payments (floor : option string) : Manager.State :=
  database [first_row; second_row] floor.

(** The same two payments, the first of them signed by the key of
    ["0xbb"] although the row names ["0xaa"] as its sender. *)
Definition forged_row : Manager.Transaction := row 1 "0xh1" "0xbb" 0 "5" "5" "2" "new".
Definition forged_payments : Manager.State := database [forged_row; second_row] None.

(** Two rows of ["0xaa"] with nonce 5 while the network expects nonce 3:
    the older one is queued at gas price 1, the incoming one is new at gas
    price 2. *)
Definition older_row : Manager.Transaction := row 1 "0xh1" "0xbb" 5 "5" "1" "1" "queued".
Definition incoming_row : Manager.Transaction := row 2 "0xh2" "0xbb" 5 "5" "2" "1" "new".

(** Two invocations of [process_transaction_queue] for ["0xaa"], about
    to start, on an empty table. *)
Definition invocation (p : Manager.pc) : Manager.Instance :=
  {| Manager.inst_address := "0xaa"; Manager.inst_pc := p |}.

Definition idle : Manager.State := database [] None.

Definition locked : Manager.State := Manager.set_redis (Manager.lock "0xaa") idle.

(** A signed transfer of 5 wei from ["0xaa"] to ["0xbb"] with nonce [n]:
    gas 21000 at gas price 5, so that it costs 105005 wei. *)
Definition transfer (n : Z) : EthTx :=
  {| tx_nonce := n; tx_value := 5; tx_gasprice := 5; tx_startgas := 21000;
     tx_to := "0xbb"; tx_data := ""; tx_v := Some 27; tx_r := Some 1; tx_s := Some 1 |}.

(** The encodings the examples submit: ["0xf800"] carries nonce 0,
    ["0xf801"] nonce 1 and ["0xf802"] nonce 2. *)
Definition decode (raw : string) : option EthTx :=
  if String.eqb raw "0xf800" then Some (transfer 0)
  else if String.eqb raw "0xf801" then Some (transfer 1)
  else if String.eqb raw "0xf802" then Some (transfer 2)
  else None.

Definition intake_env : TokenEth.Env :=
  {| TokenEth.decode_transaction := decode;
     TokenEth.is_transaction_signed := fun tx => bool_decide (is_Some (tx_r tx));
     TokenEth.signature_from_transaction := fun _ => "0xsig";
     TokenEth.validate_signature := fun sig => (String.length sig =? 132)%nat;
     TokenEth.data_decoder := fun sig => Some sig;
     TokenEth.add_signature_to_transaction := fun tx _ => tx;
     TokenEth.recover_sender := signer;
     TokenEth.transaction_hash_of := fun _ => "0xhash";
     TokenEth.has_monitor := false |}.

(** The intake's view: the rows it wrote and the nonce hints. *)
Definition intake (rows : list TokenEth.Transaction) (hints : gmap string Z)
  : TokenEth.State :=
  {| TokenEth.transactions := rows; TokenEth.nonce_hint := hints;
     TokenEth.submission_lock := ∅; TokenEth.clock := 0%nat;
     TokenEth.events := [] |}.

(** The row of an earlier transfer with nonce 0, still unconfirmed. *)
Definition earlier_transfer : TokenEth.Transaction :=
  {| TokenEth.transaction_hash := "0xhash"; TokenEth.from_address := "0xaa";
     TokenEth.to_address := "0xbb"; TokenEth.nonce := 0; TokenEth.value := 5;
     TokenEth.estimated_gas_cost := 105000;
     TokenEth.sender_token_id := Some "0xaa";
     TokenEth.last_status := Some "unconfirmed" |}.

End Sample.

(** * Further concrete data *)

Module Scenario.




(** A sanity check for which every row is old, whose hash function finds
    the stored hash of the first payment, and for which
    [create_transaction] raises on a missing field. *)
Definition sanity_env : SanityCheck.SanityEnv :=
  {| SanityCheck.created_long_ago := fun _ => true;
     SanityCheck.calculate_transaction_hash := fun _ => "0xh1";
     SanityCheck.create_transaction_with_missing := fun _ => None |}.

End Scenario.

(** * Properties of the task manager *)

Module ManagerProofs.
Import Manager.

Section Update.

Context (env : Env) (node : Node).

Lemma sent_app (a b : list Event) : sent (a ++ b) = sent a ++ sent b.
Proof. apply omap_app. Qed.

Lemma quiet_refl st : quiet st st.
Proof. done. Qed.

Lemma quiet_trans st1 st2 st3 : quiet st1 st2 -> quiet st2 st3 -> quiet st1 st3.
Proof. intros (?&?&?&?) (?&?&?&?). repeat split; congruence. Qed.

Lemma quiet_tick st : quiet st (tick st).
Proof. done. Qed.

Lemma quiet_set_transactions f st : quiet st (set_transactions f st).
Proof. done. Qed.

Lemma quiet_set_token_transactions f st : quiet st (set_token_transactions f st).
Proof. done. Qed.

Lemma quiet_emit e st :
  (forall tx, e <> SendRaw tx) -> quiet st (emit e st).
Proof.
  intros He. repeat split; simpl. rewrite sent_app. simpl.
  destruct e; simpl; try apply app_nil_r. by destruct (He tx).
Qed.

Lemma frame_refl st : frame st st.
Proof. done. Qed.

Lemma frame_trans st1 st2 st3 : frame st1 st2 -> frame st2 st3 -> frame st1 st3.
Proof. intros [? ?] [? ?]. split; [by eapply quiet_trans | congruence]. Qed.

Lemma frame_tick st : frame st (tick st).
Proof. done. Qed.

Lemma frame_set_token_transactions f st : frame st (set_token_transactions f st).
Proof. done. Qed.

Lemma frame_emit e st : (forall tx, e <> SendRaw tx) -> frame st (emit e st).
Proof. intros. split; [by apply quiet_emit | done]. Qed.

Ltac frame_emit_tac := apply frame_emit; intros ? ?; discriminate.

Lemma dispatch_messages_frame tx_status messages st :
  frame st (dispatch_messages tx_status messages st).
Proof.
  revert st. induction messages as [|m rest IH]; intros st; simpl; [done|].
  assert (frame st (emit (Notify (m_from m) (m_message m)) st)) as H1
    by frame_emit_tac.
  destruct (String.eqb (m_to m) "0x"); [done|].
  eapply frame_trans; [exact H1|].
  eapply frame_trans; [|apply IH].
  eapply frame_trans; [|frame_emit_tac].
  destruct (String.eqb tx_status "new");
    [destruct (negb _)|]; try done; frame_emit_tac.
Qed.

Lemma token_step_frame tx status receipt bn token_tx st messages st' messages' :
  token_step env tx status receipt bn token_tx st messages = Some (st', messages') ->
  frame st st'.
Proof.
  unfold token_step. intros H.
  destruct (String.eqb status "confirmed").
  - destruct (match receipt with
              | Some {| logs := Some lgs |} => _ | _ => _ end) as [[|]|];
      simpl in H; inversion H; subst; clear H.
    + eapply frame_trans; [|apply frame_set_token_transactions]. frame_emit_tac.
    + apply frame_set_token_transactions.
  - simpl in H. inversion H; subst. apply frame_set_token_transactions.
Qed.

Lemma token_loop_frame tx status receipt bn token_txs st messages :
  frame st (token_loop env tx status receipt bn token_txs st messages).1.
Proof.
  revert st messages. induction token_txs as [|t rest IH]; intros st messages; simpl; [done|].
  destruct (token_step env tx status receipt bn t st messages) as [[st' m']|] eqn:E; [|done].
  eapply frame_trans; [by eapply token_step_frame | apply IH].
Qed.

Lemma render_notification_frame id tx token_txs status bn st :
  frame st (render_notification env node id tx token_txs status bn st).1.
Proof.
  unfold render_notification.
  destruct (if String.eqb status "queued" then _ else _) as [status'|]; [|done].
  destruct token_txs as [|t rest]; [apply dispatch_messages_frame|].
  remember (t :: rest) as tks eqn:Htks. clear Htks.
  destruct (String.eqb status' "confirmed") eqn:Ec; cbn [andb negb].
  - destruct (bool_decide _); cbn [negb].
    + pose proof (token_loop_frame tx status'
        (eth_getTransactionReceipt node (clock st) (hash tx)) bn tks (tick st) [])
        as Hl.
      destruct (token_loop _ _ _ _ _ _ _ _) as [st1 [ms|]]; cbn [fst] in *.
      * eapply frame_trans; [apply frame_tick|].
        eapply frame_trans; [exact Hl | apply dispatch_messages_frame].
      * eapply frame_trans; [apply frame_tick | exact Hl].
    + eapply frame_trans; [apply frame_tick | frame_emit_tac].
  - pose proof (token_loop_frame tx status' None bn tks st []) as Hl.
    destruct (token_loop _ _ _ _ _ _ _ _) as [st1 [ms|]]; cbn [fst] in *; [|done].
    eapply frame_trans; [exact Hl | apply dispatch_messages_frame].
Qed.

(** What [update_transaction] may change: it never touches the cache or
    sends a raw transaction, and table [transactions] is either left as it
    was or has the status (and block number) of the rows with this id set. *)
Lemma update_transaction_body_footprint id status retry st :
  let st' := (update_transaction_body env node id status retry st).1 in
  quiet st st' /\
  (transactions st' = transactions st \/
   exists bn, transactions st' = sql_update_status id status bn (transactions st)).
Proof.
  unfold update_transaction_body.
  destruct (fetch_by_id id (transactions st)) as [tx|]; [|by split; [|left]].
  destruct (String.eqb (Manager.status tx) status); [by split; [|left]|].
  destruct (String.eqb (Manager.status tx) "confirmed"); [by split; [|left]|].
  destruct (String.eqb status "confirmed").
  - destruct (eth_getTransactionByHash node (clock st) (hash tx)) as [[[bn|]]|].
    + match goal with |- context [render_notification _ _ _ _ _ _ ?b ?s] =>
        pose proof (render_notification_frame id tx (fetch_token_txs id st) status b s) as [Hq Ht]
      end.
      simpl. split.
      * eapply quiet_trans; [|exact Hq]. by destruct (0 <? retry).
      * right. eexists. rewrite Ht. by destruct (0 <? retry).
    + simpl. destruct (0 <? retry); simpl.
      * destruct (60 <=? _); simpl; [by split; [|left]|].
        destruct (negb (retry =? 0)); simpl; split; try (by left);
          repeat split; simpl; rewrite ?sent_app; simpl; by rewrite ?app_nil_r.
      * destruct (negb (retry =? 0)); simpl; split; try (by left);
          repeat split; simpl; rewrite ?sent_app; simpl; by rewrite ?app_nil_r.
    + simpl. destruct (0 <? retry); simpl.
      * destruct (60 <=? _); simpl; [by split; [|left]|].
        destruct (negb (retry =? 0)); simpl; split; try (by left);
          repeat split; simpl; rewrite ?sent_app; simpl; by rewrite ?app_nil_r.
      * destruct (negb (retry =? 0)); simpl; split; try (by left);
          repeat split; simpl; rewrite ?sent_app; simpl; by rewrite ?app_nil_r.
  - match goal with |- context [render_notification _ _ _ _ _ _ ?b ?s] =>
      pose proof (render_notification_frame id tx (fetch_token_txs id st) status b s) as [Hq Ht]
    end.
    simpl. split; [exact Hq|]. right. eexists. by rewrite Ht.
Qed.

Lemma update_transaction_state id status retry st :
  (update_transaction env node id status retry st).1 =
  (update_transaction_body env node id status retry st).1.
Proof.
  unfold update_transaction, log_unhandled_exceptions.
  by destruct (log_unhandled_exceptions_reraises env).
Qed.

Lemma update_transaction_quiet id status retry st :
  quiet st (update_transaction env node id status retry st).1.
Proof. rewrite update_transaction_state. apply update_transaction_body_footprint. Qed.

Lemma dispatch_messages_events tx_status messages st :
  events (dispatch_messages tx_status messages st) =
  events st ++ notifications_for tx_status messages.
Proof.
  revert st. induction messages as [|m rest IH]; intros st; simpl.
  - by rewrite app_nil_r.
  - destruct (String.eqb (m_to m) "0x"); [done|].
    rewrite IH. simpl.
    destruct (String.eqb tx_status "new"); [destruct (negb _)|]; simpl;
      by rewrite <- ?app_assoc.
Qed.

Lemma token_step_unconfirmed tx status receipt bn token_tx st messages froms :
  String.eqb status "confirmed" = false ->
  tk_from_address token_tx ∈ froms ->
  uniform status froms messages ->
  exists st' messages',
    token_step env tx status receipt bn token_tx st messages = Some (st', messages') /\
    events st' = events st /\ uniform status froms messages'.
Proof.
  intros Hs Hin Hu. unfold token_step. rewrite Hs. simpl. rewrite Hs.
  eexists _, _. split; [reflexivity|]. split; [done|].
  destruct (_ && _); [|done].
  apply Forall_app. split; [done|]. by repeat constructor.
Qed.

Lemma token_loop_unconfirmed tx status receipt bn token_txs st messages froms :
  String.eqb status "confirmed" = false ->
  Forall (fun t => tk_from_address t ∈ froms) token_txs ->
  uniform status froms messages ->
  exists st' messages',
    token_loop env tx status receipt bn token_txs st messages = (st', Some messages') /\
    events st' = events st /\ uniform status froms messages'.
Proof.
  intros Hs. revert st messages.
  induction token_txs as [|t rest IH]; intros st messages Hall Hu; simpl.
  - by eexists _, _.
  - inversion Hall as [|? ? Ht Hrest]; subst.
    destruct (token_step_unconfirmed tx status receipt bn t st messages froms)
      as (st1 & m1 & -> & Hev & Hu1); try done.
    destruct (IH st1 m1) as (st2 & m2 & -> & Hev2 & Hu2); try done.
    eexists _, _. split; [done|]. split; [congruence|done].
Qed.

(** The notifications for a uniform message list carry its status, and
    when the row was ['new'] and the status is ['error'] they go to the
    senders only. *)
Lemma notifications_for_uniform tx_status status froms messages a m :
  uniform status froms messages ->
  Notify a m ∈ notifications_for tx_status messages ->
  message_status m = status /\
  (tx_status = "new" -> status = "error" -> a ∈ froms).
Proof.
  induction 1 as [|x rest (Hst & Hms & Hfrom) Hrest IH]; simpl.
  - by intros ?%elem_of_nil.
  - rewrite elem_of_cons. intros [Heq|Hin].
    { inversion Heq; subst. by split. }
    destruct (String.eqb (m_to x) "0x"); [by apply elem_of_nil in Hin|].
    apply elem_of_app in Hin as [Hin|Hin].
    + rewrite Hst in Hin. destruct (String.eqb tx_status "new") eqn:En.
      * destruct (String.eqb status "error") eqn:Ee; simpl in Hin.
        { by apply elem_of_nil in Hin. }
        apply list_elem_of_singleton in Hin. inversion Hin as [[Ha Hm]].
        split; [done|]. intros _ Hs. rewrite Hs in Ee. by rewrite String.eqb_refl in Ee.
      * apply list_elem_of_singleton in Hin. inversion Hin as [[Ha Hm]].
        split; [done|]. intros Hs. rewrite Hs in En. by rewrite String.eqb_refl in En.
    + apply elem_of_cons in Hin as [Heq|Hin]; [done|]. by apply IH.
Qed.

Lemma eqb_false (a b : string) : a <> b -> String.eqb a b = false.
Proof. by intros ?%String.eqb_neq. Qed.

(** Rendering for a status other than ['confirmed']: nothing can raise, and
    the events added are the notifications for a uniform message list. *)
Lemma render_notification_pending id tx token_txs status bn st :
  status <> "confirmed" ->
  exists new,
    (render_notification env node id tx token_txs status bn st).2 = Returned /\
    events (render_notification env node id tx token_txs status bn st).1
      = events st ++ new /\
    ((status = "unconfirmed" /\ Manager.status tx = "queued") -> new = []) /\
    (~ (status = "unconfirmed" /\ Manager.status tx = "queued") ->
       exists messages,
         uniform (shown status) (senders tx token_txs) messages /\
         new = notifications_for (Manager.status tx) messages /\
         (token_txs = [] -> messages = [payment_of env tx (shown status)])).
Proof.
  intros Hc. unfold render_notification, shown.
  destruct (String.eqb status "queued") eqn:Eq.
  - (* shown as unconfirmed *)
    apply String.eqb_eq in Eq. subst status.
    destruct token_txs as [|t rest].
    + eexists. split; [done|]. split; [apply dispatch_messages_events|].
      split; [by intros [? _]|]. intros _. eexists. split; [|done].
      repeat constructor.
    + remember (t :: rest) as tks eqn:Htks.
      destruct (token_loop_unconfirmed tx "unconfirmed" None bn tks st []
                  (tk_from_address <$> tks)) as (st1 & ms & Hl & Hev & Hu).
      { done. }
      { apply Forall_forall. intros x Hx. by apply list_elem_of_fmap_2. }
      { constructor. }
      cbn [String.eqb Ascii.eqb Bool.eqb andb negb]. rewrite Hl.
      eexists. split; [done|]. split.
      { cbn [fst]. rewrite dispatch_messages_events, Hev. done. }
      split; [by intros [? _]|]. intros _. exists ms.
      split; [by subst tks|]. split; [done|]. by subst tks.
  - destruct (String.eqb status "unconfirmed" && String.eqb (Manager.status tx) "queued")
      eqn:Es.
    + apply andb_true_iff in Es as [->%String.eqb_eq ->%String.eqb_eq].
      exists []. split; [done|]. split; [by rewrite app_nil_r|]. split; [done|].
      intros H. by destruct H.
    + assert (~ (status = "unconfirmed" /\ Manager.status tx = "queued")) as Hn.
      { intros [-> E]. rewrite E in Es. done. }
      destruct token_txs as [|t rest].
      * eexists. split; [done|]. split; [apply dispatch_messages_events|].
        split; [done|]. intros _. eexists. split; [|done]. repeat constructor.
      * remember (t :: rest) as tks eqn:Htks.
        rewrite (eqb_false _ _ Hc). cbn [andb].
        destruct (token_loop_unconfirmed tx status None bn tks st []
                    (tk_from_address <$> tks)) as (st1 & ms & Hl & Hev & Hu).
        { by apply eqb_false. }
        { apply Forall_forall. intros x Hx. by apply list_elem_of_fmap_2. }
        { constructor. }
        rewrite Hl. eexists. split; [done|]. split.
        { cbn [fst]. rewrite dispatch_messages_events, Hev. done. }
        split; [done|]. intros _. exists ms.
        split; [by subst tks|]. split; [done|]. by subst tks.
Qed.

(** An update to a status other than ['confirmed'] of a row that is in
    another status and not yet confirmed. *)
Lemma update_transaction_pending id status retry st tx :
  fetch_by_id id (transactions st) = Some tx ->
  Manager.status tx <> status ->
  Manager.status tx <> "confirmed" ->
  status <> "confirmed" ->
  let res := update_transaction env node id status retry st in
  exists new,
    res.2 = Returned /\
    transactions res.1 = sql_update_status id status None (transactions st) /\
    events res.1 = events st ++ new /\
    ((status = "unconfirmed" /\ Manager.status tx = "queued") -> new = []) /\
    (~ (status = "unconfirmed" /\ Manager.status tx = "queued") ->
       exists messages,
         uniform (shown status) (senders tx (fetch_token_txs id st)) messages /\
         new = notifications_for (Manager.status tx) messages /\
         (fetch_token_txs id st = [] -> messages = [payment_of env tx (shown status)])).
Proof.
  intros Hf Hne Hnc Hs res.
  set (st1 := set_transactions (sql_update_status id status None) st).
  assert (update_transaction_body env node id status retry st =
          render_notification env node id tx (fetch_token_txs id st) status None st1) as Hb.
  { unfold update_transaction_body. rewrite Hf.
    by rewrite (eqb_false _ _ Hne), (eqb_false _ _ Hnc), (eqb_false _ _ Hs). }
  destruct (render_notification_pending id tx (fetch_token_txs id st) status None st1 Hs)
    as (new & Ho & Hev & Hsup & Hmsg).
  pose proof (render_notification_frame id tx (fetch_token_txs id st) status None st1)
    as [_ Ht].
  exists new. subst res.
  unfold update_transaction, log_unhandled_exceptions. rewrite Hb.
  destruct (render_notification env node id tx (fetch_token_txs id st) status None st1)
    as [st2 o] eqn:Er.
  cbn [fst snd] in *. subst o.
  destruct (log_unhandled_exceptions_reraises env); cbn [fst snd]; by repeat split.
Qed.

(** An update to a status other than ['confirmed'] never raises. *)
Lemma update_transaction_returns id status retry st :
  status <> "confirmed" ->
  (update_transaction env node id status retry st).2 = Returned.
Proof.
  intros Hs.
  destruct (fetch_by_id id (transactions st)) as [tx|] eqn:Hf.
  - destruct (String.eqb (Manager.status tx) status) eqn:E1;
      [|destruct (String.eqb (Manager.status tx) "confirmed") eqn:E2].
    + unfold update_transaction, log_unhandled_exceptions, update_transaction_body.
      rewrite Hf, E1. by destruct (log_unhandled_exceptions_reraises env).
    + unfold update_transaction, log_unhandled_exceptions, update_transaction_body.
      rewrite Hf, E1, E2. by destruct (log_unhandled_exceptions_reraises env).
    + apply String.eqb_neq in E1, E2.
      by destruct (update_transaction_pending id status retry st tx) as (? & ? & _).
  - unfold update_transaction, log_unhandled_exceptions, update_transaction_body.
    rewrite Hf. by destruct (log_unhandled_exceptions_reraises env).
Qed.

(** C2.  A transaction whose stored status is ['confirmed'] is final:
    whatever status [update_transaction] is asked to set (['confirmed']
    again, or any other), the call returns with the whole state as it was,
    so the row is unchanged and no notification or task is dispatched. *)
Theorem update_transaction_confirmed_is_final id status retry st tx :
  fetch_by_id id (transactions st) = Some tx ->
  Manager.status tx = "confirmed" ->
  update_transaction env node id status retry st = (st, Returned).
Proof.
  intros Hf Hc.
  unfold update_transaction, log_unhandled_exceptions, update_transaction_body.
  rewrite Hf, Hc.
  destruct (String.eqb "confirmed" status);
    by destruct (log_unhandled_exceptions_reraises env).
Qed.

(** The events for the one payment message of a row without token
    transfers. *)
Lemma notifications_for_payment tx status :
  notifications_for (Manager.status tx) [payment_of env tx status] =
  let m := Payment (parse_int env (value tx)) (hash tx) status
             (from_address tx) (to_address tx) in
  if String.eqb (to_address tx) "0x" then [Notify (from_address tx) m]
  else if String.eqb (Manager.status tx) "new" && String.eqb status "error"
       then [Notify (from_address tx) m; ProcessQueue (to_address tx) None]
       else [Notify (from_address tx) m; Notify (to_address tx) m;
             ProcessQueue (to_address tx) None].
Proof.
  simpl. destruct (String.eqb (to_address tx) "0x"); [done|].
  destruct (String.eqb (Manager.status tx) "new"); [|done].
  by destruct (String.eqb status "error").
Qed.

(** C9 (amended).  For a status update that reaches the rendering of
    notifications (the row exists, is in another status and is not
    confirmed; for ['confirmed'] the node reports the block):
    - an update to ['queued'] is shown as ['unconfirmed'] in every
      notification it dispatches;
    - an update from ['queued'] to ['unconfirmed'] dispatches nothing;
    - an update from ['new'] to ['error'] notifies senders only;
    - for a row without token transfers the sender is notified, and so is
      the recipient unless the update is from ['new'] to ['error'] or the
      recipient is ["0x"] (a contract deployment). *)
Theorem update_transaction_notifications id status retry st tx :
  fetch_by_id id (transactions st) = Some tx ->
  Manager.status tx <> status ->
  Manager.status tx <> "confirmed" ->
  (status = "confirmed" ->
   exists bn, eth_getTransactionByHash node (clock st) (hash tx)
              = Some {| blockNumber := Some bn |}) ->
  let st' := (update_transaction env node id status retry st).1 in
  (status = "queued" ->
   exists new, events st' = events st ++ new /\
     forall a m, Notify a m ∈ new -> message_status m = "unconfirmed") /\
  (status = "unconfirmed" -> Manager.status tx = "queued" -> events st' = events st) /\
  (Manager.status tx = "new" -> status = "error" ->
   exists new, events st' = events st ++ new /\
     forall a m, Notify a m ∈ new -> a ∈ senders tx (fetch_token_txs id st)) /\
  (fetch_token_txs id st = [] ->
   ~ (status = "unconfirmed" /\ Manager.status tx = "queued") ->
   let m := Payment (parse_int env (value tx)) (hash tx) (shown status)
              (from_address tx) (to_address tx) in
   events st' = events st ++
     if String.eqb (to_address tx) "0x" then [Notify (from_address tx) m]
     else if String.eqb (Manager.status tx) "new" && String.eqb (shown status) "error"
          then [Notify (from_address tx) m; ProcessQueue (to_address tx) None]
          else [Notify (from_address tx) m; Notify (to_address tx) m;
                ProcessQueue (to_address tx) None]).
Proof.
  intros Hf Hne Hnc Hnode st'.
  destruct (decide (status = "confirmed")) as [Hc|Hc].
  - (* the node reports the block *)
    destruct (Hnode Hc) as [bn Hbn]. subst status.
    split; [done|]. split; [done|]. split; [done|].
    intros Htk _. subst st'. rewrite update_transaction_state.
    unfold update_transaction_body.
    rewrite Hf, (eqb_false _ _ Hnc), Hbn, Htk.
    cbn [String.eqb Ascii.eqb Bool.eqb].
    unfold render_notification. cbn [String.eqb Ascii.eqb Bool.eqb andb fst].
    rewrite dispatch_messages_events.
    change (shown "confirmed") with "confirmed".
    rewrite <- notifications_for_payment. f_equal. by destruct (0 <? retry).
  - destruct (update_transaction_pending id status retry st tx Hf Hne Hnc Hc)
      as (new & _ & _ & Hev & Hsup & Hmsg).
    fold st' in Hev.
    split; [|split; [|split]].
    + intros ->. exists new. split; [done|]. intros a m Hin.
      destruct Hmsg as (ms & Hu & -> & _); [by intros [? _]|].
      by destruct (notifications_for_uniform _ _ _ _ _ _ Hu Hin).
    + intros H1 H2. rewrite Hev, Hsup; [by rewrite app_nil_r | done].
    + intros Hn ->. exists new. split; [done|]. intros a m Hin.
      destruct Hmsg as (ms & Hu & -> & _); [by intros [? _]|].
      destruct (notifications_for_uniform _ _ _ _ _ _ Hu Hin) as [_ H]. by apply H.
    + intros Htk Hn. destruct (Hmsg Hn) as (ms & _ & -> & Hms).
      rewrite Hev, (Hms Htk). by rewrite notifications_for_payment.
Qed.

End Update.

(** C2 at a confirmed payment: asking for ['error'] changes nothing. *)
Lemma update_transaction_confirmed_is_final_witness :
  fetch_by_id 1 (transactions (Sample.one_payment "confirmed"))
    = Some (Sample.row 1 "0xh1" "0xbb" 0 "5" "5" "1" "confirmed") /\
  update_transaction Sample.env (Sample.node 0 0) 1 "error" 0
    (Sample.one_payment "confirmed") = (Sample.one_payment "confirmed", Returned).
Proof.
  split; [reflexivity|].
  apply (update_transaction_confirmed_is_final Sample.env (Sample.node 0 0) 1 "error" 0
           (Sample.one_payment "confirmed")
           (Sample.row 1 "0xh1" "0xbb" 0 "5" "5" "1" "confirmed")); reflexivity.
Defined.

(** C9 (amended) at a new payment that becomes ['queued']: both ends are
    told ['unconfirmed']. *)
Lemma update_transaction_notifications_witness :
  let tx := Sample.row 1 "0xh1" "0xbb" 0 "5" "5" "1" "new" in
  let m := Payment (Some 5) "0xh1" "unconfirmed" "0xaa" "0xbb" in
  fetch_by_id 1 (transactions (Sample.one_payment "new")) = Some tx /\
  events (update_transaction Sample.env (Sample.node 0 0) 1 "queued" 0
            (Sample.one_payment "new")).1
    = [Notify "0xaa" m; Notify "0xbb" m; ProcessQueue "0xbb" None].
Proof.
  split; [reflexivity|].
  refine (proj2 (proj2 (proj2
    (update_transaction_notifications Sample.env (Sample.node 0 0) 1 "queued" 0
       (Sample.one_payment "new") (Sample.row 1 "0xh1" "0xbb" 0 "5" "5" "1" "new")
       eq_refl _ _ _))) eq_refl _).
  - discriminate.
  - discriminate.
  - discriminate.
  - intros [H _]. discriminate H.
Defined.

(** C9 as stated fails: "every other transition notifies both the
    from_address and the to_address".  A contract deployment that goes from
    ['new'] to ['unconfirmed'] notifies its sender only; a transaction that
    carries a token transfer and goes from ['new'] to ['unconfirmed']
    notifies nobody. *)
Lemma update_transaction_notifications_counterexample :
  let deployed :=
    (update_transaction Sample.env (Sample.node 0 0) 1 "unconfirmed" 0
       Sample.deployment).1 in
  let transferred :=
    (update_transaction Sample.env (Sample.node 0 0) 1 "unconfirmed" 0
       Sample.token_transfer).1 in
  (stored_status 1 Sample.deployment = Some "new" /\
   stored_status 1 deployed = Some "unconfirmed" /\
   notified (events deployed)
     = [("0xaa", Payment (Some 0) "0xh1" "unconfirmed" "0xaa" "0x")] /\
   ~ (exists m, Notify "0x" m ∈ events deployed)) /\
  (stored_status 1 Sample.token_transfer = Some "new" /\
   stored_status 1 transferred = Some "unconfirmed" /\
   notified (events transferred) = [] /\
   ~ (exists m, Notify "0xaa" m ∈ events transferred)).
Proof.
  split.
  - repeat split; try reflexivity.
    intros [m Hm]. vm_compute in Hm.
    apply list_elem_of_singleton in Hm. discriminate Hm.
  - repeat split; try reflexivity.
    intros [m Hm]. vm_compute in Hm. by apply elem_of_nil in Hm.
Qed.

End ManagerProofs.

Module QueueProofs.
Import Manager ManagerProofs.

(** ** Lists as Python uses them *)

Lemma pop_snoc {A} (l : list A) (x : A) : pop (l ++ [x]) = Some (x, l).
Proof.
  induction l as [|y l IH]; [done|].
  change ((y :: l) ++ [x]) with (y :: (l ++ [x])).
  simpl. rewrite IH. by destruct (l ++ [x]) eqn:E; [destruct l|].
Qed.

Lemma pop_Some {A} (l r : list A) (x : A) : pop l = Some (x, r) -> l = r ++ [x].
Proof.
  destruct l as [|x' r' _] using rev_ind; [done|].
  rewrite pop_snoc. by intros [= -> ->].
Qed.

Lemma elem_of_rev {A} (x : A) (l : list A) : x ∈ rev l <-> x ∈ l.
Proof. rewrite !list_elem_of_In. symmetry. apply in_rev. Qed.

Lemma pop_None {A} (l : list A) : pop l = None -> l = [].
Proof.
  destruct l as [|x l] using rev_ind; [done|]. by rewrite pop_snoc.
Qed.

Lemma elem_of_insert_by {A} (key : A -> Z) (x y : A) (l : list A) :
  y ∈ insert_by key x l <-> y = x \/ y ∈ l.
Proof.
  induction l as [|z l IH]; simpl.
  - rewrite list_elem_of_singleton. split; [by left|]. intros [?|?%elem_of_nil]; done.
  - destruct (key x <=? key z).
    + by rewrite elem_of_cons.
    + rewrite !elem_of_cons, IH. tauto.
Qed.

Lemma elem_of_order_by {A} (key : A -> Z) (y : A) (l : list A) :
  y ∈ order_by key l <-> y ∈ l.
Proof.
  induction l as [|z l IH]; simpl; [done|].
  rewrite elem_of_insert_by, elem_of_cons, IH. tauto.
Qed.

Lemma length_insert_by {A} (key : A -> Z) (x : A) (l : list A) :
  length (insert_by key x l) = S (length l).
Proof.
  induction l as [|z l IH]; simpl; [done|].
  destruct (key x <=? key z); simpl; by rewrite ?IH.
Qed.

(** ** The status a row holds after updates *)

Lemma fetch_by_id_update id id' s bn rows :
  fetch_by_id id' (sql_update_status id s bn rows) =
  (fun t => if id' =? id then with_status s bn t else t) <$> fetch_by_id id' rows.
Proof.
  unfold fetch_by_id, sql_update_status.
  induction rows as [|t rows IH]; [done|]. simpl.
  destruct (transaction_id t =? id) eqn:E1.
  - simpl. destruct (transaction_id t =? id') eqn:E2.
    + simpl. apply Z.eqb_eq in E1, E2. subst.
      by rewrite Z.eqb_refl.
    + exact IH.
  - destruct (transaction_id t =? id') eqn:E2.
    + simpl. apply Z.eqb_eq in E2. subst. by rewrite E1.
    + exact IH.
Qed.

Lemma stored_status_update id id' s bn f st :
  transactions (f st) = sql_update_status id s bn (transactions st) ->
  stored_status id' (f st) =
  if id' =? id then (fun _ => s) <$> stored_status id' st else stored_status id' st.
Proof.
  intros H. unfold stored_status. rewrite H, fetch_by_id_update.
  destruct (fetch_by_id id' (transactions st)) as [t|]; simpl; [|by destruct (id' =? id)].
  by destruct (id' =? id).
Qed.

Section Queue.

Context (env : Env) (node : Node).

(** Another id's update does not reach this row. *)
Lemma stored_status_other id id' status retry st :
  id' <> id ->
  stored_status id' (update_transaction env node id status retry st).1
  = stored_status id' st.
Proof.
  intros Hne. rewrite update_transaction_state.
  destruct (update_transaction_body_footprint env node id status retry st) as [_ [H|[bn H]]].
  - unfold stored_status. by rewrite H.
  - rewrite (stored_status_update id id' status bn
               (fun st => (update_transaction_body env node id status retry st).1) st H).
    by rewrite (proj2 (Z.eqb_neq id' id) Hne).
Qed.

(** An update to a status other than ['confirmed'] of a row that exists
    and is not confirmed leaves the row in that status. *)
Lemma stored_status_same id status retry st s0 :
  status <> "confirmed" ->
  stored_status id st = Some s0 -> s0 <> "confirmed" ->
  stored_status id (update_transaction env node id status retry st).1 = Some status.
Proof.
  intros Hs Hst Hs0. unfold stored_status in Hst.
  destruct (fetch_by_id id (transactions st)) as [tx|] eqn:Hf; [|done].
  simpl in Hst. injection Hst as <-.
  destruct (decide (Manager.status tx = status)) as [He|He].
  - assert ((update_transaction env node id status retry st).1 = st) as ->.
    { rewrite update_transaction_state. unfold update_transaction_body.
      rewrite Hf. apply String.eqb_eq in He. by rewrite He. }
    unfold stored_status. rewrite Hf. simpl. by rewrite He.
  - destruct (update_transaction_pending env node id status retry st tx Hf He Hs0 Hs)
      as (new & _ & Ht & _).
    rewrite (stored_status_update id id status None
               (fun st => (update_transaction env node id status retry st).1) st Ht).
    rewrite Z.eqb_refl. unfold stored_status. by rewrite Hf.
Qed.

(** The events of an update to a status other than ['confirmed'] extend
    the log. *)
Lemma update_transaction_extends id status retry st :
  status <> "confirmed" ->
  exists new, events (update_transaction env node id status retry st).1 = events st ++ new.
Proof.
  intros Hs.
  destruct (fetch_by_id id (transactions st)) as [tx|] eqn:Hf.
  - destruct (String.eqb (Manager.status tx) status) eqn:E1;
      [|destruct (String.eqb (Manager.status tx) "confirmed") eqn:E2].
    + exists []. rewrite update_transaction_state. unfold update_transaction_body.
      by rewrite Hf, E1, app_nil_r.
    + exists []. rewrite update_transaction_state. unfold update_transaction_body.
      by rewrite Hf, E1, E2, app_nil_r.
    + apply String.eqb_neq in E1, E2.
      destruct (update_transaction_pending env node id status retry st tx)
        as (new & _ & _ & Hev & _); try done. by exists new.
  - exists []. rewrite update_transaction_state. unfold update_transaction_body.
    by rewrite Hf, app_nil_r.
Qed.

Lemma update_all_cons status t pending st :
  update_all env node status (t :: pending) st =
  update_all env node status pending
    (update_transaction env node (transaction_id t) status 0 st).1.
Proof. done. Qed.

Lemma update_all_quiet status pending st :
  quiet st (update_all env node status pending st).
Proof.
  revert st. induction pending as [|t rest IH]; intros st; [done|].
  rewrite update_all_cons.
  eapply quiet_trans; [apply update_transaction_quiet | apply IH].
Qed.

Lemma update_all_extends status pending st :
  status <> "confirmed" ->
  exists new, events (update_all env node status pending st) = events st ++ new.
Proof.
  intros Hs. revert st. induction pending as [|t rest IH]; intros st.
  - exists []. by rewrite app_nil_r.
  - rewrite update_all_cons.
    destruct (update_transaction_extends (transaction_id t) status 0 st Hs) as [n1 H1].
    destruct (IH (update_transaction env node (transaction_id t) status 0 st).1) as [n2 H2].
    exists (n1 ++ n2). by rewrite H2, H1, app_assoc.
Qed.

(** A row that holds [status] keeps it through further updates to
    [status]. *)
Lemma update_all_keeps status pending st id :
  status <> "confirmed" ->
  stored_status id st = Some status ->
  stored_status id (update_all env node status pending st) = Some status.
Proof.
  intros Hs. revert st. induction pending as [|t rest IH]; intros st Hst; [done|].
  rewrite update_all_cons. apply IH.
  destruct (decide (id = transaction_id t)) as [->|Hne].
  - eapply stored_status_same; [done|exact Hst|done].
  - by rewrite stored_status_other.
Qed.

(** After [update_transaction(id, status)] for every row of [pending],
    each of them that was stored and not confirmed holds [status]. *)
Lemma update_all_stored status pending st t s0 :
  status <> "confirmed" ->
  t ∈ pending ->
  stored_status (transaction_id t) st = Some s0 -> s0 <> "confirmed" ->
  stored_status (transaction_id t) (update_all env node status pending st) = Some status.
Proof.
  intros Hs. revert st s0.
  induction pending as [|x rest IH]; intros st s0 Hin Hst Hs0.
  { by apply elem_of_nil in Hin. }
  rewrite update_all_cons.
  destruct (decide (transaction_id t = transaction_id x)) as [He|Hne].
  - apply update_all_keeps; [done|]. rewrite <- He.
    eapply stored_status_same; [done|exact Hst|done].
  - apply elem_of_cons in Hin as [->|Hin]; [done|].
    apply (IH _ s0); [done| |done]. by rewrite stored_status_other.
Qed.

Lemma mark_queued_update_all pending st :
  mark_queued env node pending st =
  (update_all env node "queued" (still_new pending) st, Returned).
Proof.
  unfold still_new.
  revert st. induction pending as [|t rest IH]; intros st; [done|]. simpl.
  destruct (String.eqb (status t) "new") eqn:E.
  - rewrite filter_cons_True by done. rewrite update_all_cons.
    pose proof (update_transaction_returns env node (transaction_id t) "queued" 0 st) as Hr.
    destruct (update_transaction env node (transaction_id t) "queued" 0 st) as [st1 o].
    simpl in *. rewrite Hr by done. apply IH.
  - rewrite filter_cons_False by (by rewrite E). apply IH.
Qed.

(** ** One turn of the loop *)

Lemma fetch_old_tx_nonce a t st old :
  fetch_old_tx a t st = Some old -> nonce old = nonce t.
Proof.
  unfold fetch_old_tx. intros H. apply find_some in H as [_ H].
  apply andb_true_iff in H as [H _]. apply andb_true_iff in H as [_ H].
  by apply Z.eqb_eq in H.
Qed.

(** The nonce check either ends the turn or lets the candidate through
    with the loop variables and the state as they were: the branch that
    would error the older row is taken only when the two nonces differ,
    and [fetch_old_tx] returns a row with the same nonce. *)
Lemma check_nonce_through a nn t l st l1 st1 :
  check_nonce env node a nn t l st = inl (l1, st1) -> l1 = l /\ st1 = st.
Proof.
  unfold check_nonce.
  destruct (_ && _); [|by intros [= <- <-]].
  destruct (String.eqb (status t) "new").
  - destruct (fetch_old_tx a t st) as [old|] eqn:Ho; [|by intros [= <- <-]].
    destruct (String.eqb (status old) "error"); [by intros [= <- <-]|].
    destruct (_ || _); [done|].
    rewrite (fetch_old_tx_nonce _ _ _ _ Ho), Z.ltb_irrefl. done.
  - by destruct (String.eqb (status t) "queued").
Qed.

Lemma sends_only_quiet Q a st st' : quiet st st' -> sends_only env Q a st st'.
Proof.
  intros (Hr & _ & _ & Hs). split; [done|]. exists []. by rewrite app_nil_r.
Qed.

Lemma sends_only_trans Q a st1 st2 st3 :
  sends_only env Q a st1 st2 -> sends_only env Q a st2 st3 -> sends_only env Q a st1 st3.
Proof.
  intros [Hr1 (n1 & H1 & F1)] [Hr2 (n2 & H2 & F2)]. split; [congruence|].
  exists (n1 ++ n2). split; [by rewrite H2, H1, app_assoc | by apply Forall_app].
Qed.

Lemma sends_only_send Q a tx st :
  signed_by env Q a tx -> sends_only env Q a st (tick (emit (SendRaw tx) st)).
Proof.
  intros H. split; [done|]. exists [tx]. simpl. rewrite sent_app. split; [done|].
  by constructor.
Qed.

Lemma call_update_good Q a l st0 id status st k :
  sends_only env Q a st0 st ->
  (forall st', quiet st st' -> good_turn env Q a l st0 (k st')) ->
  good_turn env Q a l st0 (call_update env node id status st k).
Proof.
  intros H0 Hk. unfold call_update.
  pose proof (update_transaction_quiet env node id status 0 st) as Hq.
  destruct (update_transaction env node id status 0 st) as [st' [|]]; simpl in Hq.
  - by apply Hk.
  - split; [|done]. simpl.
    eapply sends_only_trans; [exact H0 | by apply sends_only_quiet].
Qed.

Lemma continue_good Q a l st0 l' st' :
  sends_only env Q a st0 st' ->
  transactions_out l' = transactions_out l \/ transactions_out l' = [] ->
  good_turn env Q a l st0 (Continue l' st').
Proof. by split. Qed.

Lemma fail_and_continue_good Q a l st0 t st :
  sends_only env Q a st0 st ->
  good_turn env Q a l st0 (fail_and_continue env node t l st).
Proof.
  intros H0. unfold fail_and_continue. apply call_update_good; [done|].
  intros st' Hq. apply continue_good; [|by left].
  eapply sends_only_trans; [exact H0 | by apply sends_only_quiet].
Qed.

Lemma mark_queued_and_break_good Q a l st0 t l1 st :
  sends_only env Q a st0 st ->
  good_turn env Q a l st0 (mark_queued_and_break env node t l1 st).
Proof.
  intros H0. unfold mark_queued_and_break. rewrite mark_queued_update_all.
  split; [|done]. simpl.
  eapply sends_only_trans; [exact H0|]. apply sends_only_quiet, update_all_quiet.
Qed.

Lemma send_good Q a l t tx cost st :
  signed_by env Q a tx ->
  good_turn env Q a l st (send env node t tx cost l st).
Proof.
  intros Hs. unfold send.
  pose proof (sends_only_send Q a tx st Hs) as H1.
  destruct (eth_sendRawTransaction node (clock st) tx) as [h|e].
  - apply call_update_good; [done|]. intros st' Hq.
    apply continue_good; [|by left].
    eapply sends_only_trans; [exact H1 | by apply sends_only_quiet].
  - destruct (already_known e); cbn [fst snd].
    + destruct (eth_getTransactionByHash node _ (hash t)) as [ex|].
      * apply call_update_good.
        { eapply sends_only_trans; [exact H1 | by apply sends_only_quiet]. }
        intros st' Hq. apply continue_good; [|by left].
        eapply sends_only_trans; [exact H1|].
        apply sends_only_quiet. by eapply quiet_trans; [apply quiet_tick|].
      * apply call_update_good.
        { eapply sends_only_trans; [exact H1 | by apply sends_only_quiet]. }
        intros st' Hq. apply continue_good; [|by left].
        eapply sends_only_trans; [exact H1|].
        apply sends_only_quiet. by eapply quiet_trans; [apply quiet_tick|].
    + apply call_update_good; [done|]. intros st' Hq.
      apply continue_good; [|by left].
      eapply sends_only_trans; [exact H1 | by apply sends_only_quiet].
Qed.

Lemma sends_only_refl Q a st : sends_only env Q a st st.
Proof. apply sends_only_quiet, quiet_refl. Qed.

Lemma check_balance_good Q a l t st :
  t ∈ Q ->
  good_turn env Q a l st (check_balance env node a t l st).
Proof.
  intros Hin. unfold check_balance.
  destruct (parse_int env (value t)) as [v|]; [|by split; [apply sends_only_refl|]].
  destruct (parse_int env (gas t)) as [g|]; [|by split; [apply sends_only_refl|]].
  destruct (parse_int env (gas_price t)) as [p|]; [|by split; [apply sends_only_refl|]].
  destruct (v + g * p <=? balance l).
  - destruct (below_floor env p st).
    + apply mark_queued_and_break_good. apply sends_only_quiet.
      apply quiet_emit. intros ? ?; discriminate.
    + destruct (negb (valid_transaction env _)); [by split; [apply sends_only_refl|]|].
      destruct (recover_sender env (rebuild env t v g p)) as [sender|] eqn:Hr;
        [|by split; [apply sends_only_refl|]].
      destruct (String.eqb sender a) eqn:Es; cbn [negb].
      * apply send_good. apply String.eqb_eq in Es. subst sender.
        split; [done|]. by eexists _, _, _, _.
      * apply fail_and_continue_good, sends_only_refl.
  - destruct (_ <? _).
    + apply fail_and_continue_good, sends_only_refl.
    + destruct (any_above_last _ _); [|by split; [apply sends_only_refl|]].
      apply mark_queued_and_break_good, sends_only_refl.
Qed.

Lemma process_candidate_good Q a nn l t st :
  t ∈ Q ->
  good_turn env Q a l st (process_candidate env node a nn t l st).
Proof.
  intros Hin. unfold process_candidate.
  destruct (previous_error l).
  { apply call_update_good; [apply sends_only_refl|]. intros st' Hq.
    apply continue_good; [by apply sends_only_quiet | by left]. }
  destruct (check_nonce env node a nn t l st) as [[l1 st1]|c] eqn:Hc.
  - apply check_nonce_through in Hc as [-> ->]. by apply check_balance_good.
  - revert Hc. unfold check_nonce.
    destruct (_ && _); [|done].
    destruct (String.eqb (status t) "new").
    + destruct (fetch_old_tx a t st) as [old|] eqn:Ho; [|done].
      destruct (String.eqb (status old) "error"); [done|].
      destruct (_ || _).
      { intros [= <-]. apply fail_and_continue_good, sends_only_refl. }
      rewrite (fetch_old_tx_nonce _ _ _ _ Ho), Z.ltb_irrefl.
      intros [= <-]. apply call_update_good; [apply sends_only_refl|].
      intros st' Hq. apply continue_good; [by apply sends_only_quiet | by right].
    + destruct (String.eqb (status t) "queued").
      * intros [= <-]. apply fail_and_continue_good, sends_only_refl.
      * intros [= <-]. split; [apply sends_only_refl | done].
Qed.

(** ** The loop *)

(** The loop ends (the fuel suffices), and all it sends is signed by the
    address of the queue. *)
Lemma queue_loop_good Q a nn fuel l st :
  (forall t, t ∈ transactions_out l -> t ∈ Q) ->
  (length (transactions_out l) <= fuel)%nat ->
  exists st', loop_end_state (queue_loop env node fuel a nn l st) = Some st' /\
              sends_only env Q a st st'.
Proof.
  revert l st. induction fuel as [|fuel IH]; intros l st HQ Hlen.
  - destruct (transactions_out l) as [|x q] eqn:E; [|simpl in Hlen; lia].
    simpl. rewrite E. simpl. exists st. split; [done | apply sends_only_refl].
  - simpl. destruct (pop (transactions_out l)) as [[t rest]|] eqn:Hp.
    + apply pop_Some in Hp.
      assert (t ∈ Q) as Ht by (apply HQ; rewrite Hp; set_solver).
      pose proof (process_candidate_good Q a nn (with_queue rest l) t st Ht) as [Hs Hq].
      destruct (process_candidate env node a nn t (with_queue rest l) st)
        as [l' st'|l' st'|st'|st']; simpl in Hs, Hq;
        try (by exists st').
      destruct (IH l' st') as (st2 & He & Hs2).
      * intros x Hx. apply HQ. rewrite Hp.
        destruct Hq as [Hq|Hq]; rewrite Hq in Hx; [set_solver | by apply elem_of_nil in Hx].
      * rewrite Hp, length_app in Hlen. simpl in Hlen.
        destruct Hq as [Hq|Hq]; rewrite Hq; simpl; lia.
      * exists st2. split; [done | by eapply sends_only_trans].
    + exists st. split; [done | apply sends_only_refl].
Qed.

(** After an error every remaining candidate is set to ['error'], oldest
    nonce first. *)
Lemma cascade a nn fuel l st :
  previous_error l = true ->
  (length (transactions_out l) <= fuel)%nat ->
  exists l',
    queue_loop env node fuel a nn l st
      = Finished l' (update_all env node "error" (rev (transactions_out l)) st) /\
    transactions_out l' = [].
Proof.
  revert l st. induction fuel as [|fuel IH]; intros l st Hpe Hlen.
  - destruct (transactions_out l) as [|x q] eqn:E; [|simpl in Hlen; lia].
    simpl. rewrite E. simpl. by exists l.
  - simpl. destruct (pop (transactions_out l)) as [[t rest]|] eqn:Hp.
    + apply pop_Some in Hp. rewrite Hp, rev_unit, update_all_cons.
      unfold process_candidate. simpl. rewrite Hpe. unfold call_update.
      pose proof (update_transaction_returns env node (transaction_id t) "error" 0 st) as Hr.
      destruct (update_transaction env node (transaction_id t) "error" 0 st) as [st1 o].
      simpl in Hr. rewrite Hr by done. simpl.
      match goal with |- context [queue_loop _ _ _ _ _ ?l1 _] =>
        destruct (IH l1 st1) as (l' & He & Hl') end.
      * done.
      * simpl. rewrite Hp, length_app in Hlen. simpl in Hlen. lia.
      * simpl in He. rewrite He. by exists l'.
    + apply pop_None in Hp. rewrite Hp. simpl. by exists l.
Qed.

Lemma update_all_sets status rows pending st :
  status <> "confirmed" ->
  (forall t, t ∈ rows -> t ∈ pending) ->
  all_set_to status rows st (update_all env node status pending st).
Proof.
  intros Hs Hsub t s0 Hin Hst Hs0.
  eapply update_all_stored; [done|by apply Hsub|exact Hst|done].
Qed.

(** A candidate that fails takes the rest of the queue with it. *)
Lemma fail_then_cascade a nn fuel l st t rest :
  next_candidate t rest l ->
  process_candidate env node a nn t (with_queue rest l) st
    = fail_and_continue env node t (with_queue rest l) st ->
  (length rest <= fuel)%nat ->
  exists l' st',
    queue_loop env node (S fuel) a nn l st = Finished l' st' /\
    transactions_out l' = [] /\ nothing_sent st st' /\
    all_set_to "error" (t :: rest) st st'.
Proof.
  intros Hp Hc Hlen. unfold next_candidate in Hp. simpl. rewrite Hp, Hc.
  unfold fail_and_continue, call_update.
  pose proof (update_transaction_returns env node (transaction_id t) "error" 0 st) as Hr.
  destruct (update_transaction env node (transaction_id t) "error" 0 st) as [st1 o] eqn:Eu.
  simpl in Hr. rewrite Hr by done.
  match goal with |- context [queue_loop _ _ _ _ _ ?l1 _] =>
    destruct (cascade a nn fuel l1 st1) as (l' & He & Hl') end; [done|done|].
  rewrite He. cbn [transactions_out with_queue]. eexists _, _. split; [done|]. split; [done|].
  assert (update_all env node "error" (rev rest) st1
          = update_all env node "error" (t :: rev rest) st) as ->.
  { rewrite update_all_cons. by rewrite Eu. }
  split.
  - apply update_all_quiet.
  - apply update_all_sets; [done|]. intros x Hx.
    revert Hx. rewrite !elem_of_cons, elem_of_rev. tauto.
Qed.

(** A candidate that has to wait marks what is ['new'] as ['queued'] and
    ends the loop. *)
Lemma wait_then_break a nn fuel l st t rest l1 st1 :
  next_candidate t rest l ->
  process_candidate env node a nn t (with_queue rest l) st
    = mark_queued_and_break env node t l1 st1 ->
  transactions_out l1 = rest ->
  exists l',
    queue_loop env node (S fuel) a nn l st
      = Finished l' (update_all env node "queued" (still_new (t :: rev rest)) st1) /\
    transactions_out l' = [] /\
    nothing_sent st1 (update_all env node "queued" (still_new (t :: rev rest)) st1) /\
    all_set_to "queued" (still_new (t :: rest)) st1
      (update_all env node "queued" (still_new (t :: rev rest)) st1).
Proof.
  intros Hp Hc Hq. unfold next_candidate in Hp. simpl. rewrite Hp, Hc.
  unfold mark_queued_and_break. rewrite mark_queued_update_all, Hq.
  eexists. split; [done|]. split; [done|]. split.
  - apply update_all_quiet.
  - apply update_all_sets; [done|]. intros x. unfold still_new.
    rewrite !list_elem_of_filter, !elem_of_cons, elem_of_rev. tauto.
Qed.

(** ** The pass *)

Lemma dispatch_addresses_frame addresses st :
  frame st (dispatch_addresses addresses st).
Proof.
  revert st. induction addresses as [|x rest IH]; intros st; [done|]. simpl.
  eapply frame_trans; [|apply IH].
  destruct (negb _); [|done]. apply frame_emit. intros ? ?; discriminate.
Qed.

Lemma finish_pass_frame a l st : frame st (finish_pass a l st).
Proof.
  unfold finish_pass.
  destruct (transactions_out l).
  - apply dispatch_addresses_frame.
  - eapply frame_trans; [apply dispatch_addresses_frame|].
    apply frame_emit. intros ? ?; discriminate.
Qed.

Lemma start_loop_spec a queue st nn l st1 :
  start_loop env node a queue st = Some (nn, l, st1) ->
  transactions_out l = queue /\ st1 = tick (tick st).
Proof.
  unfold start_loop.
  destruct (fetch_unconfirmed_txs a (tick st)) as [|u us]; [by intros [= <- <- <-]|].
  destruct (sum_costs env (u :: us)); [|done]. simpl.
  destruct (last (u :: us)); [|done]. simpl. by intros [= <- <- <-].
Qed.

(** A pass always ends, and every raw transaction it hands to the node was
    rebuilt from a row of the queue and is signed by the queue's address. *)
Lemma process_transaction_queue_good a st :
  exists st' o,
    _process_transaction_queue env node a st = Some (st', o) /\
    sends_only env (fetch_transactions_out a st) a st st'.
Proof.
  unfold _process_transaction_queue, process_transaction_queue_pass_fuel.
  set (Q := fetch_transactions_out a st).
  destruct Q as [|q0 qs] eqn:EQ.
  { eexists _, _. split; [done | apply sends_only_refl]. }
  rewrite <- EQ.
  destruct (start_loop env node a Q st) as [[[nn l] st1]|] eqn:Es.
  - apply start_loop_spec in Es as [Hq ->].
    destruct (queue_loop_good Q a nn (length Q) l (tick (tick st))) as (st2 & He & Hs).
    { by rewrite Hq. }
    { by rewrite Hq. }
    assert (sends_only env Q a st st2) as Hs'.
    { eapply sends_only_trans; [|exact Hs]. by apply sends_only_quiet. }
    destruct (queue_loop env node (length Q) a nn l (tick (tick st)))
      as [l2 st2'|st2'|st2'|]; simpl in He; try done; injection He as ->.
    + eexists _, _. split; [done|].
      eapply sends_only_trans; [exact Hs'|].
      apply sends_only_quiet, finish_pass_frame.
    + by eexists _, _.
    + by eexists _, _.
  - eexists _, _. split; [done|]. by apply sends_only_quiet.
Qed.

Lemma elem_of_fetch_transactions_out a st t :
  t ∈ fetch_transactions_out a st ->
  t ∈ transactions st /\ from_address t = a.
Proof.
  unfold fetch_transactions_out, order_by_desc.
  rewrite elem_of_order_by, list_elem_of_filter. intros [H Hin]. split; [done|].
  apply andb_True in H as [H _]. apply andb_True in H as [H _].
  by apply String.eqb_eq, Is_true_true.
Qed.

End Queue.

End QueueProofs.

Module QueueClaims.
Import Manager ManagerProofs QueueProofs.

Section Claims.

Context (env : Env) (node : Node).

Lemma process_candidate_balance a nn t l st :
  previous_error l = false ->
  passes_nonce_check env node a nn t l st ->
  process_candidate env node a nn t l st = check_balance env node a t l st.
Proof.
  intros Hpe Hn. unfold process_candidate. rewrite Hpe.
  unfold passes_nonce_check in Hn. by rewrite Hn.
Qed.




(** C6 (amended).  A candidate reached by the loop whose cost the working
    balance covers and whose gas price is strictly below the cached
    safe-low floor: a retry pass for the address is scheduled in 60
    seconds, every row of the queue that is still ['new'] is set to
    ['queued'], nothing is sent to the node and the loop ends with an empty
    queue. *)
Theorem low_gas_price_waits
    a nn fuel l st t rest value gas gas_price floor :
  next_candidate t rest l ->
  previous_error l = false ->
  passes_nonce_check env node a nn t (with_queue rest l) st ->
  parse_int env (Manager.value t) = Some value ->
  parse_int env (Manager.gas t) = Some gas ->
  parse_int env (Manager.gas_price t) = Some gas_price ->
  value + gas * gas_price <= balance l ->
  parse_int env (gas_station_safelow_gas_price (redis st)) = Some floor ->
  0 <= gas_price < floor ->
  exists l' st',
    queue_loop env node (S fuel) a nn l st = Finished l' st' /\
    transactions_out l' = [] /\ nothing_sent st st' /\
    ProcessQueue a (Some 60) ∈ events st' /\
    all_set_to "queued" (still_new (t :: rest)) st st'.
Proof.
  intros Hp Hpe Hn Ev Eg Egp Hle Hfloor [H0 Hlt].
  pose proof (process_candidate_balance a nn t (with_queue rest l) st Hpe Hn) as Hpc.
  unfold check_balance in Hpc. rewrite Ev, Eg, Egp in Hpc.
  cbn [balance with_queue] in Hpc.
  rewrite (proj2 (Z.leb_le _ _) Hle) in Hpc.
  unfold below_floor in Hpc. rewrite Hfloor in Hpc.
  assert (truthy_int (Some floor) && (gas_price <? floor) = true) as Hb.
  { unfold truthy_int. rewrite (proj2 (Z.ltb_lt _ _) Hlt).
    rewrite (proj2 (Z.eqb_neq floor 0)) by lia. done. }
  rewrite Hb in Hpc.
  destruct (wait_then_break env node a nn fuel l st t rest _ _ Hp Hpc)
    as (l' & He & Hl' & Hs & Hall); [done|].
  eexists _, _. split; [exact He|]. split; [done|]. split; [|split].
  - unfold nothing_sent in *. rewrite Hs. simpl. rewrite sent_app. simpl.
    by rewrite app_nil_r.
  - destruct (update_all_extends env node "queued" (still_new (t :: rev rest))
                (emit (ProcessQueue a (Some 60)) st)) as [new Hnew]; [done|].
    rewrite Hnew. simpl. set_solver.
  - exact Hall.
Qed.

(** C10.  Whatever the table holds, a pass ends, and every raw transaction
    it hands to the node was rebuilt from a row whose sender is the queue's
    address and whose signature recovers to that sender.  The mechanism:
    when the loop reaches a candidate it would send (cost covered, gas
    price accepted) and the address recovered from [(v, r, s)] is not the
    queue's address, the candidate and every later candidate of the pass
    are set to ['error'] and nothing is sent. *)
Theorem forged_signature_is_never_sent
    a st0 nn fuel l st t rest value gas gas_price sender :
  (exists st' o,
     _process_transaction_queue env node a st0 = Some (st', o) /\
     exists new,
       sent (events st') = sent (events st0) ++ new /\
       forall tx, tx ∈ new ->
         exists row, row ∈ transactions st0 /\ from_address row = a /\
           (exists v g p, tx = rebuild env row v g p) /\
           recover_sender env tx = Some (from_address row)) /\
  (next_candidate t rest l ->
   previous_error l = false ->
   passes_nonce_check env node a nn t (with_queue rest l) st ->
   parse_int env (Manager.value t) = Some value ->
   parse_int env (Manager.gas t) = Some gas ->
   parse_int env (Manager.gas_price t) = Some gas_price ->
   value + gas * gas_price <= balance l ->
   below_floor env gas_price st = false ->
   valid_transaction env (rebuild env t value gas gas_price) = true ->
   recover_sender env (rebuild env t value gas gas_price) = Some sender ->
   sender <> a ->
   (length rest <= fuel)%nat ->
   exists l' st',
     queue_loop env node (S fuel) a nn l st = Finished l' st' /\
     transactions_out l' = [] /\ nothing_sent st st' /\
     all_set_to "error" (t :: rest) st st').
Proof.
  split.
  - destruct (process_transaction_queue_good env node a st0)
      as (st' & o & Hpass & _ & new & Hsent & Hall).
    exists st', o. split; [done|]. exists new. split; [done|].
    intros tx Htx. rewrite Forall_forall in Hall.
    destruct (Hall tx Htx) as (Hrec & row & v & g & p & Hrow & ->).
    apply elem_of_fetch_transactions_out in Hrow as [Hrow Hfrom].
    exists row. split; [done|]. split; [done|]. split; [by eexists _, _, _|].
    by rewrite Hfrom.
  - intros Hp Hpe Hn Ev Eg Egp Hle Hfloor Hvalid Hrec Hne Hlen.
    pose proof (process_candidate_balance a nn t (with_queue rest l) st Hpe Hn) as Hpc.
    unfold check_balance in Hpc. rewrite Ev, Eg, Egp in Hpc.
    cbn [balance with_queue] in Hpc.
    rewrite (proj2 (Z.leb_le _ _) Hle) in Hpc.
    rewrite Hfloor, Hvalid, Hrec in Hpc.
    rewrite (eqb_false _ _ Hne) in Hpc. cbn [negb] in Hpc.
    by apply fail_then_cascade.
Qed.

(** In an overwrite the incoming row loses whatever the gas prices are:
    the row [fetch_old_tx] returns has the candidate's nonce, so the test
    [transaction['nonce'] > old_tx['nonce']] of line 149 is never true. *)
Lemma overwrite_errors_the_incoming_row a nn t l st old :
  expected_nonce l <> nonce t -> nn <> nonce t ->
  status t = "new" ->
  fetch_old_tx a t st = Some old ->
  status old <> "error" -> status old <> "unconfirmed" -> status old <> "confirmed" ->
  exists l',
    check_nonce env node a nn t l st
      = inr (Continue l' (update_transaction env node (transaction_id t) "error" 0 st).1) /\
    transactions_out l' = [].
Proof.
  intros H1 H2 Hs Ho He Hu Hc. unfold check_nonce.
  rewrite (proj2 (Z.eqb_neq _ _) H1), (proj2 (Z.eqb_neq _ _) H2), Hs, Ho.
  rewrite (eqb_false _ _ He), (eqb_false _ _ Hu), (eqb_false _ _ Hc).
  rewrite (fetch_old_tx_nonce _ _ _ _ Ho), Z.ltb_irrefl.
  cbn [negb andb orb String.eqb Ascii.eqb Bool.eqb]. unfold call_update.
  pose proof (update_transaction_returns env node (transaction_id t) "error" 0 st) as Hr.
  destruct (update_transaction env node (transaction_id t) "error" 0 st) as [st1 o].
  simpl in Hr. rewrite Hr by done. by eexists.
Qed.

End Claims.

(** C1 at two rows with the same sender and nonce: the older one is
    ['queued'] at gas price 1, the incoming one is ['new'] at gas price 2,
    and the nonce is not the one expected.  Whichever row the table lists
    first, the pass sets the incoming row, the one with the higher gas
    price, to ['error']. *)
Theorem overwrite_errors_higher_gas_price :
  let node := Sample.node 1000000 3 in
  Sample.parse_decimal (gas_price Sample.older_row) = Some 1 /\
  Sample.parse_decimal (gas_price Sample.incoming_row) = Some 2 /\
  (exists st',
     _process_transaction_queue Sample.env node "0xaa"
       (Sample.database [Sample.older_row; Sample.incoming_row] None)
       = Some (st', Returned) /\
     stored_status 1 st' = Some "queued" /\ stored_status 2 st' = Some "error") /\
  (exists st',
     _process_transaction_queue Sample.env node "0xaa"
       (Sample.database [Sample.incoming_row; Sample.older_row] None)
       = Some (st', Returned) /\
     stored_status 1 st' = Some "error" /\ stored_status 2 st' = Some "error").
Proof.
  split; [reflexivity|]. split; [reflexivity|]. split.
  - eexists. split; [vm_compute; reflexivity|]. split; reflexivity.
  - eexists. split; [vm_compute; reflexivity|]. split; reflexivity.
Qed.

(** C6 as stated fails: a candidate whose gas price (5) is below the floor
    (10) but whose cost the balance (0) does not cover is set to ['error'],
    and no retry is scheduled. *)
Lemma low_gas_price_waits_counterexample :
  let st := Sample.database [Sample.first_row] (Some "10") in
  Sample.parse_decimal (gas_price Sample.first_row) = Some 5 /\
  Sample.parse_decimal (gas_station_safelow_gas_price (redis st)) = Some 10 /\
  exists st',
    _process_transaction_queue Sample.env (Sample.node 0 0) "0xaa" st
      = Some (st', Returned) /\
    stored_status 1 st' = Some "error" /\
    ~ ProcessQueue "0xaa" (Some 60) ∈ events st'.
Proof.
  split; [reflexivity|]. split; [reflexivity|].
  eexists. split; [vm_compute; reflexivity|]. split; [reflexivity|].
  intros H. apply list_elem_of_In in H. simpl in H.
  repeat (destruct H as [H|H]; [discriminate H|]). done.
Qed.


(** C6 (amended) at two new payments priced at 5 while the floor is 10,
    from an address that can pay for them: both become ['queued'], nothing
    is sent, a retry is scheduled. *)
Lemma low_gas_price_waits_witness :
  let l := Sample.loop 1000000 0 [Sample.second_row; Sample.first_row] in
  let st := Sample.two_payments (Some "10") in
  let node := Sample.node 1000000 0 in
  next_candidate Sample.first_row [Sample.second_row] l /\
  passes_nonce_check Sample.env node "0xaa" 0 Sample.first_row
    (with_queue [Sample.second_row] l) st /\
  5 + 21000 * 5 <= balance l /\ 0 <= 5 < 10 /\
  exists l' st',
    queue_loop Sample.env node 1 "0xaa" 0 l st = Finished l' st' /\
    sent (events st') = [] /\
    ProcessQueue "0xaa" (Some 60) ∈ events st' /\
    stored_status 1 st' = Some "queued" /\ stored_status 2 st' = Some "queued".
Proof.
  intros l st node.
  assert (next_candidate Sample.first_row [Sample.second_row] l) as H1 by reflexivity.
  assert (passes_nonce_check Sample.env node "0xaa" 0 Sample.first_row
            (with_queue [Sample.second_row] l) st) as H2 by reflexivity.
  assert (5 + 21000 * 5 <= balance l) as H3 by (by intros ?).
  assert (0 <= 5 < 10) as H4 by (split; [by intros ? | reflexivity]).
  repeat (split; [assumption|]).
  destruct (low_gas_price_waits Sample.env node "0xaa" 0 0 l st
              Sample.first_row [Sample.second_row] 5 21000 5 10
              H1 eq_refl H2 eq_refl eq_refl eq_refl H3 eq_refl H4)
    as (l' & st' & He & _ & Hs & Hretry & Hall).
  exists l', st'. split; [exact He|]. split; [exact Hs|]. split; [exact Hretry|].
  split.
  - apply (Hall Sample.first_row "new"); [by left|reflexivity|discriminate].
  - apply (Hall Sample.second_row "new"); [by right; left|reflexivity|discriminate].
Defined.

(** C10 at a row of ["0xaa"] whose signature recovers to ["0xbb"]: it and
    the row after it are set to ['error'] and nothing is sent. *)
Lemma forged_signature_is_never_sent_witness :
  let l := Sample.loop 1000000 0 [Sample.second_row; Sample.forged_row] in
  let st := Sample.forged_payments in
  let node := Sample.node 1000000 0 in
  next_candidate Sample.forged_row [Sample.second_row] l /\
  passes_nonce_check Sample.env node "0xaa" 0 Sample.forged_row
    (with_queue [Sample.second_row] l) st /\
  recover_sender Sample.env (rebuild Sample.env Sample.forged_row 5 21000 5)
    = Some "0xbb" /\
  exists l' st',
    queue_loop Sample.env node 2 "0xaa" 0 l st = Finished l' st' /\
    sent (events st') = [] /\
    stored_status 1 st' = Some "error" /\ stored_status 2 st' = Some "error".
Proof.
  intros l st node.
  assert (next_candidate Sample.forged_row [Sample.second_row] l) as H1 by reflexivity.
  assert (passes_nonce_check Sample.env node "0xaa" 0 Sample.forged_row
            (with_queue [Sample.second_row] l) st) as H2 by reflexivity.
  repeat (split; [assumption || reflexivity|]).
  assert (5 + 21000 * 5 <= balance l) as H3 by (by intros ?).
  assert ("0xbb" <> "0xaa") as H4 by discriminate.
  destruct (proj2 (forged_signature_is_never_sent Sample.env node "0xaa" st 0 1 l st
              Sample.forged_row [Sample.second_row] 5 21000 5 "0xbb")
              H1 eq_refl H2 eq_refl eq_refl eq_refl H3 eq_refl eq_refl eq_refl H4 (le_n 1))
    as (l' & st' & He & _ & Hs & Hall).
  exists l', st'. split; [exact He|]. split; [exact Hs|]. split.
  - apply (Hall Sample.forged_row "new"); [by left|reflexivity|discriminate].
  - apply (Hall Sample.second_row "new"); [by right; left|reflexivity|discriminate].
Defined.

End QueueClaims.

Module LockProofs.
Import Manager ManagerProofs QueueProofs.

Section Lock.

Context (env : Env) (node : Node).

Lemma pass_keeps_cache a st st' o :
  _process_transaction_queue env node a st = Some (st', o) -> redis st' = redis st.
Proof.
  intros H.
  destruct (process_transaction_queue_good env node a st) as (st2 & o2 & H2 & Hr & _).
  rewrite H in H2. by injection H2 as -> ->.
Qed.






End Lock.

Lemma start_on_free_key env node (i : Instance) (st : State) :
  inst_pc i = AtStart ->
  inst_address i ∉ processing_tx_queue (redis st) ->
  process_transaction_queue_step env node i st
    = Some (at_pc i InPass, set_redis (lock (inst_address i)) st).
Proof.
  intros Hpc Hfree. unfold process_transaction_queue_step. rewrite Hpc.
  by rewrite bool_decide_eq_false_2.
Qed.




End LockProofs.

(** * Properties of the intake *)

Module IntakeProofs.
Import TokenEth.

Section Intake.

Context (env : Env) (node : Node).

(** A submission that reaches the balance check runs the locked section
    and then releases the submission lock. *)
Lemma send_transaction_locked user raw signature st tx from_addr :
  reaches_balance_check env raw signature st tx from_addr ->
  send_transaction env node user raw signature st =
  let key := (from_addr, tx_nonce tx) in
  let res := locked_section env node user tx from_addr (tx_to tx)
               (set_submission_lock (fun s => {[key]} ∪ s) st) in
  (set_submission_lock (fun s => s ∖ {[key]}) res.1, res.2).
Proof.
  intros (tx0 & Hd & Ha & Hr & Hl & _).
  unfold send_transaction, with_redis_lock. rewrite Hd, Ha, Hr.
  rewrite bool_decide_eq_false_2 by done.
  by destruct (locked_section _ _ _ _ _ _ _).
Qed.

(** Only the balance check raises [JsonRPCInsufficientFundsError]. *)
Lemma locked_section_insufficient user tx from_addr to_addr st id msg :
  (locked_section env node user tx from_addr to_addr st).2
    = inr (JsonRPCInsufficientFundsError id msg) ->
  fetch_existing from_addr (tx_nonce tx) st = None /\
  available node from_addr st < cost tx /\
  id = "insufficient_funds" /\ msg = "Insufficient Funds".
Proof.
  unfold locked_section, available, cost.
  destruct (fetch_existing from_addr (tx_nonce tx) st); [done|].
  simpl. destruct (_ <? _) eqn:Eb.
  - simpl. intros [= <- <-]. by apply Z.ltb_lt in Eb.
  - destruct (tx_nonce tx <? _); [done|].
    destruct (_ <? tx_nonce tx); [done|].
    destruct (eth_sendRawTransaction node _ tx); [|done].
    destruct (has_monitor env); [|done].
    by destruct (String.eqb _ _).
Qed.

Lemma attach_signature_error tx signature e :
  attach_signature env tx signature = inr e ->
  forall id msg, e <> JsonRPCInsufficientFundsError id msg.
Proof.
  unfold attach_signature. intros H id msg ->.
  destruct (is_transaction_signed env tx).
  - destruct signature as [sig|]; [|done]. by destruct (_ && _).
  - destruct signature as [sig|]; [|done].
    destruct (negb (validate_signature env sig)); [done|].
    by destruct (data_decoder env sig).
Qed.

(** C4 (amended).  [send_transaction] rejects a submission with
    [insufficient_funds] if and only if the submission reaches the balance
    check (it decodes, its signature is accepted, the submission lock is
    free, no known row has its sender and nonce) and
    [value + gas * gas_price] exceeds the sender's balance, the chain
    balance minus the outstanding cost of the unconfirmed rows the sender
    has sent.  On this rejection no row is inserted and nothing is sent to
    the network. *)
Theorem insufficient_funds_rejection user raw signature st :
  let res := send_transaction env node user raw signature st in
  (res.2 = inr insufficient_funds <->
   exists tx from_addr,
     reaches_balance_check env raw signature st tx from_addr /\
     eth_getBalance node (clock st) from_addr None
       - outstanding_cost from_addr (transactions st) < cost tx) /\
  (forall id msg, res.2 = inr (JsonRPCInsufficientFundsError id msg) ->
     res.2 = inr insufficient_funds /\
     transactions res.1 = transactions st /\ events res.1 = events st).
Proof.
  intros res. subst res. split; [split|].
  - (* the rejection was raised by the balance check *)
    unfold send_transaction.
    destruct (decode_transaction env raw) as [tx0|] eqn:Hd; [|done].
    destruct (attach_signature env tx0 signature) as [tx|e] eqn:Ha.
    2: { simpl. intros [= ->].
         by destruct (attach_signature_error _ _ _ Ha "insufficient_funds"
                        "Insufficient Funds"). }
    destruct (recover_sender env tx) as [from_addr|] eqn:Hr; [|done].
    unfold with_redis_lock.
    destruct (bool_decide _) eqn:Hl; [done|]. apply bool_decide_eq_false in Hl.
    destruct (locked_section _ _ _ _ _ _ _) as [st1 r] eqn:El. simpl. intros ->.
    pose proof (locked_section_insufficient user tx from_addr (tx_to tx)
                  (set_submission_lock (fun s => {[(from_addr, tx_nonce tx)]} ∪ s) st)
                  "insufficient_funds" "Insufficient Funds") as H.
    rewrite El in H. destruct (H eq_refl) as (He & Hlt & _).
    exists tx, from_addr. split; [by exists tx0|]. exact Hlt.
  - intros (tx & from_addr & Hreach & Hlt).
    rewrite (send_transaction_locked user raw signature st tx from_addr Hreach).
    destruct Hreach as (tx0 & _ & _ & _ & _ & He).
    simpl. unfold locked_section.
    change (fetch_existing from_addr (tx_nonce tx) (set_submission_lock _ st))
      with (fetch_existing from_addr (tx_nonce tx) st).
    rewrite He. simpl.
    unfold cost in Hlt. by rewrite (proj2 (Z.ltb_lt _ _) Hlt).
  - intros id msg. unfold send_transaction.
    destruct (decode_transaction env raw) as [tx0|] eqn:Hd; [|done].
    destruct (attach_signature env tx0 signature) as [tx|e] eqn:Ha.
    2: { simpl. intros [= ->]. by destruct (attach_signature_error _ _ _ Ha id msg). }
    destruct (recover_sender env tx) as [from_addr|] eqn:Hr; [|done].
    unfold with_redis_lock.
    destruct (bool_decide _) eqn:Hl; [done|].
    destruct (locked_section _ _ _ _ _ _ _) as [st1 r] eqn:El. simpl. intros ->.
    pose proof (locked_section_insufficient user tx from_addr (tx_to tx)
                  (set_submission_lock (fun s => {[(from_addr, tx_nonce tx)]} ∪ s) st)
                  id msg) as H.
    rewrite El in H. destruct (H eq_refl) as (He & Hlt & -> & ->).
    split; [done|].
    revert El. unfold locked_section. rewrite He. simpl.
    unfold available, cost in Hlt. simpl in Hlt.
    rewrite (proj2 (Z.ltb_lt _ _) Hlt). by intros [= <-].
Qed.

Lemma current_nonce_required from_addr st f :
  (current_nonce node from_addr (tick (set_submission_lock f st))).1
  = required_nonce node from_addr st.
Proof.
  unfold current_nonce, required_nonce. simpl.
  destruct (nonce_hint st !! from_addr) as [hint|]; [|done].
  destruct (hint <? _) eqn:E.
  - apply Z.ltb_lt in E. lia.
  - apply Z.ltb_ge in E. lia.
Qed.

(** The locked section once the duplicate-row check and the balance check
    are passed: what remains is the nonce check and the send. *)
Lemma locked_section_checked user tx from_addr to_addr st f :
  fetch_existing from_addr (tx_nonce tx) st = None ->
  cost tx <= available node from_addr st ->
  let st1 := set_submission_lock f st in
  let st2 := tick (tick st1) in
  let current := required_nonce node from_addr st in
  locked_section env node user tx from_addr to_addr st1 =
  if tx_nonce tx <? current then (st2, inr (invalid_nonce "Provided nonce is too low"))
  else if current <? tx_nonce tx
  then (st2, inr (invalid_nonce "Provided nonce is too high"))
  else
    let st3 := tick (emit (SendRaw tx) st2) in
    match eth_sendRawTransaction node (S (S (clock st))) tx with
    | inr _ =>
        (st3, inr (JsonRPCInternalError "unexpected_error"
           "An error occured communicating with the ethereum network, try again later"))
    | inl tx_hash =>
        let st4 := insert_transaction
                     {| transaction_hash := tx_hash; from_address := from_addr;
                        to_address := to_addr; nonce := tx_nonce tx;
                        value := tx_value tx;
                        estimated_gas_cost := tx_startgas tx * tx_gasprice tx;
                        sender_token_id := user; last_status := Some "unconfirmed" |}
                     (set_nonce_hint from_addr (tx_nonce tx + 1) st3) in
        if has_monitor env then
          if String.eqb (transaction_hash_of env tx) tx_hash
          then (emit (MonitorNotify tx) st4, inl tx_hash)
          else (st4, inr OtherException)
        else (st4, inl tx_hash)
    end.
Proof.
  intros He Hc st1 st2 current. unfold locked_section.
  change (fetch_existing from_addr (tx_nonce tx) st1)
    with (fetch_existing from_addr (tx_nonce tx) st).
  rewrite He. unfold available, cost in Hc. simpl in Hc. simpl.
  rewrite (proj2 (Z.ltb_ge _ _) Hc).
  pose proof (current_nonce_required from_addr st f) as Hn.
  unfold current_nonce in *. simpl in *. rewrite Hn. fold current.
  destruct (tx_nonce tx <? current); [done|].
  destruct (current <? tx_nonce tx); [done|].
  by destruct (eth_sendRawTransaction node (S (S (clock st))) tx).
Qed.

(** C3.  A submission that passes the duplicate-row check and the balance
    check must carry the nonce [max(cached hint, chain count)] (the chain
    count alone when no hint is cached): a lower nonce is rejected as
    "Provided nonce is too low", a higher one as "Provided nonce is too
    high", in both cases without sending or inserting anything, and an
    accepted submission carries exactly that nonce. *)
Theorem nonce_must_be_current user raw signature st tx from_addr :
  reaches_balance_check env raw signature st tx from_addr ->
  cost tx <= available node from_addr st ->
  let res := send_transaction env node user raw signature st in
  let current := required_nonce node from_addr st in
  (tx_nonce tx < current ->
   res.2 = inr (JsonRPCInvalidParamsError "invalid_nonce" "Provided nonce is too low")) /\
  (current < tx_nonce tx ->
   res.2 = inr (JsonRPCInvalidParamsError "invalid_nonce" "Provided nonce is too high")) /\
  (tx_nonce tx <> current ->
   events res.1 = events st /\ transactions res.1 = transactions st) /\
  (forall tx_hash, res.2 = inl tx_hash -> tx_nonce tx = current).
Proof.
  intros Hreach Hc res current. subst res.
  rewrite (send_transaction_locked user raw signature st tx from_addr Hreach).
  destruct Hreach as (tx0 & _ & _ & _ & _ & He).
  cbn zeta. rewrite (locked_section_checked user tx from_addr (tx_to tx) st _ He Hc).
  cbn zeta. fold current.
  destruct (tx_nonce tx <? current) eqn:E1.
  { apply Z.ltb_lt in E1. simpl. repeat split; try done; lia. }
  destruct (current <? tx_nonce tx) eqn:E2.
  { apply Z.ltb_lt in E2. simpl. repeat split; try done; lia. }
  apply Z.ltb_ge in E1, E2.
  split; [lia|]. split; [lia|]. split; [lia|]. intros; lia.
Qed.

(** C5.  When [sendRawTransaction] has accepted the submission, the
    cached nonce hint of the sender is [nonce + 1] and the table has one
    more row: the transaction with status ['unconfirmed'] and with
    [sender_token_id] the identity of the client that made the request,
    whatever the sender address is. *)
Theorem accepted_submission_is_recorded
    user raw signature st tx from_addr tx_hash :
  reaches_balance_check env raw signature st tx from_addr ->
  cost tx <= available node from_addr st ->
  tx_nonce tx = required_nonce node from_addr st ->
  eth_sendRawTransaction node (S (S (clock st))) tx = inl tx_hash ->
  let st' := (send_transaction env node user raw signature st).1 in
  nonce_hint st' !! from_addr = Some (tx_nonce tx + 1) /\
  transactions st' = transactions st ++
    [ {| transaction_hash := tx_hash; from_address := from_addr;
         to_address := tx_to tx; nonce := tx_nonce tx; value := tx_value tx;
         estimated_gas_cost := tx_startgas tx * tx_gasprice tx;
         sender_token_id := user; last_status := Some "unconfirmed" |} ] /\
  sender_token_id <$> last (transactions st') = Some user /\
  SendRaw tx ∈ events st'.
Proof.
  intros Hreach Hc Hn Hsend st'. subst st'.
  rewrite (send_transaction_locked user raw signature st tx from_addr Hreach).
  destruct Hreach as (tx0 & _ & _ & _ & _ & He).
  cbn zeta. rewrite (locked_section_checked user tx from_addr (tx_to tx) st _ He Hc).
  cbn zeta. rewrite <- Hn, Z.ltb_irrefl, Hsend.
  assert (forall (l : list Event), SendRaw tx ∈ (l ++ [SendRaw tx])) as Hin
    by (intros; set_solver).
  destruct (has_monitor env); [destruct (String.eqb _ _)|]; simpl;
    rewrite lookup_insert_eq, last_snoc; repeat split; try done.
  apply elem_of_app. left. apply Hin.
Qed.

End Intake.

Lemma sample_reaches_balance_check (n : Z) (raw : string) (hints : gmap string Z) :
  Sample.decode raw = Some (Sample.transfer n) ->
  reaches_balance_check Sample.intake_env raw None (Sample.intake [] hints)
    (Sample.transfer n) "0xaa".
Proof.
  intros Hd. exists (Sample.transfer n).
  split; [exact Hd|]. split; [reflexivity|]. split; [reflexivity|].
  split; [apply not_elem_of_empty | reflexivity].
Defined.

(** C3 at a submission with nonce 2 while the cached hint is 1 and the
    chain has counted 0 transactions: "too high". *)
Lemma nonce_must_be_current_witness :
  let node := Sample.node 1000000 0 in
  let st := Sample.intake [] {["0xaa" := 1]} in
  reaches_balance_check Sample.intake_env "0xf802" None st (Sample.transfer 2) "0xaa" /\
  cost (Sample.transfer 2) <= available node "0xaa" st /\
  required_nonce node "0xaa" st = 1 /\
  (send_transaction Sample.intake_env node None "0xf802" None st).2
    = inr (JsonRPCInvalidParamsError "invalid_nonce" "Provided nonce is too high").
Proof.
  intros node st.
  assert (reaches_balance_check Sample.intake_env "0xf802" None st (Sample.transfer 2) "0xaa")
    as H1 by (by apply sample_reaches_balance_check).
  assert (cost (Sample.transfer 2) <= available node "0xaa" st) as H2
    by (vm_compute; discriminate).
  assert (required_nonce node "0xaa" st = 1) as H3 by (vm_compute; reflexivity).
  repeat (split; [assumption|]).
  apply (nonce_must_be_current Sample.intake_env node None "0xf802" None st
           (Sample.transfer 2) "0xaa" H1 H2).
  rewrite H3. reflexivity.
Defined.

(** C5 at a transfer of ["0xaa"] submitted by the client ["0xcc"]: the row
    names ["0xcc"] as [sender_token_id] and ["0xaa"] as [from_address]. *)
Lemma accepted_submission_is_recorded_witness :
  let node := Sample.node 1000000 0 in
  let st := Sample.intake [] ∅ in
  let st' := (send_transaction Sample.intake_env node (Some "0xcc") "0xf800" None st).1 in
  reaches_balance_check Sample.intake_env "0xf800" None st (Sample.transfer 0) "0xaa" /\
  cost (Sample.transfer 0) <= available node "0xaa" st /\
  tx_nonce (Sample.transfer 0) = required_nonce node "0xaa" st /\
  nonce_hint st' !! "0xaa" = Some 1 /\
  transactions st' =
    [ {| transaction_hash := "0xhash"; from_address := "0xaa"; to_address := "0xbb";
         nonce := 0; value := 5; estimated_gas_cost := 105000;
         sender_token_id := Some "0xcc"; last_status := Some "unconfirmed" |} ].
Proof.
  intros node st st'.
  assert (reaches_balance_check Sample.intake_env "0xf800" None st (Sample.transfer 0) "0xaa")
    as H1 by (by apply sample_reaches_balance_check).
  assert (cost (Sample.transfer 0) <= available node "0xaa" st) as H2
    by (vm_compute; discriminate).
  assert (tx_nonce (Sample.transfer 0) = required_nonce node "0xaa" st) as H3
    by (vm_compute; reflexivity).
  repeat (split; [assumption|]).
  destruct (accepted_submission_is_recorded Sample.intake_env node (Some "0xcc") "0xf800"
              None st (Sample.transfer 0) "0xaa" "0xhash" H1 H2 H3 eq_refl)
    as (Hhint & Hrows & _).
  split; [exact Hhint | exact Hrows].
Defined.

(** C4 as stated fails: a submission whose cost (105005) exceeds the
    sender's balance, but whose sender and nonce are those of a known row,
    is rejected with [invalid_nonce], not with [insufficient_funds]. *)
Lemma insufficient_funds_rejection_counterexample :
  let node := Sample.node 0 0 in
  let st := Sample.intake [Sample.earlier_transfer] ∅ in
  let res := send_transaction Sample.intake_env node None "0xf800" None st in
  Sample.decode "0xf800" = Some (Sample.transfer 0) /\
  available node "0xaa" st < cost (Sample.transfer 0) /\
  res.2 = inr (JsonRPCInvalidParamsError "invalid_nonce" "Nonce already used") /\
  res.2 <> inr insufficient_funds.
Proof.
  split; [reflexivity|]. split; [vm_compute; reflexivity|].
  assert ((send_transaction Sample.intake_env (Sample.node 0 0) None "0xf800" None
             (Sample.intake [Sample.earlier_transfer] ∅)).2
          = inr (JsonRPCInvalidParamsError "invalid_nonce" "Nonce already used")) as H
    by (vm_compute; reflexivity).
  split; [exact H|]. rewrite H. discriminate.
Qed.

End IntakeProofs.

(** * Further properties of the status updates *)

Module UpdateFacts.
Import Manager ManagerProofs QueueProofs ManagerFacts.

Lemma emits_refl Q st : emits Q st st.
Proof. exists []. by rewrite app_nil_r. Qed.

Lemma emits_trans Q st1 st2 st3 : emits Q st1 st2 -> emits Q st2 st3 -> emits Q st1 st3.
Proof.
  intros (n1 & H1 & F1) (n2 & H2 & F2). exists (n1 ++ n2).
  split; [by rewrite H2, H1, app_assoc | by apply Forall_app].
Qed.

Lemma emits_emit (Q : Event -> Prop) e st : Q e -> emits Q st (emit e st).
Proof. intros H. exists [e]. split; [done | by constructor]. Qed.

Lemma emits_same_events Q st st' : events st' = events st -> emits Q st st'.
Proof. intros H. exists []. by rewrite app_nil_r. Qed.


Lemma shown_confirmed status : shown status = "confirmed" -> status = "confirmed".
Proof. unfold shown. by destruct (String.eqb status "queued"). Qed.

Lemma shown_not_queued status : String.eqb status "queued" = false -> shown status = status.
Proof. unfold shown. by intros ->. Qed.

Section Update.

Context (env : Env) (node : Node).

Lemma log_matches_sound from_addr to_addr lg :
  log_matches env from_addr to_addr lg = Some true ->
  matching_log env from_addr to_addr lg.
Proof.
  unfold log_matches, matching_log.
  destruct (2 <? length (topics lg))%nat eqn:Elen.
  - apply Nat.ltb_lt in Elen.
    destruct (topics lg !! 0%nat) as [t0|]; [|done].
    destruct (topics lg !! 1%nat) as [t1|]; [|done].
    destruct (topics lg !! 2%nat) as [t2|]; [|done]. simpl.
    intros [= H]. apply andb_true_iff in H as [H H3].
    apply andb_true_iff in H as [H1 H2].
    apply String.eqb_eq in H1, H2, H3. left.
    split; [done|]. split; [by rewrite H1|]. by rewrite H2, H3.
  - apply Nat.ltb_ge in Elen.
    destruct (String.eqb (address lg) (WETH_CONTRACT_ADDRESS env)) eqn:Ea; [|done].
    apply String.eqb_eq in Ea.
    destruct (topics lg !! 0%nat) as [t0|]; [|done]. simpl.
    destruct (String.eqb t0 (DEPOSIT_TOPIC env)) eqn:Ed.
    + apply String.eqb_eq in Ed.
      destruct (topics lg !! 1%nat) as [t1|]; [|done]. simpl.
      destruct (String.eqb (decode_single_address env t1) to_addr) eqn:Et.
      * apply String.eqb_eq in Et. intros _. right.
        split; [done|]. split; [done|]. left. split; [by rewrite Ed | simpl; by rewrite Et].
      * destruct (String.eqb t0 (WITHDRAWAL_TOPIC env)) eqn:Ew; [|done].
        apply String.eqb_eq in Ew. simpl. intros [= Hf]. apply String.eqb_eq in Hf.
        right. split; [done|]. split; [done|]. right.
        split; [by rewrite Ew | simpl; by rewrite Hf].
    + simpl. destruct (String.eqb t0 (WITHDRAWAL_TOPIC env)) eqn:Ew; [|done].
      apply String.eqb_eq in Ew.
      destruct (topics lg !! 1%nat) as [t1|]; [|done]. simpl.
      intros [= Hf]. apply String.eqb_eq in Hf.
      right. split; [done|]. split; [done|]. right.
        split; [by rewrite Ew | simpl; by rewrite Hf].
Qed.

Lemma has_transfer_event_sound from_addr to_addr lgs :
  has_transfer_event env from_addr to_addr lgs = Some true ->
  exists lg, lg ∈ lgs /\ matching_log env from_addr to_addr lg.
Proof.
  induction lgs as [|lg rest IH]; simpl; [done|].
  destruct (log_matches env from_addr to_addr lg) as [[|]|] eqn:El; [| |done].
  - intros _. exists lg. split; [by left | by apply log_matches_sound].
  - intros H. destruct (IH H) as (lg' & Hin & Hm). exists lg'. split; [by right | done].
Qed.

Lemma notifications_for_events id status tx tks tx_status messages :
  Forall (message_of env node status tx tks) messages ->
  Forall (update_event env node id status tx tks) (notifications_for tx_status messages).
Proof.
  induction 1 as [|m rest Hm _ IH]; simpl; [constructor|].
  constructor.
  { exists m. split; [done|]. split; [done|]. by left. }
  destruct (String.eqb (m_to m) "0x") eqn:E0; [constructor|].
  apply String.eqb_neq in E0.
  assert (update_event env node id status tx tks (Notify (m_to m) (m_message m))) as Hto.
  { exists m. split; [done|]. split; [done|]. by right. }
  apply Forall_app. split.
  - destruct (String.eqb tx_status "new"); [destruct (negb _)|]; by repeat constructor.
  - constructor; [by split | exact IH].
Qed.

Lemma dispatch_messages_emits id status tx tks tx_status messages st :
  Forall (message_of env node status tx tks) messages ->
  emits (update_event env node id status tx tks) st
    (dispatch_messages tx_status messages st).
Proof.
  intros H. exists (notifications_for tx_status messages).
  split; [apply dispatch_messages_events | by apply notifications_for_events].
Qed.

Lemma token_step_emits id status tx tks receipt bn token_tx st messages st' messages' :
  token_tx ∈ tks ->
  Forall (message_of env node status tx tks) messages ->
  (shown status = "confirmed" ->
   exists moment, receipt = eth_getTransactionReceipt node moment (hash tx)) ->
  token_step env tx (shown status) receipt bn token_tx st messages = Some (st', messages') ->
  Forall (message_of env node status tx tks) messages' /\
  emits (update_event env node id status tx tks) st st'.
Proof.
  intros Hin Hmsgs Hreceipt. unfold token_step.
  assert (forall ms,
    Forall (message_of env node status tx tks) ms ->
    Forall (message_of env node status tx tks)
      (if String.eqb (tk_contract_address token_tx) (WETH_CONTRACT_ADDRESS env)
          && (String.eqb (tk_from_address token_tx) ZERO_ADDRESS
              || String.eqb (tk_to_address token_tx) ZERO_ADDRESS)
       then ms ++ [ {| m_from := tk_from_address token_tx; m_to := tk_to_address token_tx;
                       m_status := shown status;
                       m_message := Payment (parse_int env (tk_value token_tx))
                                      (hash tx) (shown status)
                                      (tk_from_address token_tx)
                                      (tk_to_address token_tx) |} ]
       else ms)) as Hweth.
  { intros ms Hms. destruct (_ && _); [|done].
    apply Forall_app. split; [done|]. by repeat constructor. }
  destruct (String.eqb (shown status) "confirmed") eqn:Ec.
  - pose proof (proj1 (String.eqb_eq _ _) Ec) as Ec'.
    destruct (Hreceipt Ec') as [moment ->].
    pose proof (shown_confirmed _ Ec') as Hs.
    destruct (eth_getTransactionReceipt node moment (hash tx)) as [[[lgs|]]|] eqn:Er.
    + destruct (has_transfer_event env (tk_from_address token_tx)
                  (tk_to_address token_tx) lgs) as [[|]|] eqn:Eh; [| |done].
      * (* the transfer is in the receipt *)
        apply has_transfer_event_sound in Eh as (lg & Hlg & Hm).
        assert (transfer_shown env node (hash tx) (tk_from_address token_tx)
                  (tk_to_address token_tx)) as Hshown.
        { exists moment, {| logs := Some lgs |}, lgs, lg. by repeat split. }
        simpl. rewrite Ec. simpl. intros [= <- <-]. split.
        -- apply Hweth. apply Forall_app. split; [done|].
           constructor; [|constructor]. simpl.
           repeat split; try done. by exists token_tx.
        -- eexists [_]. split; [simpl; reflexivity|].
           constructor; [|constructor]. simpl. by split.
      * simpl. intros [= <- <-]. split; [by apply Hweth|by apply emits_same_events].
    + simpl. intros [= <- <-]. split; [by apply Hweth|by apply emits_same_events].
    + simpl. intros [= <- <-]. split; [by apply Hweth|by apply emits_same_events].
  - simpl. rewrite Ec. intros [= <- <-].
    split; [by apply Hweth|by apply emits_same_events].
Qed.

Lemma token_loop_emits id status tx tks receipt bn rest st messages :
  (forall x, x ∈ rest -> x ∈ tks) ->
  Forall (message_of env node status tx tks) messages ->
  (shown status = "confirmed" ->
   exists moment, receipt = eth_getTransactionReceipt node moment (hash tx)) ->
  let res := token_loop env tx (shown status) receipt bn rest st messages in
  emits (update_event env node id status tx tks) st res.1 /\
  (forall messages', res.2 = Some messages' ->
     Forall (message_of env node status tx tks) messages').
Proof.
  revert st messages. induction rest as [|t rest IH]; intros st messages Hsub Hm Hr; simpl.
  - split; [apply emits_refl|]. by intros ? [= <-].
  - destruct (token_step env tx (shown status) receipt bn t st messages)
      as [[st1 m1]|] eqn:Es.
    + destruct (token_step_emits id status tx tks receipt bn t st messages st1 m1)
        as [Hm1 He1]; try done.
      { apply Hsub. by left. }
      destruct (IH st1 m1) as [He2 Hm2]; try done.
      { intros x Hx. apply Hsub. by right. }
      split; [by eapply emits_trans | done].
    + split; [apply emits_refl | done].
Qed.

Lemma render_notification_emits id tx tks status bn st :
  emits (update_event env node id status tx tks) st
    (render_notification env node id tx tks status bn st).1.
Proof.
  unfold render_notification.
  assert ((if String.eqb status "queued" then Some "unconfirmed"
           else if String.eqb status "unconfirmed" && String.eqb (Manager.status tx) "queued"
                then None else Some status)
          = if String.eqb status "unconfirmed" && String.eqb (Manager.status tx) "queued"
               && negb (String.eqb status "queued")
            then None else Some (shown status)) as ->.
  { unfold shown. destruct (String.eqb status "queued") eqn:Eq; [|by destruct (_ && _)].
    by rewrite andb_false_r. }
  destruct (_ && _ && _); [apply emits_refl|].
  destruct tks as [|t rest].
  { apply dispatch_messages_emits. by repeat constructor. }
  remember (t :: rest) as tks eqn:Htks. clear Htks t rest.
  destruct (String.eqb (shown status) "confirmed") eqn:Ec; cbn [andb negb].
  - destruct (bool_decide _); cbn [negb].
    + destruct (token_loop_emits id status tx tks
                  (eth_getTransactionReceipt node (clock st) (hash tx)) bn tks (tick st) [])
        as [He Hm]; try done.
      { intros _. by eexists. }
      destruct (token_loop _ _ _ _ _ _ _ _) as [st1 [ms|]]; cbn [fst snd] in *.
      * apply (emits_trans _ _ (tick st)); [by apply emits_same_events|].
        eapply emits_trans; [exact He|]. apply dispatch_messages_emits. by apply Hm.
      * apply (emits_trans _ _ (tick st)); [by apply emits_same_events|]. exact He.
    + apply (emits_trans _ _ (tick st)); [by apply emits_same_events|].
      apply emits_emit. simpl. apply String.eqb_eq in Ec.
      split; [done|]. split; [done|]. by apply shown_confirmed.
  - destruct (token_loop_emits id status tx tks None bn tks st []) as [He Hm]; try done.
    { intros Hc. rewrite Hc in Ec. done. }
    destruct (token_loop _ _ _ _ _ _ _ _) as [st1 [ms|]]; cbn [fst snd] in *; [|done].
    eapply emits_trans; [exact He|]. apply dispatch_messages_emits. by apply Hm.
Qed.

(** Every event of an update is of the kinds [update_event] lists. *)
Lemma update_transaction_emits id status retry st :
  match fetch_by_id id (transactions st) with
  | None => (update_transaction env node id status retry st).1 = st
  | Some tx =>
      emits (update_event env node id status tx (fetch_token_txs id st)) st
        (update_transaction env node id status retry st).1
  end.
Proof.
  rewrite update_transaction_state. unfold update_transaction_body.
  destruct (fetch_by_id id (transactions st)) as [tx|]; [|done].
  destruct (String.eqb (Manager.status tx) status); [apply emits_refl|].
  destruct (String.eqb (Manager.status tx) "confirmed"); [apply emits_refl|].
  destruct (String.eqb status "confirmed") eqn:Ec.
  - apply String.eqb_eq in Ec.
    assert (forall st0 : State, events st0 = events st ->
      emits (update_event env node id status tx (fetch_token_txs id st)) st
        (let '(st1, too_late) :=
           if 0 <? retry
           then (tick st0, 60 <=? time_time node (clock st0) - retry)
           else (st0, false) in
         if too_late then (st1, Returned)
         else
           let st2 := emit Sleep st1 in
           let '(st3, start) :=
             if negb (retry =? 0) then (st2, retry)
             else (tick st2, time_time node (clock st2)) in
           (emit (UpdateTransactionTask id status start) st3, Returned)).1) as Hwait.
    { intros st0 H0.
      destruct (0 <? retry); [destruct (60 <=? _); [by apply emits_same_events|]|];
        (destruct (negb (retry =? 0)); cbn [fst snd];
         eexists [Sleep; UpdateTransactionTask _ _ _];
         (split; [simpl; by rewrite H0, <- app_assoc
                 | constructor; [simpl; done | constructor; [simpl; done | constructor]]])). }
    destruct (eth_getTransactionByHash node (clock st) (hash tx)) as [[[bn|]]|].
    + eapply emits_trans; [|apply render_notification_emits].
      apply emits_same_events. simpl. by destruct (0 <? retry).
    + by apply Hwait.
    + by apply Hwait.
  - eapply emits_trans; [|apply render_notification_emits].
    by apply emits_same_events.
Qed.

Lemma same_payload_refl t : same_payload t t.
Proof. by repeat split. Qed.




(** X2.  An update to a status other than ['confirmed'] is idempotent: a
    second call with the same id and status returns at once, with no further
    change of the tables and no further notification or task. *)
Theorem update_transaction_twice id status retry retry' st :
  status <> "confirmed" ->
  update_transaction env node id status retry'
    (update_transaction env node id status retry st).1
  = ((update_transaction env node id status retry st).1, Returned).
Proof.
  intros Hs.
  assert (forall (r0 : Z) (st0 : State),
    (fetch_by_id id (transactions st0) = None \/
     exists tx, fetch_by_id id (transactions st0) = Some tx /\
                (Manager.status tx = status \/ Manager.status tx = "confirmed")) ->
    update_transaction env node id status r0 st0 = (st0, Returned)) as Hnoop.
  { intros r0 st0 H. unfold update_transaction, log_unhandled_exceptions,
      update_transaction_body.
    destruct H as [->|(tx & -> & [H|H])].
    - by destruct (log_unhandled_exceptions_reraises env).
    - apply String.eqb_eq in H. rewrite H.
      by destruct (log_unhandled_exceptions_reraises env).
    - apply String.eqb_eq in H. rewrite H.
      destruct (String.eqb (Manager.status tx) status);
        by destruct (log_unhandled_exceptions_reraises env). }
  destruct (fetch_by_id id (transactions st)) as [tx|] eqn:Hf.
  - destruct (decide (Manager.status tx = status)) as [He|He];
      [|destruct (decide (Manager.status tx = "confirmed")) as [Hc|Hc]].
    + rewrite (Hnoop retry st); [apply Hnoop|]; right; exists tx; by split; [|left].
    + rewrite (Hnoop retry st); [apply Hnoop|]; right; exists tx; by split; [|right].
    + destruct (update_transaction_pending env node id status retry st tx Hf He Hc Hs)
        as (new & _ & Ht & _).
      apply Hnoop. right. exists (with_status status None tx).
      split; [|by left]. rewrite Ht, fetch_by_id_update, Hf. simpl.
      by rewrite Z.eqb_refl.
  - rewrite (Hnoop retry st); [apply Hnoop|]; by left.
Qed.

(** X3.  A row is stored as ['confirmed'] only on the node's word: when the
    node reports a block number for the row's hash, the rows with this id
    hold ['confirmed'] and that number; when it does not, the tables are as
    before, nobody is notified, and the update is either dropped or
    dispatched again after a sleep, with the start time of the first try. *)
Theorem confirmation_needs_block id retry st tx :
  fetch_by_id id (transactions st) = Some tx ->
  Manager.status tx <> "confirmed" ->
  let st' := (update_transaction env node id "confirmed" retry st).1 in
  match eth_getTransactionByHash node (clock st) (hash tx) with
  | Some {| blockNumber := Some bn |} =>
      transactions st' =
      sql_update_status id "confirmed" (Some (parse_int env (Some bn))) (transactions st)
  | _ =>
      transactions st' = transactions st /\
      token_transactions st' = token_transactions st /\
      (events st' = events st \/
       exists start,
         events st' = events st ++ [Sleep; UpdateTransactionTask id "confirmed" start] /\
         (retry <> 0 -> start = retry))
  end.
Proof.
  intros Hf Hc st'. subst st'. rewrite update_transaction_state.
  unfold update_transaction_body. rewrite Hf.
  rewrite (eqb_false _ _ Hc). simpl.
  assert (forall st0 : State,
    transactions st0 = transactions st -> token_transactions st0 = token_transactions st ->
    events st0 = events st ->
    let st' :=
      (let '(st1, too_late) :=
         if 0 <? retry
         then (tick st0, 60 <=? time_time node (clock st0) - retry)
         else (st0, false) in
       if too_late then (st1, Returned)
       else
         let st2 := emit Sleep st1 in
         let '(st3, start) :=
           if negb (retry =? 0) then (st2, retry)
           else (tick st2, time_time node (clock st2)) in
         (emit (UpdateTransactionTask id "confirmed" start) st3, Returned)).1 in
    transactions st' = transactions st /\
    token_transactions st' = token_transactions st /\
    (events st' = events st \/
     exists start,
       events st' = events st ++ [Sleep; UpdateTransactionTask id "confirmed" start] /\
       (retry <> 0 -> start = retry))) as Hwait.
  { intros st0 H1 H2 H3.
    destruct (0 <? retry); [destruct (60 <=? _); [by repeat split; [| |left]|]|];
      (destruct (retry =? 0) eqn:E0; cbn [negb fst snd];
       (split; [done|]; split; [done|]; right; eexists;
        split; [simpl; by rewrite H3, <- app_assoc|]);
       [apply Z.eqb_eq in E0; by intros ? | done]). }
  destruct (eth_getTransactionByHash node (clock st) (hash tx)) as [[[bn|]]|].
  - match goal with |- context [render_notification _ _ _ _ _ _ ?b ?s] =>
      pose proof (render_notification_frame env node id tx (fetch_token_txs id st)
                    "confirmed" b s) as [_ Ht]
    end.
    rewrite Ht. by destruct (0 <? retry).
  - by apply Hwait.
  - by apply Hwait.
Qed.


(** X5.  What an update dispatches: never a raw transaction; notifications
    that show the requested status (['queued'] shown as ['unconfirmed']);
    queue passes without delay and never for the contract-deployment address
    ["0x"]; a retry of itself, a sleep or a token cache update only when the
    requested status is ['confirmed']. *)
Theorem update_transaction_event_kinds id status retry st :
  exists new,
    events (update_transaction env node id status retry st).1 = events st ++ new /\
    Forall (update_event_kind id status) new.
Proof.
  pose proof (update_transaction_emits id status retry st) as H.
  destruct (fetch_by_id id (transactions st)) as [tx|].
  - destruct H as (new & Hev & Hall). exists new. split; [done|].
    eapply Forall_impl; [exact Hall|].
    intros e He. destruct e as [| a m | | | | |]; try done.
    + destruct He as (msg & Hm & -> & _). unfold message_of in Hm. simpl.
      destruct (m_message msg); simpl.
      * by destruct Hm as (_ & -> & _).
      * destruct Hm as (_ & -> & -> & _). done.
    + by destruct He.
  - rewrite H. exists []. by rewrite app_nil_r.
Qed.

End Update.

(** X2 at a new payment: the second request for ['queued'] changes nothing. *)
Lemma update_transaction_twice_witness :
  "queued" <> "confirmed" /\
  update_transaction Sample.env (Sample.node 0 0) 1 "queued" 0
    (update_transaction Sample.env (Sample.node 0 0) 1 "queued" 0
       (Sample.one_payment "new")).1
  = ((update_transaction Sample.env (Sample.node 0 0) 1 "queued" 0
        (Sample.one_payment "new")).1, Returned).
Proof.
  assert ("queued" <> "confirmed") as H by discriminate.
  split; [exact H|].
  exact (update_transaction_twice Sample.env (Sample.node 0 0) 1 "queued" 0 0
           (Sample.one_payment "new") H).
Defined.

(** X3 on a node that knows no transaction: the payment stays as it was
    and the update is dispatched again. *)
Lemma confirmation_needs_block_witness :
  let st := Sample.one_payment "unconfirmed" in
  let st' := (update_transaction Sample.env (Sample.node 0 0) 1 "confirmed" 0 st).1 in
  transactions st' = transactions st /\
  token_transactions st' = token_transactions st /\
  (events st' = events st \/
   exists start,
     events st' = events st ++ [Sleep; UpdateTransactionTask 1 "confirmed" start] /\
     (0 <> 0 -> start = 0)).
Proof.
  exact (confirmation_needs_block Sample.env (Sample.node 0 0) 1 0
           (Sample.one_payment "unconfirmed")
           (Sample.row 1 "0xh1" "0xbb" 0 "5" "5" "1" "unconfirmed")
           eq_refl ltac:(discriminate)).
Defined.


End UpdateFacts.

(** * Further properties of a pass over the queue *)

Module PassFacts.
Import Manager ManagerProofs QueueProofs ManagerFacts UpdateFacts.

Section Pass.

Context (env : Env) (node : Node).


Lemma pass_steps_mono a Q Q' st st' :
  (forall t, t ∈ Q -> t ∈ Q') -> pass_steps env node a Q st st' -> pass_steps env node a Q' st st'.
Proof.
  intros HQ H. induction H.
  - apply pass_start.
  - by apply pass_tick.
  - by apply pass_request.
  - apply pass_send; auto.
  - apply pass_update; auto.
Qed.
















(** ** What the steps of a pass change *)










(** ** The order of the raw transactions *)

Lemma ascending_app l1 l2 :
  ascending l1 -> ascending l2 ->
  (forall x y, x ∈ l1 -> y ∈ l2 -> x <= y) -> ascending (l1 ++ l2).
Proof.
  induction l1 as [|x l1 IH]; intros H1 H2 H12; [done|].
  destruct H1 as [Hx H1]. simpl. split.
  - apply Forall_app. split; [done|]. apply Forall_forall. intros y Hy.
    apply H12; [by left | done].
  - apply IH; [done|done|]. intros a b Ha Hb. apply H12; [by right | done].
Qed.

Lemma ascending_snoc l x :
  ascending (l ++ [x]) -> ascending l /\ Forall (fun y => y <= x) l.
Proof.
  induction l as [|y l IH]; simpl; [done|].
  intros [Hy Hl]. apply Forall_app in Hy as [Hy Hx].
  destruct (IH Hl) as [Hl' Hx']. repeat split; [done|done|].
  constructor; [by inversion Hx | done].
Qed.

Lemma ascending_constant (c : Z) l : Forall (fun y => y = c) l -> ascending l.
Proof.
  induction 1 as [|y l -> Hl IH]; simpl; [done|]. split; [|done].
  eapply Forall_impl; [exact Hl|]. intros z ->. lia.
Qed.

Lemma insert_by_ascending {A} (key : A -> Z) x l :
  ascending (key <$> l) -> ascending (key <$> insert_by key x l).
Proof.
  induction l as [|y l IH]; simpl; [done|]. intros [Hy Hl].
  destruct (key x <=? key y) eqn:E.
  - apply Z.leb_le in E. simpl. repeat split; [|done|done].
    constructor; [done|]. eapply Forall_impl; [exact Hy|]. intros z Hz. simpl in Hz. lia.
  - apply Z.leb_gt in E. simpl. split; [|by apply IH].
    apply Forall_forall. intros z Hz. apply list_elem_of_fmap in Hz as (w & -> & Hw).
    apply elem_of_insert_by in Hw as [->|Hw]; [lia|].
    rewrite Forall_forall in Hy. apply Hy. apply list_elem_of_fmap. by exists w.
Qed.

Lemma order_by_ascending {A} (key : A -> Z) l : ascending (key <$> order_by key l).
Proof.
  unfold order_by. induction l as [|x l IH]; simpl; [done|]. by apply insert_by_ascending.
Qed.

Lemma signed_by_nonce t a tx : signed_by env [t] a tx -> tx_nonce tx = nonce t.
Proof.
  intros [_ (t' & v & g & p & Hin & ->)]. by apply list_elem_of_singleton in Hin as ->.
Qed.

Lemma queue_loop_order a nn fuel l st :
  ascending ((fun t => - nonce t) <$> transactions_out l) ->
  (length (transactions_out l) <= fuel)%nat ->
  exists st' new,
    loop_end_state (queue_loop env node fuel a nn l st) = Some st' /\
    sent (events st') = sent (events st) ++ new /\
    ascending (tx_nonce <$> new) /\
    Forall (fun tx => exists t, t ∈ transactions_out l /\ tx_nonce tx = nonce t) new.
Proof.
  revert l st. induction fuel as [|fuel IH]; intros l st Hasc Hlen.
  - destruct (transactions_out l) as [|x q] eqn:E; [|simpl in Hlen; lia].
    simpl. rewrite E. simpl. exists st, []. by rewrite app_nil_r.
  - simpl. destruct (pop (transactions_out l)) as [[t rest]|] eqn:Hp.
    + apply pop_Some in Hp. rewrite Hp, fmap_app in Hasc. simpl in Hasc.
      apply ascending_snoc in Hasc as [Hrest Hle].
      pose proof (process_candidate_good env node [t] a nn (with_queue rest l) t st)
        as [[_ (new1 & Hn1 & Hs1)] Hq]; [by left|].
      assert (Forall (fun y => y = nonce t) (tx_nonce <$> new1)) as Hc1.
      { apply Forall_fmap. eapply Forall_impl; [exact Hs1|].
        intros tx Htx. by apply (signed_by_nonce t a). }
      assert (Forall (fun tx => exists t0, t0 ∈ transactions_out l /\
                                           tx_nonce tx = nonce t0) new1) as Hf1.
      { eapply Forall_impl; [exact Hs1|]. intros tx Htx. exists t.
        split; [|by apply (signed_by_nonce t a)].
        rewrite Hp. apply elem_of_app. right. by left. }
      destruct (process_candidate env node a nn t (with_queue rest l) st)
        as [l' st'|l' st'|st'|st']; simpl in Hn1, Hq;
        try (exists st', new1; repeat split; try done; by eapply ascending_constant).
      assert (forall x, x ∈ transactions_out l' -> x ∈ rest) as Hsub.
      { intros x Hx. destruct Hq as [Hq|Hq]; rewrite Hq in Hx;
          [done | by apply elem_of_nil in Hx]. }
      destruct (IH l' st') as (st2 & new2 & He & Hn2 & Ha2 & Hf2).
      * destruct Hq as [Hq|Hq]; rewrite Hq; [exact Hrest | done].
      * rewrite Hp, length_app in Hlen. simpl in Hlen.
        destruct Hq as [Hq|Hq]; rewrite Hq; simpl; lia.
      * exists st2, (new1 ++ new2). split; [done|].
        split; [by rewrite Hn2, Hn1, app_assoc|]. split.
        -- rewrite fmap_app. apply ascending_app; [by eapply ascending_constant|done|].
           intros x y Hx Hy. rewrite Forall_forall in Hc1. rewrite (Hc1 x Hx).
           apply list_elem_of_fmap in Hy as (tx & -> & Htx).
           rewrite Forall_forall in Hf2. destruct (Hf2 tx Htx) as (t0 & Ht0 & ->).
           rewrite Forall_forall in Hle.
           assert (- nonce t0 <= - nonce t) as H.
           { apply Hle. apply list_elem_of_fmap. exists t0. split; [done|]. by apply Hsub. }
           lia.
        -- apply Forall_app. split; [done|].
           eapply Forall_impl; [exact Hf2|]. intros tx (t0 & Ht0 & Hn). exists t0.
           split; [|done]. rewrite Hp. apply elem_of_app. left. by apply Hsub.
    + exists st, []. by rewrite app_nil_r.
Qed.

(** X8.  The raw transactions of one pass reach the node in the order of
    their nonces: no transaction is handed over after one with a higher
    nonce. *)
Theorem pass_sends_in_nonce_order a st :
  exists st' o new,
    _process_transaction_queue env node a st = Some (st', o) /\
    sent (events st') = sent (events st) ++ new /\
    ascending (tx_nonce <$> new).
Proof.
  unfold _process_transaction_queue, process_transaction_queue_pass_fuel.
  set (Q := fetch_transactions_out a st).
  assert (ascending ((fun t => - nonce t) <$> Q)) as HQ.
  { subst Q. unfold fetch_transactions_out, order_by_desc. apply order_by_ascending. }
  destruct Q as [|q0 qs] eqn:EQ.
  { exists st, Returned, []. by rewrite app_nil_r. }
  rewrite <- EQ. rewrite <- EQ in HQ.
  destruct (start_loop env node a Q st) as [[[nn l] st1]|] eqn:Es.
  - apply start_loop_spec in Es as [Hq ->].
    destruct (queue_loop_order a nn (length Q) l (tick (tick st)))
      as (st2 & new & He & Hn & Ha & _).
    { by rewrite Hq. }
    { by rewrite Hq. }
    destruct (queue_loop env node (length Q) a nn l (tick (tick st)))
      as [l2 st2'|st2'|st2'|]; simpl in He; try done; injection He as ->.
    + eexists _, _, new. split; [done|]. split; [|done].
      destruct (finish_pass_frame a l2 st2) as [(_ & _ & _ & Hs) _]. by rewrite Hs.
    + by eexists _, _, new.
    + by eexists _, _, new.
  - eexists _, _, []. split; [done|]. by rewrite app_nil_r.
Qed.

(** ** The working balance *)

Lemma call_update_case (P : control -> Prop) id status st k :
  (forall st', quiet st st' -> P (k st')) ->
  (forall st', quiet st st' -> P (Raise st')) ->
  P (call_update env node id status st k).
Proof.
  intros Hk Hr. unfold call_update.
  pose proof (update_transaction_quiet env node id status 0 st) as Hq.
  destruct (update_transaction env node id status 0 st) as [st' [|]]; simpl in Hq; auto.
Qed.

Lemma fail_and_continue_budget t l st0 st :
  quiet st0 st -> within_budget env t l st0 (fail_and_continue env node t l st).
Proof.
  intros H0. unfold fail_and_continue. apply call_update_case; intros st' Hq; left;
    (split; [by eapply quiet_trans|done]).
Qed.

Lemma mark_queued_and_break_budget t l l1 st0 st :
  quiet st0 st -> within_budget env t l st0 (mark_queued_and_break env node t l1 st).
Proof.
  intros H0. unfold mark_queued_and_break. rewrite mark_queued_update_all.
  left. split; [|done]. simpl. eapply quiet_trans; [exact H0|]. apply update_all_quiet.
Qed.

Lemma cost_of_parsed t v g p :
  parse_int env (value t) = Some v -> parse_int env (gas t) = Some g ->
  parse_int env (gas_price t) = Some p -> cost_of env t = Some (v + g * p).
Proof. intros Hv Hg Hp. unfold cost_of. by rewrite Hv, Hg, Hp. Qed.

Lemma send_budget t v g p l st :
  v + g * p <= balance l -> cost_of env t = Some (v + g * p) ->
  within_budget env t l st (send env node t (rebuild env t v g p) (v + g * p) l st).
Proof.
  intros Hle Hc. unfold send.
  assert (forall st', quiet (tick (emit (SendRaw (rebuild env t v g p)) st)) st' ->
          sent (events st') = sent (events st) ++ [rebuild env t v g p]) as Hsent.
  { intros st' (_ & _ & _ & Hs). rewrite Hs. simpl. by rewrite sent_app. }
  destruct (eth_sendRawTransaction node (clock st) _) as [h|e].
  - apply call_update_case; intros st' Hq; right; exists v, g, p;
      (split; [by apply Hsent|]); (split; [done|]); (split; [done|]); [by right | done].
  - destruct (already_known e); cbn [fst snd].
    + destruct (eth_getTransactionByHash node _ (hash t)) as [ex|];
        apply call_update_case; intros st' Hq; right; exists v, g, p;
          (split; [apply Hsent; by eapply quiet_trans; [apply quiet_tick|]|]);
          (split; [done|]); (split; [done|]); try done; by left.
    + apply call_update_case; intros st' Hq; right; exists v, g, p;
        (split; [by apply Hsent|]); (split; [done|]); (split; [done|]); [by left | done].
Qed.

Lemma check_balance_budget a t l st :
  within_budget env t l st (check_balance env node a t l st).
Proof.
  unfold check_balance.
  assert (within_budget env t l st (Raise st)) as Hraise.
  { left. split; [apply quiet_refl | done]. }
  destruct (parse_int env (value t)) as [v|] eqn:Hv; [|done].
  destruct (parse_int env (gas t)) as [g|] eqn:Hg; [|done].
  destruct (parse_int env (gas_price t)) as [p|] eqn:Hp; [|done].
  destruct (v + g * p <=? balance l) eqn:Hle.
  - apply Z.leb_le in Hle. destruct (below_floor env p st).
    + apply mark_queued_and_break_budget. apply quiet_emit. intros ? ?; discriminate.
    + destruct (negb (valid_transaction env _)); [done|].
      destruct (recover_sender env (rebuild env t v g p)) as [sender|]; [|done].
      destruct (negb (String.eqb sender a)).
      * apply fail_and_continue_budget, quiet_refl.
      * apply send_budget; [done | by apply cost_of_parsed].
  - destruct (_ <? _).
    + apply fail_and_continue_budget, quiet_refl.
    + destruct (any_above_last _ _); [|done].
      apply mark_queued_and_break_budget, quiet_refl.
Qed.

Lemma process_candidate_budget a nn t l st :
  within_budget env t l st (process_candidate env node a nn t l st).
Proof.
  unfold process_candidate.
  destruct (previous_error l).
  { apply call_update_case; intros st' Hq; by left. }
  destruct (check_nonce env node a nn t l st) as [[l1 st1]|c] eqn:Hc.
  - apply check_nonce_through in Hc as [-> ->]. apply check_balance_budget.
  - revert Hc. unfold check_nonce.
    destruct (_ && _); [|done].
    destruct (String.eqb (status t) "new").
    + destruct (fetch_old_tx a t st) as [old|] eqn:Ho; [|done].
      destruct (String.eqb (status old) "error"); [done|].
      destruct (_ || _).
      { intros [= <-]. apply fail_and_continue_budget, quiet_refl. }
      rewrite (fetch_old_tx_nonce _ _ _ _ Ho), Z.ltb_irrefl.
      intros [= <-]. apply call_update_case; intros st' Hq; by left.
    + destruct (String.eqb (status t) "queued").
      * intros [= <-]. apply fail_and_continue_budget, quiet_refl.
      * intros [= <-]. left. split; [apply quiet_refl | done].
Qed.



(** ** Every row at most once *)

Lemma queue_loop_once a nn fuel l st :
  (length (transactions_out l) <= fuel)%nat ->
  exists st' rows new,
    loop_end_state (queue_loop env node fuel a nn l st) = Some st' /\
    sent (events st') = sent (events st) ++ new /\
    rows `sublist_of` rev (transactions_out l) /\
    Forall2 (sent_for env) rows new.
Proof.
  revert l st. induction fuel as [|fuel IH]; intros l st Hlen.
  - destruct (transactions_out l) as [|x q] eqn:E; [|simpl in Hlen; lia].
    simpl. rewrite E. simpl. exists st, [], []. rewrite app_nil_r.
    repeat split; [apply sublist_nil_l | constructor].
  - simpl. destruct (pop (transactions_out l)) as [[t rest]|] eqn:Hp.
    + apply pop_Some in Hp. rewrite Hp, rev_unit.
      pose proof (process_candidate_good env node [t] a nn (with_queue rest l) t st)
        as [_ Hq]; [by left|].
      pose proof (process_candidate_budget a nn t (with_queue rest l) st) as Hb.
      assert (exists rows1 new1,
        sent (events (control_state
                (process_candidate env node a nn t (with_queue rest l) st)))
          = sent (events st) ++ new1 /\
        (rows1 = [] \/ rows1 = [t]) /\ Forall2 (sent_for env) rows1 new1)
        as (rows1 & new1 & Hn1 & Hr1 & Hf1).
      { destruct Hb as [[(_ & _ & _ & Hs) _]|(v & g & p & Hs & _ & Hc & _)].
        - exists [], []. rewrite app_nil_r. split; [done|]. split; [by left | constructor].
        - exists [t], [rebuild env t v g p]. split; [done|]. split; [by right|].
          constructor; [by exists v, g, p | constructor]. }
      assert (forall rows2, rows2 `sublist_of` rev rest ->
                            (rows1 ++ rows2) `sublist_of` t :: rev rest) as Hsub.
      { intros rows2 H2. destruct Hr1 as [-> | ->]; simpl;
          [by apply sublist_cons | by apply sublist_skip]. }
      destruct (process_candidate env node a nn t (with_queue rest l) st)
        as [l' st'|l' st'|st'|st']; simpl in Hn1, Hq;
        try (exists st', rows1, new1; split; [done|]; split; [done|]; split; [|done];
             rewrite <- (app_nil_r rows1); apply Hsub, sublist_nil_l).
      destruct (IH l' st') as (st2 & rows2 & new2 & He & Hn2 & Hs2 & Hf2).
      * rewrite Hp, length_app in Hlen. simpl in Hlen.
        destruct Hq as [Hq|Hq]; rewrite Hq; simpl; lia.
      * exists st2, (rows1 ++ rows2), (new1 ++ new2). split; [done|].
        split; [by rewrite Hn2, Hn1, app_assoc|]. split; [|by apply Forall2_app].
        apply Hsub. destruct Hq as [Hq|Hq]; rewrite Hq in Hs2; [done|].
        simpl in Hs2. apply sublist_nil_r in Hs2 as ->. apply sublist_nil_l.
    + apply pop_None in Hp. rewrite Hp. exists st, [], []. rewrite app_nil_r.
      repeat split; [apply sublist_nil_l | constructor].
Qed.

(** X18.  No row is sent twice in a pass.  The raw transactions a pass
    hands to the node are the rebuilt transactions of distinct rows of its
    queue, one for each of a selection of rows, taken in the order in which
    the loop pops them (lowest nonce first). *)
Theorem pass_sends_each_row_once a st :
  exists st' o rows new,
    _process_transaction_queue env node a st = Some (st', o) /\
    sent (events st') = sent (events st) ++ new /\
    rows `sublist_of` rev (fetch_transactions_out a st) /\
    Forall2 (sent_for env) rows new.
Proof.
  unfold _process_transaction_queue, process_transaction_queue_pass_fuel.
  set (Q := fetch_transactions_out a st).
  destruct Q as [|q0 qs] eqn:EQ.
  { exists st, Returned, [], []. rewrite app_nil_r.
    repeat split; [apply sublist_nil_l | constructor]. }
  rewrite <- EQ.
  destruct (start_loop env node a Q st) as [[[nn l] st1]|] eqn:Es.
  - apply start_loop_spec in Es as [Hq ->].
    destruct (queue_loop_once a nn (length Q) l (tick (tick st)))
      as (st2 & rows & new & He & Hn & Hs & Hf); [by rewrite Hq|].
    rewrite Hq in Hs.
    destruct (queue_loop env node (length Q) a nn l (tick (tick st)))
      as [l2 st2'|st2'|st2'|]; simpl in He; try done; injection He as ->.
    + eexists _, _, rows, new. split; [done|]. split; [|done].
      destruct (finish_pass_frame a l2 st2) as [(_ & _ & _ & Hsent) _]. by rewrite Hsent.
    + by eexists _, _, rows, new.
    + by eexists _, _, rows, new.
  - eexists _, _, [], []. split; [done|]. rewrite app_nil_r.
    repeat split; [apply sublist_nil_l | constructor].
Qed.

End Pass.


End PassFacts.

(** * Further properties of the processing key *)

Module LockFacts.
Import Manager ManagerProofs QueueProofs LockProofs ManagerFacts.

Section Keys.

Context (env : Env) (node : Node).

Lemma keys_owned_step st tasks n i i' st' :
  keys_owned (st, tasks) ->
  tasks !! n = Some i ->
  inst_address i' = inst_address i ->
  (forall b, b ∈ processing_tx_queue (redis st') ->
     (b = inst_address i /\ running i' = true) \/
     (b ∈ processing_tx_queue (redis st) /\ (b <> inst_address i \/ running i = false))) ->
  keys_owned (st', <[n := i']> tasks).
Proof.
  intros Hown Hn Haddr Hkeys b Hb. simpl in *.
  destruct (Hkeys b Hb) as [[-> Hr]|[Hb' Hother]].
  - exists n, i'. split; [|done].
    apply list_lookup_insert_Some. left. repeat split. by eapply lookup_lt_Some.
  - destruct (Hown b Hb') as (m & j & Hm & Hr & Ha). exists m, j. split; [|done].
    apply list_lookup_insert_Some. right. split; [|done].
    simpl in Hm. intros Heq. rewrite Heq in Hn. rewrite Hn in Hm. injection Hm as <-.
    destruct Hother as [Hne|Hnr]; [done | by rewrite Hnr in Hr].
Qed.

Lemma task_step_keys_owned c c' :
  keys_owned c -> task_step env node c c' -> keys_owned c'.
Proof.
  intros Hown Hstep. destruct Hstep as [n i i' st st' tasks Hn Hi].
  unfold process_transaction_queue_step in Hi.
  destruct (inst_pc i) eqn:Hpc.
  - (* AtStart *)
    destruct (bool_decide _) eqn:Hb; injection Hi as <- <-.
    + apply (keys_owned_step st tasks n i); try done.
      intros b Hb'. right. split; [done|]. right. unfold running. by rewrite Hpc.
    + apply (keys_owned_step st tasks n i); try done.
      intros b Hb'. simpl in Hb'. apply elem_of_union in Hb' as [Hb'|Hb'].
      * apply elem_of_singleton in Hb'. by left.
      * right. split; [done|]. right. unfold running. by rewrite Hpc.
  - (* NotRunning *)
    injection Hi as <- <-.
    apply (keys_owned_step st tasks n i); try done.
    intros b Hb'. right. split; [done|]. right. unfold running. by rewrite Hpc.
  - (* InPass *)
    destruct (_process_transaction_queue env node (inst_address i) st)
      as [[st1 [|]]|] eqn:Hpass; [| |done]; injection Hi as <- <-;
      apply pass_keeps_cache in Hpass;
      (apply (keys_owned_step st tasks n i); try done;
       intros b Hb'; rewrite Hpass in Hb';
       destruct (decide (b = inst_address i)) as [->|Hne];
       [by left | right; split; [done | by left]]).
  - (* ReadFlag *)
    injection Hi as <- <-.
    apply (keys_owned_step st tasks n i); try done.
    intros b Hb'. simpl in Hb'.
    destruct (decide (b = inst_address i)) as [->|Hne].
    + left. split; [done|]. by destruct (bool_decide _).
    + right. split; [done | by left].
  - (* ResetExpiry *)
    injection Hi as <- <-.
    apply (keys_owned_step st tasks n i); try done.
    intros b Hb'. simpl in Hb'.
    destruct (decide (b = inst_address i)) as [->|Hne]; [by left|].
    right. split; [|by left].
    apply elem_of_union in Hb' as [Hb'|Hb']; [|done].
    by apply elem_of_singleton in Hb'.
  - (* Release *)
    injection Hi as <- <-.
    apply (keys_owned_step st tasks n i); try done.
    intros b Hb'. simpl in Hb'. apply elem_of_difference in Hb' as [Hb' Hne].
    right. split; [done|]. left. intros ->. apply Hne. by apply elem_of_singleton.
  - done.
Qed.

Lemma system_step_keys_owned c c' :
  keys_owned c -> system_step env node c c' -> keys_owned c'.
Proof.
  intros Hown [Hstep|Hstep]; [by eapply task_step_keys_owned|].
  destruct Hstep as [a st tasks Ha]. intros b Hb. simpl in Hb.
  apply elem_of_difference in Hb as [Hb _]. by apply Hown.
Qed.

Lemma keys_owned_run c0 c :
  keys_owned c0 -> rtc (system_step env node) c0 c -> keys_owned c.
Proof.
  intros H0 Hrun. induction Hrun as [|c1 c2 c3 Hstep _ IH]; [done|].
  apply IH. by eapply system_step_keys_owned.
Qed.

(** X10.  No processing key is left behind.  From a cache without
    processing keys, whatever the invocations do and whenever keys expire,
    every key in the cache belongs to an invocation that holds it for that
    address and has not yet deleted it; so once no invocation is between
    taking and deleting its key (all have returned, after a pass that raised
    as well), the cache holds no processing key. *)
Theorem processing_key_is_released (c0 c : State * list Instance) :
  processing_tx_queue (redis c0.1) = ∅ ->
  rtc (system_step env node) c0 c ->
  keys_owned c /\
  ((forall i, i ∈ c.2 -> running i = false) -> processing_tx_queue (redis c.1) = ∅).
Proof.
  intros Hinit Hrun.
  assert (keys_owned c) as Hown.
  { apply (keys_owned_run c0); [|done]. intros a Ha. rewrite Hinit in Ha.
    by apply elem_of_empty in Ha. }
  split; [done|]. intros Hidle. apply elem_of_equiv_empty_L. intros a Ha.
  destruct (Hown a Ha) as (n & i & Hn & Hr & _).
  apply list_elem_of_lookup_2 in Hn. by rewrite (Hidle i Hn) in Hr.
Qed.

End Keys.

(** X10 at one invocation for ["0xaa"] that runs to its end on an empty
    table: the key it took is gone. *)
Lemma processing_key_is_released_witness :
  let node := Sample.node 0 0 in
  let c0 := (Sample.idle, [Sample.invocation AtStart]) in
  let c := (set_redis (unlock "0xaa") (set_redis (clear_rerun "0xaa") Sample.locked),
            [Sample.invocation Done]) in
  rtc (system_step Sample.env node) c0 c /\
  processing_tx_queue (redis c.1) = ∅.
Proof.
  intros node c0 c.
  assert (rtc (system_step Sample.env node) c0 c) as Hrun.
  { eapply rtc_l.
    { left.
      apply (task_step_intro Sample.env node 0 (Sample.invocation AtStart)
               (Sample.invocation InPass) Sample.idle Sample.locked); [reflexivity|].
      apply (start_on_free_key Sample.env node (Sample.invocation AtStart) Sample.idle);
        [reflexivity|]. simpl. apply not_elem_of_empty. }
    eapply rtc_l.
    { left.
      apply (task_step_intro Sample.env node 0 (Sample.invocation InPass)
               (Sample.invocation ReadFlag) Sample.locked Sample.locked);
        reflexivity. }
    eapply rtc_l.
    { left.
      apply (task_step_intro Sample.env node 0 (Sample.invocation ReadFlag)
               (Sample.invocation Release) Sample.locked
               (set_redis (clear_rerun "0xaa") Sample.locked)); [reflexivity|].
      unfold process_transaction_queue_step. simpl.
      rewrite bool_decide_eq_false_2; [reflexivity|]. apply not_elem_of_empty. }
    eapply rtc_l; [|apply rtc_refl].
    left.
    apply (task_step_intro Sample.env node 0 (Sample.invocation Release)
             (Sample.invocation Done) (set_redis (clear_rerun "0xaa") Sample.locked)
             (set_redis (unlock "0xaa") (set_redis (clear_rerun "0xaa") Sample.locked)));
      reflexivity. }
  split; [exact Hrun|].
  apply (proj2 (processing_key_is_released Sample.env node c0 c eq_refl Hrun)).
  intros i Hi. simpl in Hi. apply list_elem_of_singleton in Hi. by subst i.
Defined.

End LockFacts.

(** * Properties of the notification and gas price tasks *)

Module TaskFacts.
Import Manager ManagerTasks.

Lemma services_of_spec address registrations name :
  name ∈ services_of address registrations <->
  exists reg, reg ∈ registrations /\ eth_address reg = address /\ service reg = name.
Proof.
  unfold services_of. rewrite elem_of_remove_dups, list_elem_of_fmap. split.
  - intros (reg & -> & Hin). apply list_elem_of_filter in Hin as [Ha Hin].
    exists reg. repeat split; [done|]. by apply String.eqb_eq.
  - intros (reg & Hin & Ha & <-). exists reg. split; [done|].
    apply list_elem_of_filter. split; [|done]. by apply String.eqb_eq.
Qed.

(** X11.  [send_notification] passes the message on once per channel at
    most and only for the address it was given: to the websocket
    dispatcher exactly when the address has a ['ws'] registration, to the
    push dispatcher exactly when it has a ['gcm'] or an ['apn'] one (once,
    also when it has both), and to nobody when it has none. *)
Theorem send_notification_channels registrations address message :
  let out := send_notification registrations address message in
  (EthNotification address message ∈ out <->
   exists reg, reg ∈ registrations /\ eth_address reg = address /\ service reg = "ws") /\
  (PushNotification address message ∈ out <->
   exists reg, reg ∈ registrations /\ eth_address reg = address /\
               (service reg = "gcm" \/ service reg = "apn")) /\
  NoDup out /\
  Forall (fun d => d = EthNotification address message \/
                   d = PushNotification address message) out.
Proof.
  intros out. subst out. unfold send_notification.
  pose proof (services_of_spec address registrations "ws") as Hws.
  pose proof (services_of_spec address registrations "gcm") as Hgcm.
  pose proof (services_of_spec address registrations "apn") as Hapn.
  assert ((exists reg, reg ∈ registrations /\ eth_address reg = address /\
                       (service reg = "gcm" \/ service reg = "apn")) <->
          "gcm" ∈ services_of address registrations \/
          "apn" ∈ services_of address registrations) as Hpush.
  { rewrite Hgcm, Hapn. split.
    - intros (reg & Hin & Ha & [Hs|Hs]); [left|right]; by exists reg.
    - intros [(reg & Hin & Ha & Hs)|(reg & Hin & Ha & Hs)]; exists reg;
        (split; [done|]); (split; [done|]); [by left | by right]. }
  set (ws := bool_decide ("ws" ∈ services_of address registrations)).
  set (push := bool_decide ("gcm" ∈ services_of address registrations)
               || bool_decide ("apn" ∈ services_of address registrations)).
  assert (ws = true <-> "ws" ∈ services_of address registrations) as Hws'
    by apply bool_decide_eq_true.
  assert (push = true <-> "gcm" ∈ services_of address registrations \/
                          "apn" ∈ services_of address registrations) as Hpush'.
  { unfold push. by rewrite orb_true_iff, !bool_decide_eq_true. }
  rewrite Hpush, <- Hws, <- Hws', <- Hpush'. clearbody ws push.
  destruct ws, push; simpl; rewrite ?elem_of_cons, ?elem_of_nil;
    (split; [intuition congruence|]); (split; [intuition congruence|]);
    (split; [repeat constructor; rewrite ?elem_of_cons, ?elem_of_nil; intuition congruence
            | repeat constructor; intuition congruence]).
Qed.





End TaskFacts.

(** * Properties of the sanity check *)

Module SanityFacts.
Import Manager ManagerProofs QueueProofs ManagerFacts UpdateFacts SanityCheck.

Section Sanity.

Context (env : Env) (senv : SanityEnv) (node : Node).

Lemma with_status_payload s bn t t0 :
  same_payload t0 t -> same_payload t0 (with_status s bn t).
Proof. unfold same_payload. simpl. tauto. Qed.

Lemma eq_same_payload (t t' : Transaction) :
  t' = t \/ (same_payload t t' /\ changed_by_check node (@nil Transaction) t') ->
  same_payload t t'.
Proof. intros [->|[H _]]; [apply same_payload_refl | done]. Qed.

Lemma checked_rows_refl rows0 : checked_rows node rows0 rows0.
Proof.
  unfold checked_rows. generalize rows0 at 1 as base.
  induction rows0 as [|t rows IH]; intros base; constructor; [by left | apply IH].
Qed.

(** The rows after an update that the run makes for the row [t]. *)
Lemma checked_rows_update rows0 rows t s bn :
  checked_rows node rows0 rows ->
  (forall t', transaction_id t' = transaction_id t -> Manager.status t' = s ->
     changed_by_check node rows0 t') ->
  checked_rows node rows0 (sql_update_status (transaction_id t) s bn rows).
Proof.
  unfold checked_rows, sql_update_status. intros H Hwhy.
  apply Forall2_fmap_r. eapply Forall2_impl; [exact H|].
  intros t0 t1 Ht. simpl.
  destruct (transaction_id t1 =? transaction_id t) eqn:E; [|done].
  apply Z.eqb_eq in E. right. split.
  - apply with_status_payload. destruct Ht as [->|[Hp _]]; [apply same_payload_refl|done].
  - by apply Hwhy.
Qed.

Lemma sanity_steps_rows st0 st :
  sanity_steps env senv node st0 st ->
  checked_rows node (transactions st0) (transactions st) /\
  redis st = redis st0 /\ last_blocknumber st = last_blocknumber st0 /\
  tokens st = tokens st0.
Proof.
  induction 1 as [|st _ IH|st a _ IH _|st t tx moment _ IH _ _ _ _ _ _
                  |st t moment bn _ IH Ht Hp Hn|st t moment _ IH Ht Hp Hv Hn];
    try exact IH.
  - split; [apply checked_rows_refl | done].
  - destruct IH as (IH & Hr & Hl & Hk). rewrite update_transaction_state.
    destruct (update_transaction_body_footprint env node (transaction_id t)
                "confirmed" 0 st) as [(Hr' & Hl' & Hk' & _) Hrows].
    split; [|by rewrite Hr', Hl', Hk'].
    destruct Hrows as [->|[b ->]]; [done|].
    apply checked_rows_update; [done|]. intros t' Hid Hs.
    exists t, moment. repeat split; try done. left. split; [done|]. by exists bn.
  - destruct IH as (IH & Hr & Hl & Hk). rewrite update_transaction_state.
    destruct (update_transaction_body_footprint env node (transaction_id t)
                "error" 0 st) as [(Hr' & Hl' & Hk' & _) Hrows].
    split; [|by rewrite Hr', Hl', Hk'].
    destruct Hrows as [->|[b ->]]; [done|].
    apply checked_rows_update; [done|]. intros t' Hid Hs.
    exists t, moment. repeat split; try done. by right.
Qed.

(** A row that is still pending is a row of the table the run started
    with. *)
Lemma pending_row st0 st t :
  sanity_steps env senv node st0 st ->
  t ∈ transactions st -> is_pending t = true -> t ∈ transactions st0.
Proof.
  intros Hs Hin Hp. apply sanity_steps_rows in Hs as [Hrows _].
  apply list_elem_of_lookup_1 in Hin as [i Hi].
  destruct (Forall2_lookup_r _ _ _ _ _ Hrows Hi) as (t0 & H0 & Ht).
  destruct Ht as [->|[_ (t1 & moment & _ & _ & _ & [[Hc _]|[He _]])]].
  - by eapply list_elem_of_lookup_2.
  - unfold is_pending in Hp. rewrite Hc in Hp. done.
  - unfold is_pending in Hp. rewrite He in Hp. done.
Qed.

Lemma for_each_steps {A} st0 (body : A -> State * gset string -> (State * gset string) * outcome)
    (l : list A) (acc : State * gset string) :
  (forall x acc, x ∈ l -> sanity_steps env senv node st0 acc.1 ->
                 sanity_steps env senv node st0 (body x acc).1.1) ->
  sanity_steps env senv node st0 acc.1 ->
  sanity_steps env senv node st0 (for_each body l acc).1.1.
Proof.
  revert acc. induction l as [|x rest IH]; intros acc Hbody Hacc; [done|]. simpl.
  pose proof (Hbody x acc ltac:(by left) Hacc) as Hx.
  destruct (body x acc) as [acc' [|]]; [|done].
  apply IH; [|done]. intros y acc0 Hy. apply Hbody. by right.
Qed.

Lemma check_incoming_steps st0 a t acc :
  sanity_steps env senv node st0 acc.1 ->
  t ∈ transactions st0 -> is_pending t = true ->
  sanity_steps env senv node st0 (check_incoming env node a t acc).1.1.
Proof.
  destruct acc as [st to_check]. simpl. intros Hs Ht Hp. unfold check_incoming.
  destruct (signed t) eqn:Hv; [done|].
  assert (v t = None) as Hnone.
  { unfold signed in Hv. apply bool_decide_eq_false in Hv.
    destruct (v t); [|done]. destruct Hv. by eexists. }
  destruct (eth_getTransactionByHash node (clock st) (hash t)) as [[[bn|]]|] eqn:Hn.
  - unfold update_and_mark.
    pose proof (sanity_confirm env senv node st0 (tick st) t (clock st) bn
                  ltac:(by apply sanity_tick) Ht Hp Hn) as H.
    by destruct (update_transaction env node (transaction_id t) "confirmed" 0 (tick st))
      as [st' [|]].
  - simpl. by apply sanity_tick.
  - unfold update_and_mark.
    pose proof (sanity_drop env senv node st0 (tick st) t (clock st)
                  ltac:(by apply sanity_tick) Ht Hp Hnone Hn) as H.
    by destruct (update_transaction env node (transaction_id t) "error" 0 (tick st))
      as [st' [|]].
Qed.

Lemma check_unconfirmed_steps st0 t acc :
  sanity_steps env senv node st0 acc.1 ->
  t ∈ transactions st0 -> signed t = true ->
  sanity_steps env senv node st0 (check_unconfirmed env senv node t acc).1.1.
Proof.
  destruct acc as [st to_check]. simpl. intros Hs Ht Hv. unfold check_unconfirmed.
  destruct (String.eqb (status t) "unconfirmed") eqn:Hu; [|done]. cbn [negb].
  assert (is_pending t = true) as Hp by (unfold is_pending; by rewrite Hu).
  apply String.eqb_eq in Hu.
  assert (is_Some (v t)) as Hsigned by (by apply bool_decide_eq_true in Hv).
  destruct (eth_getTransactionByHash node (clock st) (hash t)) as [[[bn|]]|] eqn:Hn.
  - unfold update_and_mark.
    pose proof (sanity_confirm env senv node st0 (tick st) t (clock st) bn
                  ltac:(by apply sanity_tick) Ht Hp Hn) as H.
    by destruct (update_transaction env node (transaction_id t) "confirmed" 0 (tick st))
      as [st' [|]].
  - simpl. by apply sanity_tick.
  - destruct (recreate env senv t) as [tx|] eqn:Hr; [|by apply sanity_tick].
    destruct (String.eqb (calculate_transaction_hash senv tx) (hash t)) eqn:Hh;
      cbn [negb]; [|by apply sanity_tick].
    apply String.eqb_eq in Hh.
    assert (sanity_steps env senv node st0 (tick (emit (SendRaw tx) (tick st)))) as H.
    { apply sanity_tick. apply (sanity_resubmit env senv node st0 _ t tx (clock st));
        try done. by apply sanity_tick. }
    by destruct (eth_sendRawTransaction node _ tx).
Qed.

Lemma check_address_steps st0 a acc :
  sanity_steps env senv node st0 acc.1 ->
  sanity_steps env senv node st0 (check_address env senv node a acc).1.1.
Proof.
  destruct acc as [st to_check]. simpl. intros Hs. unfold check_address.
  destruct (queued_transactions a st) as [|q qs].
  - apply for_each_steps; [|done]. intros t acc Hin Hacc.
    unfold unconfirmed_transactions in Hin. apply list_elem_of_filter in Hin as [Hc Hin].
    apply Is_true_true in Hc. apply andb_true_iff in Hc as [Hc Hv].
    apply andb_true_iff in Hc as [_ Hu].
    apply check_unconfirmed_steps; [done| |done].
    apply (pending_row st0 st); [done|done|]. unfold is_pending. by rewrite Hu.
  - destruct (incoming_transactions a st) as [|i0 is0] eqn:Hi; [done|].
    change (sanity_steps env senv node st0
              (for_each (check_incoming env node a) (i0 :: is0) (st, to_check)).1.1).
    rewrite <- Hi. apply for_each_steps; [|done]. intros t acc Hin Hacc.
    unfold incoming_transactions in Hin. apply list_elem_of_filter in Hin as [Hc Hin].
    apply Is_true_true in Hc. apply andb_true_iff in Hc as [_ Hp].
    apply check_incoming_steps; [done| |done]. by apply (pending_row st0 st).
Qed.

Lemma dispatch_addresses_sanity st0 addresses st :
  sanity_steps env senv node st0 st ->
  sanity_steps env senv node st0 (dispatch_addresses addresses st).
Proof.
  revert st. induction addresses as [|x rest IH]; intros st H0; [done|]. simpl.
  apply IH. destruct (String.eqb x "0x") eqn:E; cbn [negb]; [done|].
  apply sanity_request; [done|]. by apply String.eqb_neq.
Qed.

(** A run is a sequence of the steps of [sanity_steps]. *)
Lemma sanity_check_steps frequency st :
  sanity_steps env senv node st (sc_state (sanity_check env senv node frequency st)).
Proof.
  unfold sanity_check, sanity_check_body. simpl.
  pose proof (for_each_steps st (check_address env senv node)
                (elements (addresses_to_visit senv st)) (st, ∅)) as H.
  destruct (for_each (check_address env senv node) _ _) as [[st' to_check] [|]];
    simpl in *.
  - apply dispatch_addresses_sanity. apply H; [|apply sanity_start].
    intros a acc _. apply check_address_steps.
  - apply H; [|apply sanity_start]. intros a acc _. apply check_address_steps.
Qed.


Lemma unique_by_id (rows : list Transaction) (t1 t2 : Transaction) :
  NoDup (transaction_id <$> rows) ->
  t1 ∈ rows -> t2 ∈ rows -> transaction_id t1 = transaction_id t2 -> t1 = t2.
Proof.
  induction rows as [|x rows IH]; intros Hnd H1 H2 Hid.
  { by apply elem_of_nil in H1. }
  rewrite fmap_cons in Hnd. apply NoDup_cons in Hnd as [Hx Hnd].
  apply elem_of_cons in H1 as [->|H1]; apply elem_of_cons in H2 as [->|H2].
  - done.
  - destruct Hx. rewrite Hid. apply list_elem_of_fmap. by exists t2.
  - destruct Hx. rewrite <- Hid. apply list_elem_of_fmap. by exists t1.
  - by apply IH.
Qed.

(** X14.  What a sanity check may do to the table, when transaction ids
    are unique: every row keeps its place and all its columns but status
    and block number; a row that changed was pending before and is now
    either ['confirmed'], and the node reported its transaction in a block,
    or ['error'], and then it is an external row (no signature stored)
    whose transaction the node did not know.  A transaction the service
    signed itself is never set to ['error'] by the sanity check.  The cache
    is not touched. *)
Theorem sanity_check_spares_signed_rows frequency st :
  NoDup (transaction_id <$> transactions st) ->
  let st' := sc_state (sanity_check env senv node frequency st) in
  Forall2 (checked_row node) (transactions st) (transactions st') /\
  redis st' = redis st.
Proof.
  intros Hnd st'. subst st'.
  destruct (sanity_steps_rows _ _ (sanity_check_steps frequency st)) as (Hrows & Hr & _).
  split; [|done]. unfold checked_rows in Hrows.
  apply Forall2_same_length_lookup in Hrows as [Hlen Hrows].
  apply Forall2_same_length_lookup. split; [done|]. intros i t t' Hi Hi'.
  destruct (Hrows i t t' Hi Hi') as [->|[Hp (t1 & moment & Hin & Hid & Hpend & Hwhy)]];
    [by left|].
  assert (t1 = t) as ->.
  { apply (unique_by_id (transactions st)); [done|done| |].
    - by eapply list_elem_of_lookup_2.
    - rewrite Hid. by destruct Hp as [-> _]. }
  right. split; [done|]. split; [done|].
  destruct Hwhy as [[Hc [bn Hn]]|(He & Hv & Hn)].
  - left. split; [done|]. by exists moment, bn.
  - right. split; [done|]. split; [done|]. by exists moment.
Qed.


End Sanity.

(** X14 at an unconfirmed payment that the node does not know. *)
Lemma sanity_check_spares_signed_rows_witness :
  let st := Sample.one_payment "unconfirmed" in
  let st' := sc_state (sanity_check Sample.env Scenario.sanity_env (Sample.node 0 0)
                         (Some 60) st) in
  Forall2 (checked_row (Sample.node 0 0)) (transactions st) (transactions st') /\
  redis st' = redis st.
Proof.
  apply (sanity_check_spares_signed_rows Sample.env Scenario.sanity_env (Sample.node 0 0)
           (Some 60) (Sample.one_payment "unconfirmed")).
  simpl. apply NoDup_singleton.
Defined.

End SanityFacts.

(** * Properties of the subscription handlers *)

Module SubscriptionFacts.
Import Subscriptions.

Section Handlers.

Context (validate_address : string -> bool).

Lemma names_spec addresses reg :
  names addresses reg = true <-> eth_address reg ∈ addresses.
Proof.
  unfold names. induction addresses as [|a rest IH]; simpl.
  - split; [done | by intros ?%elem_of_nil].
  - rewrite orb_true_iff, IH, elem_of_cons, String.eqb_eq. tauto.
Qed.

Lemma owned_by_other user other reg :
  other <> user -> owned_by user reg = true -> owned_by other reg = false.
Proof.
  unfold owned_by. destruct user as [u|], (token_id reg) as [o|]; try done.
  intros Hne Ho. apply String.eqb_eq in Ho. subst o.
  destruct other as [w|]; [|done]. apply String.eqb_neq. congruence.
Qed.

Lemma list_after_delete user other addresses rows :
  list_subscriptions other
    (filter (fun reg => negb (owned_by user reg && names addresses reg) = true) rows)
  = if decide (other = user)
    then filter (fun a => a ∉ addresses) (list_subscriptions other rows)
    else list_subscriptions other rows.
Proof.
  unfold list_subscriptions. induction rows as [|reg rows IH].
  { by destruct (decide (other = user)). }
  rewrite (filter_cons _ reg rows).
  rewrite (filter_cons (fun reg => owned_by other reg = true) reg rows).
  destruct (decide (other = user)) as [->|Hne].
  - destruct (owned_by user reg) eqn:Ho; destruct (names addresses reg) eqn:Hn;
      repeat first [rewrite decide_True by done | rewrite decide_False by done
                   | rewrite filter_cons | rewrite fmap_cons];
      try exact IH.
    + apply names_spec in Hn. rewrite decide_False by (by intros H; apply H). exact IH.
    + assert (eth_address reg ∉ addresses) as Hout.
      { intros H. apply names_spec in H. by rewrite H in Hn. }
      rewrite decide_True by done. by rewrite IH.
    + rewrite Ho. rewrite decide_False by done. exact IH.
    + rewrite Ho. rewrite decide_False by done. exact IH.
  - destruct (owned_by user reg) eqn:Ho.
    + pose proof (owned_by_other user other reg Hne Ho) as Hoo. rewrite Hoo.
      destruct (names addresses reg) eqn:Hn;
        repeat first [rewrite decide_True by done | rewrite decide_False by done
                     | rewrite filter_cons | rewrite fmap_cons]; try exact IH.
      rewrite Hoo. by rewrite decide_False by done.
    + rewrite decide_True by done. rewrite filter_cons.
      destruct (owned_by other reg) eqn:Hoo.
      * rewrite !decide_True by done. by rewrite !fmap_cons, IH.
      * rewrite !decide_False by done. exact IH.
Qed.

Lemma invalid_address addresses :
  forallb validate_address addresses = false ->
  exists a, a ∈ addresses /\ validate_address a = false.
Proof.
  induction addresses as [|a rest IH]; simpl; [done|].
  destruct (validate_address a) eqn:E; simpl; intros H.
  - destruct (IH H) as (x & Hx & Hf). exists x. split; [by right | done].
  - exists a. split; [by left | done].
Qed.

(** X16.  [unsubscribe] removes exactly what it names.  When it returns,
    every address was valid and there was at least one; the caller's
    [list_subscriptions] is the list from before without the named
    addresses, in the same order, and the list of every other client is as
    it was.  When it raises, because an address is invalid or none was
    given, the table is unchanged. *)
Theorem unsubscribe_removes_exactly user addresses rows :
  let res := unsubscribe validate_address user addresses rows in
  match res.2 with
  | inl _ =>
      addresses <> [] /\ Forall (fun a => validate_address a = true) addresses /\
      list_subscriptions user res.1
        = filter (fun a => a ∉ addresses) (list_subscriptions user rows) /\
      (forall other, other <> user ->
         list_subscriptions other res.1 = list_subscriptions other rows)
  | inr e =>
      res.1 = rows /\
      (e = bad_arguments <-> exists a, a ∈ addresses /\ validate_address a = false)
  end.
Proof.
  intros res. subst res. unfold unsubscribe.
  destruct (forallb validate_address addresses) eqn:Hv; simpl.
  - pose proof (proj1 (forallb_forall _ _) Hv) as Hv'.
    assert (Forall (fun a => validate_address a = true) addresses) as Hall.
    { apply Forall_forall. intros a Ha. apply Hv'. by apply list_elem_of_In. }
    destruct addresses as [|a rest]; cbn [fst snd].
    + split; [done|]. split; [done|]. intros (a & Ha & _). by apply elem_of_nil in Ha.
    + split; [done|]. split; [done|]. split.
      * rewrite (list_after_delete user user). by rewrite decide_True.
      * intros other Hne. rewrite (list_after_delete user other).
        by rewrite decide_False.
  - split; [done|]. split; [|done]. intros _. by apply invalid_address.
Qed.

End Handlers.

End SubscriptionFacts.

(** * Further properties of the intake *)

Module IntakeFacts.
Import TokenEth.

Section Intake.

Context (env : Env) (node : Node).

(** X17.  How a submission can end.  When [send_transaction] returns a
    hash, exactly one raw transaction went to the node and one row with
    that hash was added.  When it raises, then either nothing happened (no
    event, no row, the nonce hints as before), or the node refused the
    transaction and the error is [unexpected_error] (still no row and the
    hints as before), or, with a block monitor attached, the node accepted
    the transaction and the row was added, but the hash the service
    computes differs from the node's and the assertion of line 232 failed:
    the client sees an error although its transaction is on its way.  (The
    submission lock and [get_balances] are as in the model of the
    intake.) *)
Theorem submission_outcomes user raw signature st :
  let res := send_transaction env node user raw signature st in
  match res.2 with
  | inl tx_hash =>
      exists tx row,
        Manager.sent (events res.1) = Manager.sent (events st) ++ [tx] /\
        transactions res.1 = transactions st ++ [row] /\
        transaction_hash row = tx_hash
  | inr e =>
      (events res.1 = events st /\ transactions res.1 = transactions st /\
       nonce_hint res.1 = nonce_hint st) \/
      (e = JsonRPCInternalError "unexpected_error"
             "An error occured communicating with the ethereum network, try again later" /\
       (exists tx, events res.1 = events st ++ [SendRaw tx]) /\
       transactions res.1 = transactions st /\ nonce_hint res.1 = nonce_hint st) \/
      (e = OtherException /\ has_monitor env = true /\
       exists tx row, events res.1 = events st ++ [SendRaw tx] /\
                      transactions res.1 = transactions st ++ [row])
  end.
Proof.
  intros res. subst res. unfold send_transaction.
  destruct (decode_transaction env raw) as [tx0|]; [|by left].
  destruct (attach_signature env tx0 signature) as [tx|e]; [|by left].
  destruct (recover_sender env tx) as [from_addr|]; [|by left].
  unfold with_redis_lock.
  destruct (bool_decide _); [by left|].
  set (st1 := set_submission_lock _ st).
  assert (events st1 = events st /\ transactions st1 = transactions st /\
          nonce_hint st1 = nonce_hint st) as (Hev & Htx & Hnh) by done.
  clearbody st1. unfold locked_section.
  destruct (fetch_existing from_addr (tx_nonce tx) st1); [by left|].
  simpl. destruct (_ <? _); [by left|].
  destruct (tx_nonce tx <? _); [by left|].
  destruct (_ <? tx_nonce tx); [by left|].
  destruct (eth_sendRawTransaction node _ tx) as [tx_hash|err]; simpl.
  - destruct (has_monitor env) eqn:Hm; [destruct (String.eqb _ _)|]; simpl.
    + eexists tx, _. rewrite !ManagerProofs.sent_app, Hev, Htx. simpl.
      rewrite app_nil_r. by repeat split.
    + right. right. split; [done|]. split; [done|]. eexists tx, _.
      rewrite Hev, Htx. by split.
    + eexists tx, _. rewrite !ManagerProofs.sent_app, Hev, Htx. by repeat split.
  - right. left. split; [done|]. rewrite Hev, Htx, Hnh. repeat split. by exists tx.
Qed.

End Intake.

End IntakeFacts.
